(** * eVTOL fleet simulation: a shallow embedding of the event engine

    The program simulates twenty aircraft that fly until their battery is
    empty, queue for one of three chargers, charge, and fly again, for three
    simulated hours.  This file embeds the C++ sources (the header, the
    implementation file, the commented single-file variant and the unit-test
    file, which all agree on the code modelled here) and states the
    properties of the design document over that embedding. *)

From Stdlib Require Import ZArith QArith Qabs Qpower Lqa Floats Uint63 Lia.
From stdpp Require Import base decidable option list strings gmap.

(** ** The arithmetic of [double]

    The program computes on [double].  The embedding is written once over the
    operations the program uses, and the program is its reading at IEEE
    binary64: the primitive floats of the kernel, bit for bit what the
    compiled program computes.  Properties that do not depend on how the
    operations round are proved for every carrier, and so for binary64. *)

Class Double (D : Type) := {
  dadd : D → D → D;            (* a + b *)
  dmul : D → D → D;            (* a * b *)
  ddiv : D → D → D;            (* a / b *)
  dlt : D → D → bool;          (* a < b *)
  dle : D → D → bool;          (* a <= b *)
  of_int : Z → D;              (* the conversion int -> double *)
}.

(** What the fault model needs of the arithmetic: a sample that is not
    negative is never below zero times a duration. *)
Class ZeroRate (D : Type) `{Double D} : Prop :=
  zero_rate : ∀ sample d,
    dle (of_int 0) sample = true → dlt sample (dmul (of_int 0) d) = false.

Declare Scope double_scope.
Delimit Scope double_scope with D.
Infix "+" := dadd : double_scope.
Infix "*" := dmul : double_scope.
Infix "/" := ddiv : double_scope.
Infix "<?" := dlt : double_scope.
Infix "<=?" := dle : double_scope.
(** C++ writes the horizon tests with [>]; [a > b] is [b < a]. *)
Notation "a >? b" := (dlt b a) (at level 70, no associativity) : double_scope.

(** A decimal literal [n/10^k] of the source: numerator and denominator are
    small integers, exactly representable, so one correctly rounded division
    yields the binary64 value nearest to the literal, which is the value the
    compiler stores. *)
Definition literal `{Double D} (q : Q) : D :=
  (of_int (Qnum q) / of_int (Z.pos (Qden q)))%D.

(** binary64. *)
Definition float_of_Z (z : Z) : float :=
  match z with
  | Z0 => PrimFloat.of_uint63 0%uint63
  | Z.pos _ => PrimFloat.of_uint63 (Uint63.of_Z z)
  | Z.neg p => PrimFloat.opp (PrimFloat.of_uint63 (Uint63.of_Z (Z.pos p)))
  end.

#[export] Instance binary64 : Double float := {|
  dadd := PrimFloat.add;
  dmul := PrimFloat.mul;
  ddiv := PrimFloat.div;
  dlt := PrimFloat.ltb;
  dle := PrimFloat.leb;
  of_int := float_of_Z;
|}.

(** ** Data model (the header) *)

Inductive Company := ALPHA | BRAVO | CHARLIE | DELTA | ECHO.

Definition Company_index (c : Company) : nat :=
  match c with ALPHA => 0 | BRAVO => 1 | CHARLIE => 2 | DELTA => 3 | ECHO => 4 end.

Definition Company_of_index (n : nat) : option Company :=
  match n with
  | 0 => Some ALPHA | 1 => Some BRAVO | 2 => Some CHARLIE
  | 3 => Some DELTA | 4 => Some ECHO | _ => None
  end.

#[export] Instance Company_eq_dec : EqDecision Company.
Proof. solve_decision. Defined.

#[export] Instance Company_countable : Countable Company :=
  inj_countable Company_index Company_of_index
    (λ c, match c with
          | ALPHA | BRAVO | CHARLIE | DELTA | ECHO => eq_refl
          end).

Definition NUM_VEHICLES : nat := 20.
Definition NUM_CHARGERS : nat := 3.

Section Model.
Context {D : Type} `{Double D}.
Local Open Scope double_scope.

Definition SIM_DURATION : D := of_int 3.

Record VehicleType := {
  company : Company;
  cruiseSpeed : D;
  batteryCapacity : D;
  timeToCharge : D;
  energyPerMile : D;
  passengerCount : Z;
  faultProbPerHour : D;
}.

Record Stats := {
  totalFlightTime : D;
  totalDistance : D;
  totalChargeTime : D;
  passengerMiles : D;
  totalFlights : Z;
  totalCharges : Z;
  totalFaults : Z;
}.

(** A [Vehicle] lives behind a [shared_ptr]; [addr] is the identity of the
    pointed-to object (its index in [vehicles]).  The member
    [nextAvailableTime] is never read or written and is left out. *)
Record Vehicle := {
  addr : nat;
  type : VehicleType;
}.

Definition getFlightDuration (v : Vehicle) : D :=
  batteryCapacity (type v) / (cruiseSpeed (type v) * energyPerMile (type v)).

Definition getDistancePerFlight (v : Vehicle) : D :=
  cruiseSpeed (type v) * getFlightDuration v.

(** The two closures pushed on the event queue, as data: the captured
    variables are the constructor arguments. *)
Inductive Action :=
  | FlightEnd (v : Vehicle) (startTime flightDuration : D)
      (* [this, v, startTime, flightDuration] { processFlightEnd(v, startTime, flightDuration); } *)
  | ChargeEnd (v : Vehicle) (i : nat).
      (* [this, v, i] { finishCharging(v, i); } *)

Record Event := {
  time : D;
  action : Action;
}.

(** History of a run: which events the loop of [run] fired and what happened
    at the waiting line, in program order.  The program never reads it; it
    is kept so that properties about the whole past of a run can be stated. *)
Inductive Obs :=
  | Fired (e : Event)                          (* e.action() in run *)
  | Joined (v : Vehicle)                       (* chargingQueue.push(v) *)
  | Assigned (v : Vehicle) (i : nat) (now : D) (* front/pop, then activeChargers[i] = v *)
  | Dropped (v : Vehicle) (i : nat) (now : D). (* front/pop, then continue *)

(** The members of [Simulation], the number of samples taken so far from the
    global generator through [dist01], and the history. *)
Record Simulation := {
  eventQueue : list Event;
  chargingQueue : list Vehicle;
  activeChargers : list (option Vehicle);
  vehicleTypes : list VehicleType;
  vehicles : list Vehicle;
  stats : gmap Company Stats;
  draws : nat;
  history : list Obs;
}.

Definition set_eventQueue (f : list Event → list Event) (s : Simulation) :=
  {| eventQueue := f (eventQueue s); chargingQueue := chargingQueue s;
     activeChargers := activeChargers s; vehicleTypes := vehicleTypes s;
     vehicles := vehicles s; stats := stats s; draws := draws s;
     history := history s |}.

Definition set_chargingQueue (f : list Vehicle → list Vehicle) (s : Simulation) :=
  {| eventQueue := eventQueue s; chargingQueue := f (chargingQueue s);
     activeChargers := activeChargers s; vehicleTypes := vehicleTypes s;
     vehicles := vehicles s; stats := stats s; draws := draws s;
     history := history s |}.

Definition set_activeChargers
    (f : list (option Vehicle) → list (option Vehicle)) (s : Simulation) :=
  {| eventQueue := eventQueue s; chargingQueue := chargingQueue s;
     activeChargers := f (activeChargers s); vehicleTypes := vehicleTypes s;
     vehicles := vehicles s; stats := stats s; draws := draws s;
     history := history s |}.

Definition set_vehicleTypes (f : list VehicleType → list VehicleType) (s : Simulation) :=
  {| eventQueue := eventQueue s; chargingQueue := chargingQueue s;
     activeChargers := activeChargers s; vehicleTypes := f (vehicleTypes s);
     vehicles := vehicles s; stats := stats s; draws := draws s;
     history := history s |}.

Definition set_vehicles (f : list Vehicle → list Vehicle) (s : Simulation) :=
  {| eventQueue := eventQueue s; chargingQueue := chargingQueue s;
     activeChargers := activeChargers s; vehicleTypes := vehicleTypes s;
     vehicles := f (vehicles s); stats := stats s; draws := draws s;
     history := history s |}.

Definition set_stats (f : gmap Company Stats → gmap Company Stats) (s : Simulation) :=
  {| eventQueue := eventQueue s; chargingQueue := chargingQueue s;
     activeChargers := activeChargers s; vehicleTypes := vehicleTypes s;
     vehicles := vehicles s; stats := f (stats s); draws := draws s;
     history := history s |}.

Definition set_draws (f : nat → nat) (s : Simulation) :=
  {| eventQueue := eventQueue s; chargingQueue := chargingQueue s;
     activeChargers := activeChargers s; vehicleTypes := vehicleTypes s;
     vehicles := vehicles s; stats := stats s; draws := f (draws s);
     history := history s |}.

Definition observe (o : Obs) (s : Simulation) :=
  {| eventQueue := eventQueue s; chargingQueue := chargingQueue s;
     activeChargers := activeChargers s; vehicleTypes := vehicleTypes s;
     vehicles := vehicles s; stats := stats s; draws := draws s;
     history := history s ++ [o] |}.

(** [std::priority_queue<Event, std::vector<Event>, std::greater<Event>>]:
    the pending events are a bag; [top] hands out one of them and [pop]
    removes it.  The standard does not say which of several events with the
    same timestamp comes first, so the container is an interface here, and
    what is proved for every run is proved for every such container. *)
Class EventQueue := {
  top : list Event → option Event;   (* None: the queue is empty *)
  pop : list Event → list Event;
}.

Definition push (e : Event) (q : list Event) : list Event := q ++ [e].

(** The container the runs below are computed with: the earliest event, and
    among events with the same timestamp the one pushed first. *)
Fixpoint earliest (best : Event) (q : list Event) : Event :=
  match q with
  | [] => best
  | e :: q => earliest (if time e <? time best then e else best) q
  end.

Definition earliest_top (q : list Event) : option Event :=
  match q with
  | [] => None
  | e :: q => Some (earliest e q)
  end.

(** Removes the event [earliest] selects: position of the leftmost minimum. *)
Fixpoint earliest_index (best : Event) (ibest i : nat) (q : list Event) : nat :=
  match q with
  | [] => ibest
  | e :: q =>
      if time e <? time best then earliest_index e i (S i) q
      else earliest_index best ibest (S i) q
  end.

Definition earliest_pop (q : list Event) : list Event :=
  match q with
  | [] => []
  | e :: q' => delete (earliest_index e 0 1 q') q
  end.

Definition earliest_first : EventQueue :=
  {| top := earliest_top; pop := earliest_pop |}.

(** The global generator: [pick i] is what the [i]-th call [dist(rng)] of
    [createVehicles] returns and [dist01 k] what the [k]-th call
    [dist01(rng)] returns. *)
Record Rng := {
  pick : nat → nat;
  dist01 : nat → D;
}.

Definition Stats0 : Stats :=
  {| totalFlightTime := of_int 0; totalDistance := of_int 0;
     totalChargeTime := of_int 0; passengerMiles := of_int 0;
     totalFlights := 0; totalCharges := 0; totalFaults := 0 |}.

(** [stats[c]]: the entry of the map, value-initialised when absent. *)
Definition stats_at (c : Company) (s : Simulation) : Stats :=
  default Stats0 (stats s !! c).

Definition vehicleTypes_table : list VehicleType :=
  [ {| company := ALPHA; cruiseSpeed := of_int 120; batteryCapacity := of_int 320;
       timeToCharge := literal 0.6; energyPerMile := literal 1.6;
       passengerCount := 4; faultProbPerHour := literal 0.25 |};
    {| company := BRAVO; cruiseSpeed := of_int 100; batteryCapacity := of_int 100;
       timeToCharge := literal 0.2; energyPerMile := literal 1.5;
       passengerCount := 5; faultProbPerHour := literal 0.10 |};
    {| company := CHARLIE; cruiseSpeed := of_int 160; batteryCapacity := of_int 220;
       timeToCharge := literal 0.8; energyPerMile := literal 2.2;
       passengerCount := 3; faultProbPerHour := literal 0.05 |};
    {| company := DELTA; cruiseSpeed := of_int 90; batteryCapacity := of_int 120;
       timeToCharge := literal 0.62; energyPerMile := literal 0.8;
       passengerCount := 2; faultProbPerHour := literal 0.22 |};
    {| company := ECHO; cruiseSpeed := of_int 30; batteryCapacity := of_int 150;
       timeToCharge := literal 0.3; energyPerMile := literal 5.8;
       passengerCount := 2; faultProbPerHour := literal 0.61 |} ].

Section Engine.
Context {queue : EventQueue} (rng : Rng).

Definition loadVehicleTypes (s : Simulation) : Simulation :=
  set_vehicleTypes (λ _, vehicleTypes_table) s.

Definition scheduleFlight (v : Vehicle) (startTime : D) (s : Simulation) : Simulation :=
  let flightDuration := getFlightDuration v in
  if startTime + flightDuration >? SIM_DURATION then s
  else
    set_eventQueue
      (push {| time := startTime + flightDuration;
               action := FlightEnd v startTime flightDuration |}) s.

(** One iteration of the loop of [tryCharging], for slot [i].  The vector
    has [NUM_CHARGERS] slots in every state of a run ([inv_pool] below), so
    [activeChargers[i]] is always within it and the case of an index outside
    the vector, where the model does nothing, does not arise. *)
Definition tryCharging_slot (i : nat) (currentTime : D) (s : Simulation) : Simulation :=
  match activeChargers s !! i, chargingQueue s with
  | Some None, v :: rest =>
      (* !activeChargers[i] && !chargingQueue.empty() *)
      let s := set_chargingQueue (λ _, rest) s in
      let chargeEnd := currentTime + timeToCharge (type v) in
      if chargeEnd >? SIM_DURATION then observe (Dropped v i currentTime) s
      else
        let s := set_activeChargers (<[i := Some v]>) s in
        let s := set_eventQueue
                   (push {| time := chargeEnd; action := ChargeEnd v i |}) s in
        observe (Assigned v i currentTime) s
  | _, _ => s
  end.

(** [for (int i = ...; i < NUM_CHARGERS; ++i)] with [n] iterations left. *)
Fixpoint tryCharging_loop (n i : nat) (currentTime : D) (s : Simulation) : Simulation :=
  match n with
  | 0 => s
  | S n => tryCharging_loop n (S i) currentTime (tryCharging_slot i currentTime s)
  end.

Definition tryCharging (currentTime : D) (s : Simulation) : Simulation :=
  tryCharging_loop NUM_CHARGERS 0 currentTime s.

(** The statistics of one completed flight; [sample] is the value of
    [dist01(rng)]. *)
Definition record_flight (v : Vehicle) (duration distance sample : D) (st : Stats) : Stats :=
  {| totalFlightTime := totalFlightTime st + duration;
     totalDistance := totalDistance st + distance;
     totalChargeTime := totalChargeTime st;
     passengerMiles := passengerMiles st + of_int (passengerCount (type v)) * distance;
     totalFlights := totalFlights st + 1;
     totalCharges := totalCharges st;
     totalFaults :=
       if sample <? faultProbPerHour (type v) * duration
       then totalFaults st + 1 else totalFaults st |}.

Definition processFlightEnd (v : Vehicle) (startTime duration : D) (s : Simulation)
    : Simulation :=
  let endTime := startTime + duration in
  if endTime >? SIM_DURATION then s
  else
    let distance := getDistancePerFlight v in
    let c := company (type v) in
    let st := record_flight v duration distance (dist01 rng (draws s)) (stats_at c s) in
    let s := set_draws S (set_stats (<[c := st]>) s) in
    let s := observe (Joined v) (set_chargingQueue (λ q, q ++ [v]) s) in
    tryCharging endTime s.

Definition record_charge (v : Vehicle) (st : Stats) : Stats :=
  {| totalFlightTime := totalFlightTime st;
     totalDistance := totalDistance st;
     totalChargeTime := totalChargeTime st + timeToCharge (type v);
     passengerMiles := passengerMiles st;
     totalFlights := totalFlights st;
     totalCharges := totalCharges st + 1;
     totalFaults := totalFaults st |}.

(** [None]: [eventQueue.top()] was called on an empty queue, which is
    undefined behaviour. *)
Definition finishCharging (v : Vehicle) (chargerIndex : nat) (s : Simulation)
    : option Simulation :=
  match top (eventQueue s) with
  | None => None
  | Some e =>
      let now := time e in
      let c := company (type v) in
      let s := set_stats (<[c := record_charge v (stats_at c s)]>) s in
      let s := set_activeChargers (<[chargerIndex := None]>) s in
      let s := scheduleFlight v now s in
      Some (tryCharging now s)
  end.

(** [createVehicles], with [n] iterations left.  The distribution ranges
    over the indices of the catalog. *)
Fixpoint createVehicles_loop (n i : nat) (s : Simulation) : Simulation :=
  match n with
  | 0 => s
  | S n =>
      let k := (pick rng i `mod` length (vehicleTypes s))%nat in
      match vehicleTypes s !! k with
      | Some vt =>
          let v := {| addr := length (vehicles s); type := vt |} in
          let s := set_vehicles (λ l, l ++ [v]) s in
          createVehicles_loop n (S i) (scheduleFlight v (of_int 0) s)
      | None => createVehicles_loop n (S i) s
      end
  end.

Definition createVehicles (s : Simulation) : Simulation :=
  createVehicles_loop NUM_VEHICLES 0 s.

(** The object before the constructor body runs: every container empty. *)
Definition Simulation_members : Simulation :=
  {| eventQueue := []; chargingQueue := []; activeChargers := [];
     vehicleTypes := []; vehicles := []; stats := ∅; draws := 0;
     history := [] |}.

Definition Simulation_new : Simulation :=
  let s := loadVehicleTypes Simulation_members in
  let s := createVehicles s in
  set_activeChargers (resize NUM_CHARGERS None) s.

(** The constructor with the table that [loadVehicleTypes] installs taken
    as a parameter.  What does not depend on the five entries of the table
    is proved for every table. *)
Definition Simulation_over (table : list VehicleType) : Simulation :=
  let s := set_vehicleTypes (λ _, table) Simulation_members in
  let s := createVehicles s in
  set_activeChargers (resize NUM_CHARGERS None) s.

(** The loop of [run]. *)
Inductive Outcome :=
  | Continue (s : Simulation)   (* the body ran; the loop goes on *)
  | Finished (s : Simulation)   (* the loop condition is false *)
  | Undefined.                  (* the body ran into undefined behaviour *)

Definition run_iteration (s : Simulation) : Outcome :=
  match top (eventQueue s) with
  | None => Finished s
  | Some e =>
      if time e <=? SIM_DURATION then
        let s := observe (Fired e) (set_eventQueue pop s) in
        match action e with
        | FlightEnd v startTime duration =>
            Continue (processFlightEnd v startTime duration s)
        | ChargeEnd v i =>
            match finishCharging v i s with
            | Some s => Continue s
            | None => Undefined
            end
        end
      else Finished s
  end.

Fixpoint run (fuel : nat) (s : Simulation) : Outcome :=
  match fuel with
  | 0 => Continue s
  | S fuel =>
      match run_iteration s with
      | Continue s => run fuel s
      | o => o
      end
  end.

(** The state after [n] iterations of the loop, or the state in which the loop
    stopped if that comes earlier. *)
Fixpoint iterate (n : nat) (s : Simulation) : Simulation :=
  match n with
  | 0 => s
  | S n =>
      match run_iteration s with
      | Continue s' => iterate n s'
      | _ => s
      end
  end.

(** The states the loop of [run] passes through, from [s0]. *)
Inductive reachable (s0 : Simulation) : Simulation → Prop :=
  | reachable_start : reachable s0 s0
  | reachable_step s s' :
      reachable s0 s → run_iteration s = Continue s' → reachable s0 s'.

End Engine.

(** [printStats]: a division that would be executed with a zero count is
    reported as [None]. *)
Definition divide_by_count (total : D) (count : Z) : option D :=
  if (count =? 0)%Z then None else Some (total / of_int count).

(** [count ? total / count : 0] *)
Definition average (total : D) (count : Z) : option D :=
  if (count =? 0)%Z then Some (of_int 0) else divide_by_count total count.

Record Report := {
  operator : Company;
  avgFlightTime : option D;
  avgDistance : option D;
  avgChargeTime : option D;
  reportedFaults : Z;
  reportedPassengerMiles : D;
}.

Definition report_of (c : Company) (st : Stats) : Report :=
  {| operator := c;
     avgFlightTime := average (totalFlightTime st) (totalFlights st);
     avgDistance := average (totalDistance st) (totalFlights st);
     avgChargeTime := average (totalChargeTime st) (totalCharges st);
     reportedFaults := totalFaults st;
     reportedPassengerMiles := passengerMiles st |}.

(** [for (auto& [comp, stat] : stats)]: the entries of the map, by
    increasing key. *)
Definition companies : list Company := [ALPHA; BRAVO; CHARLIE; DELTA; ECHO].

Definition printStats (s : Simulation) : list Report :=
  omap (λ c, report_of c <$> stats s !! c) companies.

(** *** Vocabulary of the properties *)

(** What the interface of the event queue promises: [top] hands out a
    pending event, [pop] removes that one, and [top] fails only on the
    empty queue. *)
Class EventQueueLaws (queue : EventQueue) : Prop := {
  top_pop : ∀ q e, top q = Some e → q ≡ₚ e :: pop q;
  top_None : ∀ q, top q = None → q = [];
}.

Definition flight_of (e : Event) : option Vehicle :=
  match action e with FlightEnd v _ _ => Some v | ChargeEnd _ _ => None end.

Definition charge_of (e : Event) : option (Vehicle * nat) :=
  match action e with ChargeEnd v i => Some (v, i) | FlightEnd _ _ _ => None end.

(** Where a vehicle can be: in the air (a pending flight completion), in the
    waiting line, or on a charger. *)
Definition flying (s : Simulation) : list Vehicle := omap flight_of (eventQueue s).
Definition charging (s : Simulation) : list Vehicle := omap id (activeChargers s).
Definition busy_slots (s : Simulation) : list nat :=
  snd <$> omap charge_of (eventQueue s).

Definition places (s : Simulation) : list Vehicle :=
  flying s ++ chargingQueue s ++ charging s.

Definition vehicle_of (e : Event) : Vehicle :=
  match action e with FlightEnd v _ _ | ChargeEnd v _ => v end.

(** Every vehicle an event, the waiting line or a charger refers to. *)
Definition referenced (s : Simulation) : list Vehicle :=
  (vehicle_of <$> eventQueue s) ++ chargingQueue s ++ charging s.

(** The vehicle an entry of the history is about. *)
Definition obs_vehicle (o : Obs) : Vehicle :=
  match o with
  | Fired e => vehicle_of e
  | Joined v | Assigned v _ _ | Dropped v _ _ => v
  end.

(** Every entry of the history beyond [h0] is about a vehicle of [X]. *)
Definition news_within (X : list Vehicle) (h0 : list Obs) (s : Simulation) : Prop :=
  ∀ o, o ∈ history s → o ∈ h0 ∨ obs_vehicle o ∈ X.

(** The state refers to no vehicle outside [X]. *)
Definition within (X : list Vehicle) (s : Simulation) : Prop :=
  ∀ v, v ∈ referenced s → v ∈ X.

Record Inv (s : Simulation) : Prop := {
  inv_unique : NoDup (addr <$> places s);
  inv_pool : length (activeChargers s) = NUM_CHARGERS;
  inv_slot : ∀ e v i,
    e ∈ eventQueue s → action e = ChargeEnd v i →
    activeChargers s !! i = Some (Some v);
  inv_busy : NoDup (busy_slots s);
}.

(** How many flight completions and charge completions of an operator the
    loop of [run] has fired. *)
Definition fired_flight (c : Company) (o : Obs) : bool :=
  match o with
  | Fired e =>
      match action e with
      | FlightEnd v _ _ => bool_decide (company (type v) = c)
      | ChargeEnd _ _ => false
      end
  | _ => false
  end.

Definition fired_charge (c : Company) (o : Obs) : bool :=
  match o with
  | Fired e =>
      match action e with
      | ChargeEnd v _ => bool_decide (company (type v) = c)
      | FlightEnd _ _ _ => false
      end
  | _ => false
  end.

Definition fired_any_flight (o : Obs) : bool :=
  match o with
  | Fired e => match action e with FlightEnd _ _ _ => true | ChargeEnd _ _ => false end
  | _ => false
  end.

Definition count (f : Obs → bool) (h : list Obs) : nat :=
  length (List.filter f h).

(** A counter of fired events ignores what happens at the waiting line. *)
Definition counts_fired (f : Obs → bool) : Prop :=
  ∀ o, f o = true → ∃ e, o = Fired e.

(** The books agree with the history: the counts of an operator are the
    numbers of its completions that were fired, and one sample was drawn
    per fired flight completion. *)
Definition Counted (s : Simulation) : Prop :=
  (∀ c, totalFlights (stats_at c s) = Z.of_nat (count (fired_flight c) (history s))
        ∧ totalCharges (stats_at c s) = Z.of_nat (count (fired_charge c) (history s)))
  ∧ draws s = count fired_any_flight (history s).

(** A step that touches neither the statistics nor the generator and fires
    nothing. *)
Definition same_books (s s' : Simulation) : Prop :=
  stats s' = stats s ∧ draws s' = draws s
  ∧ ∀ f, counts_fired f → count f (history s') = count f (history s).

(** The vehicles that joined the waiting line and those that left it, in the
    order in which they did. *)
Definition joined (h : list Obs) : list Vehicle :=
  omap (λ o, match o with Joined v => Some v | _ => None end) h.

Definition dequeued (h : list Obs) : list Vehicle :=
  omap (λ o, match o with
             | Assigned v _ _ | Dropped v _ _ => Some v
             | _ => None
             end) h.

(** *** The three ways an iteration of [tryCharging] can go *)

Inductive slot_case (i : nat) (now : D) (s : Simulation) : Simulation → Prop :=
  | slot_skip :
      activeChargers s !! i ≠ Some None ∨ chargingQueue s = [] →
      slot_case i now s s
  | slot_drop v rest :
      activeChargers s !! i = Some None →
      chargingQueue s = v :: rest →
      (now + timeToCharge (type v) >? SIM_DURATION) = true →
      slot_case i now s
        (observe (Dropped v i now) (set_chargingQueue (λ _, rest) s))
  | slot_assign v rest :
      activeChargers s !! i = Some None →
      chargingQueue s = v :: rest →
      (now + timeToCharge (type v) >? SIM_DURATION) = false →
      slot_case i now s
        (observe (Assigned v i now)
           (set_eventQueue
              (push {| time := now + timeToCharge (type v); action := ChargeEnd v i |})
              (set_activeChargers (<[i := Some v]>)
                 (set_chargingQueue (λ _, rest) s)))).

(** The object between [createVehicles] and the first event: every vehicle
    is in the air. *)
Definition grounded (s : Simulation) : Prop :=
  NoDup (addr <$> flying s)
  ∧ (∀ v, v ∈ flying s → addr v < length (vehicles s))
  ∧ omap charge_of (eventQueue s) = []
  ∧ chargingQueue s = [] ∧ activeChargers s = [].

(** What the queue and the history say about time: nothing pending and
    nothing fired lies beyond the horizon, every completion carries the
    time at which it was computed, and the waiting line is what joined
    minus what left, in that order. *)
Record Timed (s : Simulation) : Prop := {
  timed_queue : ∀ e, e ∈ eventQueue s → (time e >? SIM_DURATION) = false;
  timed_flight : ∀ e v a d,
    e ∈ eventQueue s → action e = FlightEnd v a d →
    time e = a + d ∧ d = getFlightDuration v;
  timed_charge : ∀ e v i,
    e ∈ eventQueue s → action e = ChargeEnd v i →
    ∃ now, Assigned v i now ∈ history s ∧ time e = now + timeToCharge (type v);
  timed_fired : ∀ e,
    Fired e ∈ history s →
    (time e <=? SIM_DURATION) = true ∧ (time e >? SIM_DURATION) = false
    ∧ (∀ v a d, action e = FlightEnd v a d →
         time e = a + d ∧ d = getFlightDuration v)
    ∧ (∀ v i, action e = ChargeEnd v i →
         ∃ now, Assigned v i now ∈ history s
                ∧ time e = now + timeToCharge (type v));
  timed_assigned : ∀ v i now,
    Assigned v i now ∈ history s →
    (now + timeToCharge (type v) >? SIM_DURATION) = false;
  timed_dropped : ∀ v i now,
    Dropped v i now ∈ history s →
    (now + timeToCharge (type v) >? SIM_DURATION) = true;
  timed_fifo : joined (history s) = dequeued (history s) ++ chargingQueue s;
}.

(** *** The summary at the end of [printStats]

    [std::map<Company, int> vehicleCount]: one [vehicleCount[c]++] per
    vehicle of the fleet, an absent entry starting at 0. *)
Definition vehicleCount (l : list Vehicle) : gmap Company Z :=
  foldl (λ m v, <[company (type v) := (default 0 (m !! company (type v)) + 1)%Z]> m) ∅ l.

(** [for (const auto& [comp, count] : vehicleCount)]: the entries by
    increasing key. *)
Definition vehicleDistribution (s : Simulation) : list (Company * Z) :=
  omap (λ c, pair c <$> vehicleCount (vehicles s) !! c) companies.

(** *** Vocabulary of the further properties *)

(** The flight completion [createVehicles] schedules for a vehicle, when the
    flight fits the horizon. *)
Definition first_flight (v : Vehicle) : option Event :=
  if of_int 0 + getFlightDuration v >? SIM_DURATION then None
  else Some {| time := of_int 0 + getFlightDuration v;
               action := FlightEnd v (of_int 0) (getFlightDuration v) |}.

(** How many vehicles of a list belong to an operator. *)
Definition of_operator (c : Company) (l : list Vehicle) : nat :=
  length (filter (λ v, company (type v) = c) l).

(** What happened at the waiting line to the vehicles of an operator. *)
Definition joined_by (c : Company) (o : Obs) : bool :=
  match o with Joined v => bool_decide (company (type v) = c) | _ => false end.

Definition assigned_by (c : Company) (o : Obs) : bool :=
  match o with Assigned v _ _ => bool_decide (company (type v) = c) | _ => false end.

Definition dropped_by (c : Company) (o : Obs) : bool :=
  match o with Dropped v _ _ => bool_decide (company (type v) = c) | _ => false end.

Definition is_dropped (o : Obs) : bool :=
  match o with Dropped _ _ _ => true | _ => false end.

(** The ledger of an operator: how many of its vehicles joined the line,
    how many of its flight and charge completions were fired, how many of
    its vehicles left the line or still wait, and how many were given a
    charger and are no longer on it. *)
Definition ledger (c : Company) (s : Simulation) : Z * Z * Z * Z * Z :=
  let h := history s in
  (Z.of_nat (count (joined_by c) h),
   Z.of_nat (count (fired_flight c) h),
   Z.of_nat (count (fired_charge c) h),
   Z.of_nat (count (assigned_by c) h) + Z.of_nat (count (dropped_by c) h)
   + Z.of_nat (of_operator c (chargingQueue s)),
   Z.of_nat (count (assigned_by c) h) - Z.of_nat (of_operator c (charging s)))%Z.

(** Nothing is lost: every flight completion fired is one vehicle joining
    the line; a vehicle that joined was given a charger, was dropped, or
    waits; a vehicle given a charger completed its charge or is on the
    charger. *)
Definition Conserved (s : Simulation) : Prop :=
  ∀ c,
    count (joined_by c) (history s) = count (fired_flight c) (history s)
    ∧ count (joined_by c) (history s)
      = (count (assigned_by c) (history s) + count (dropped_by c) (history s)
         + of_operator c (chargingQueue s))%nat
    ∧ count (assigned_by c) (history s)
      = (count (fired_charge c) (history s) + of_operator c (charging s))%nat.

(** The times of the events the loop of [run] has fired, in the order in
    which it fired them. *)
Definition fired_times (h : list Obs) : list D :=
  omap (λ o, match o with Fired e => Some (time e) | _ => None end) h.

(** [std::priority_queue] with [std::greater<Event>]: no pending event is
    earlier than the one [top] hands out. *)
Class EarliestFirst (queue : EventQueue) : Prop :=
  top_earliest : ∀ q e e', top q = Some e → e' ∈ q → (time e' <? time e) = false.

(** The vehicles with a pending charge completion. *)
Definition on_charge (s : Simulation) : list Vehicle :=
  fst <$> omap charge_of (eventQueue s).

(** The statistics without the fault counts. *)
Definition forget_faults (st : Stats) : Stats :=
  {| totalFlightTime := totalFlightTime st; totalDistance := totalDistance st;
     totalChargeTime := totalChargeTime st; passengerMiles := passengerMiles st;
     totalFlights := totalFlights st; totalCharges := totalCharges st;
     totalFaults := 0 |}.

Definition schedule_of (s : Simulation) : Simulation :=
  set_stats (fmap forget_faults) s.

Definition outcome_schedule (o : Outcome) : Outcome :=
  match o with
  | Continue s => Continue (schedule_of s)
  | Finished s => Finished (schedule_of s)
  | Undefined => Undefined
  end.

(** What an accumulator of [Stats] holds after [x] has been added to it [n]
    times with [+=], starting from the zero of its initializer. *)
Definition accumulated (n : Z) (x : D) : D :=
  Nat.iter (Z.to_nat n) (λ total, total + x) (of_int 0).

(** The totals of an operator are what its counts make of the values of its
    type: one flight duration, one distance and one load of passenger miles
    added per flight, one charge time added per charge. *)
Definition totals_of_counts (vt : VehicleType) (st : Stats) : Prop :=
  let v := {| addr := 0; type := vt |} in
  (0 ≤ totalFlights st)%Z ∧ (0 ≤ totalCharges st)%Z
  ∧ totalFlightTime st = accumulated (totalFlights st) (getFlightDuration v)
  ∧ totalDistance st = accumulated (totalFlights st) (getDistancePerFlight v)
  ∧ passengerMiles st
    = accumulated (totalFlights st) (of_int (passengerCount vt) * getDistancePerFlight v)
  ∧ totalChargeTime st = accumulated (totalCharges st) (timeToCharge vt).

End Model.

Arguments VehicleType D : clear implicits.
Arguments Stats D : clear implicits.
Arguments Vehicle D : clear implicits.
Arguments Action D : clear implicits.
Arguments Event D : clear implicits.
Arguments Obs D : clear implicits.
Arguments Simulation D : clear implicits.
Arguments EventQueue D : clear implicits.
Arguments Rng D : clear implicits.
Arguments Outcome D : clear implicits.
Arguments Report D : clear implicits.

(** ** The runs the properties are evaluated on

    Runs are computed in binary64 with the queue [earliest_first].  The
    generator of a run decides the type of each of the twenty vehicles; every
    sample of [dist01] is 0.5. *)

Definition engine : EventQueue float := earliest_first.

Definition fleet (types : nat → nat) : Rng float :=
  {| pick := types; dist01 := λ _, literal 0.5 |}.

(** Twenty vehicles of the first type of the table. *)
Definition all_alpha : Rng float := fleet (λ _, 0).

(** Twenty vehicles of the second type of the table. *)
Definition all_bravo : Rng float := fleet (λ _, 1).

(** Vehicles 0 to 9 of the third type, vehicles 10 to 19 of the second. *)
Definition charlie_then_bravo : Rng float :=
  fleet (λ i, if (i <? 10)%nat then 2 else 1).

(** Twenty vehicles of the third type of the table. *)
Definition all_charlie : Rng float := fleet (λ _, 2).

(** The fleet of [all_alpha] with samples of [dist01] that never give a
    fault. *)
Definition all_alpha_no_fault : Rng float :=
  {| pick := pick all_alpha; dist01 := λ _, of_int 1 |}.

Definition after (rng : Rng float) (n : nat) : Simulation float :=
  iterate (queue := engine) rng n (Simulation_new rng).

(** A type no operator flies: the second type of the table with fault rate 0. *)
Definition faultless_bravo : VehicleType float :=
  {| company := BRAVO; cruiseSpeed := of_int 100; batteryCapacity := of_int 100;
     timeToCharge := literal 0.2; energyPerMile := literal 1.5;
     passengerCount := 5; faultProbPerHour := of_int 0 |}.

(** Vehicle number [k] of a fleet. *)
Definition vehicle_number (rng : Rng float) (k : nat) : Vehicle float :=
  default {| addr := k; type := faultless_bravo |} (vehicles (Simulation_new rng) !! k).

(** The two vehicles of the unit tests. *)
Definition test_bravo `{Double D} : Vehicle D :=
  {| addr := 0;
     type := {| company := BRAVO; cruiseSpeed := of_int 100;
                batteryCapacity := of_int 100; timeToCharge := literal 0.2;
                energyPerMile := literal 1.5; passengerCount := 5;
                faultProbPerHour := literal 0.10 |} |}.

Definition test_delta `{Double D} : Vehicle D :=
  {| addr := 0;
     type := {| company := DELTA; cruiseSpeed := of_int 90;
                batteryCapacity := of_int 120; timeToCharge := literal 0.62;
                energyPerMile := literal 0.8; passengerCount := 2;
                faultProbPerHour := literal 0.22 |} |}.

(** A catalog entry with a cruise speed that is not positive. *)
Definition backwards_bravo : VehicleType float :=
  {| company := BRAVO; cruiseSpeed := of_int (-100); batteryCapacity := of_int 100;
     timeToCharge := literal 0.2; energyPerMile := literal 1.5;
     passengerCount := 5; faultProbPerHour := literal 0.10 |}.

(** What a validation of the catalog would check. *)
Definition valid_entry (vt : VehicleType float) : bool :=
  PrimFloat.ltb (of_int 0) (cruiseSpeed vt) && PrimFloat.ltb (of_int 0) (energyPerMile vt).

(** C10 as it is worded: a table with an entry that is not valid is rejected,
    so that no vehicle is created from it and the engine gets no event. *)
Definition catalog_validated : Prop :=
  ∀ (rng : Rng float) (table : list (VehicleType float)),
    forallb valid_entry table = false →
    vehicles (Simulation_over rng table) = []
    ∧ eventQueue (Simulation_over rng table) = [].

(** C7 as it is worded: whenever [A] joined the waiting line before [B] and
    [B] was later given a charger, [A] was given a charger in between. *)
Definition served_in_order (h : list (Obs float)) : Prop :=
  ∀ A B h1 h2 h3 h4 j t,
    h = h1 ++ Joined A :: h2 ++ Joined B :: h3 ++ Assigned B j t :: h4 →
    ∃ i t', Assigned A i t' ∈ h2 ++ h3.

Definition assigned_to (a : nat) (o : Obs float) : bool :=
  match o with
  | Assigned v _ _ => (addr v =? a)%nat
  | _ => false
  end.

(** ** Vocabulary of the binary64 analysis of the report *)

(** A binary64 value that is neither a NaN nor negative. *)
Definition nonneg (x : spec_float) : Prop :=
  match x with
  | S754_zero _ => True
  | S754_infinity s | S754_finite s _ _ => s = false
  | S754_nan => False
  end.

(** The largest [int]: beyond it the increment of a counter is undefined. *)
Definition INT_MAX : Z := 2147483647.

Definition books_nonneg (st : Stats float) : Prop :=
  nonneg (Prim2SF (totalFlightTime st))
  ∧ nonneg (Prim2SF (totalDistance st))
  ∧ nonneg (Prim2SF (totalChargeTime st))
  ∧ nonneg (Prim2SF (passengerMiles st)).

(** The quantities a vehicle of this type adds to the statistics. *)
Definition sound_type (vt : VehicleType float) : Prop :=
  nonneg (Prim2SF (getFlightDuration {| addr := 0; type := vt |}))
  ∧ nonneg (Prim2SF (getDistancePerFlight {| addr := 0; type := vt |}))
  ∧ nonneg (Prim2SF (timeToCharge vt))
  ∧ nonneg (Prim2SF (PrimFloat.mul (of_int (passengerCount vt))
                       (getDistancePerFlight {| addr := 0; type := vt |}))).

Definition Books (s : Simulation float) : Prop :=
  (∀ c, books_nonneg (stats_at c s))
  ∧ (∀ v, v ∈ referenced s → sound_type (type v)).

(** No total and no count of [st'] is below that of [st]. *)
Definition not_below (st st' : Stats float) : Prop :=
  PrimFloat.ltb (totalFlightTime st') (totalFlightTime st) = false
  ∧ PrimFloat.ltb (totalDistance st') (totalDistance st) = false
  ∧ PrimFloat.ltb (totalChargeTime st') (totalChargeTime st) = false
  ∧ PrimFloat.ltb (passengerMiles st') (passengerMiles st) = false
  ∧ (totalFlights st ≤ totalFlights st')%Z
  ∧ (totalCharges st ≤ totalCharges st')%Z
  ∧ (totalFaults st ≤ totalFaults st')%Z.

(** ** Vocabulary of the rounding of the derived values *)

(** The rational number a finite binary64 stands for (0 for an infinity and
    for a NaN). *)
Definition SF2Q (x : spec_float) : Q :=
  match x with
  | S754_finite s m e => inject_Z (cond_Zopp s (Zpos m)) * 2 ^ e
  | _ => 0
  end.

Definition value (x : float) : Q := SF2Q (Prim2SF x).

(** Half a unit in the last place of a normal binary64, relative to it. *)
Definition unit_roundoff : Q := 1 # 2 ^ 53.

(** The record [(m, r, s)] of a mantissa with its round and sticky bits
    stands for the fraction [num / den]: [m] is its integer part, [r] says
    that the rest is at least a half, [s] that it is neither zero nor a
    half. *)
Definition describes (num den : Z) (mrs : shr_record) : Prop :=
  (0 < den ∧ 0 ≤ shr_m mrs ∧ 0 ≤ num - shr_m mrs * den < den)%Z
  ∧ shr_r mrs = (den <=? 2 * (num - shr_m mrs * den))%Z
  ∧ shr_s mrs = negb (num - shr_m mrs * den =? 0)%Z
                && negb (2 * (num - shr_m mrs * den) =? den)%Z.

Definition is_normal (x : float) : bool :=
  match PrimFloat.classify x with PNormal => true | _ => false end.

(** The battery capacity, the cruise speed and the energy per mile of a
    vehicle are positive, and none of the three operations of the derived
    values overflows or underflows: the product [S * E], the flight duration
    and the distance per flight are normal numbers. *)
Definition in_range (v : Vehicle float) : bool :=
  PrimFloat.ltb 0 (batteryCapacity (type v))
  && PrimFloat.ltb 0 (cruiseSpeed (type v))
  && PrimFloat.ltb 0 (energyPerMile (type v))
  && is_normal (cruiseSpeed (type v) * energyPerMile (type v))%float
  && is_normal (getFlightDuration v)
  && is_normal (getDistancePerFlight v).

(** [x] is the rational [q] up to a relative error of [2^-51], four times
    the rounding error of one operation. *)
Definition agrees (x : float) (q : Q) : Prop :=
  (Qabs (value x - q) <= 4 * unit_roundoff * q)%Q.

(** C4 as it is worded: the derived values are the quotients themselves. *)
Definition derived_exactly (v : Vehicle float) : Prop :=
  (value (getFlightDuration v)
   == value (batteryCapacity (type v))
      / (value (cruiseSpeed (type v)) * value (energyPerMile (type v))))%Q
  ∧ (value (getDistancePerFlight v)
     == value (batteryCapacity (type v)) / value (energyPerMile (type v)))%Q.

(** A vehicle with positive values whose product [S * E] overflows. *)
#[local] Set Warnings "-inexact-float".
Definition test_overflow : Vehicle float :=
  {| addr := 0;
     type := {| company := BRAVO; cruiseSpeed := 1e308%float;
                batteryCapacity := of_int 100; timeToCharge := literal 0.2;
                energyPerMile := of_int 10; passengerCount := 5;
                faultProbPerHour := literal 0.10 |} |}.
#[local] Set Warnings "inexact-float".

(** ** The names printed in the report *)

Definition companyNames : list string := ["Alpha"; "Bravo"; "Charlie"; "Delta"; "Echo"].

(** [companyNames[comp]]; [None]: the index is outside the vector. *)
Definition companyName (c : Company) : option string :=
  companyNames !! Company_index c.

(** The lines under "Vehicle Distribution:", as name and count. *)
Definition printVehicleDistribution `{Double D} (s : Simulation D) : option (list (string * Z)) :=
  mapM (λ row, (λ name, (name, row.2)) <$> companyName row.1) (vehicleDistribution s).

(** ** The event queue used for computing runs obeys the interface *)

Section EarliestFirst.
Context {D : Type} `{Double D}.

Lemma earliest_index_lookup (q l : list (Event D)) :
  ∀ best ibest i,
    l !! ibest = Some best →
    (∀ k e, q !! k = Some e → l !! (i + k) = Some e) →
    l !! earliest_index best ibest i q = Some (earliest best q).
Proof.
  induction q as [|e q IH]; intros best ibest i Hbest Hq; simpl; [done|].
  assert (Hi : l !! i = Some e).
  { specialize (Hq 0 e eq_refl). by rewrite Nat.add_0_r in Hq. }
  assert (Hq' : ∀ k e', q !! k = Some e' → l !! (S i + k) = Some e').
  { intros k e' Hk. specialize (Hq (S k) e' Hk).
    by rewrite Nat.add_succ_r in Hq. }
  destruct (dlt (time e) (time best)); by apply IH.
Qed.

#[export] Instance earliest_first_laws : EventQueueLaws (D:=D) earliest_first.
Proof.
  split.
  - intros [|e q] e' Htop; simpl in *; [done|].
    injection Htop as <-.
    apply delete_Permutation.
    by apply (earliest_index_lookup q (e :: q) e 0 1).
  - by intros [|e q].
Qed.
(** It hands out an earliest event, provided [<] is a strict order, as it is
    on binary64. *)
Lemma earliest_minimal_from (q : list (Event D)) :
  (∀ a : D, dlt a a = false) →
  (∀ a b c : D, dlt a b = true → dlt b c = true → dlt a c = true) →
  ∀ best (seen : Event D → Prop),
    (∀ e, seen e → dlt (time e) (time best) = false) →
    ∀ e, seen e ∨ e = best ∨ e ∈ q → dlt (time e) (time (earliest best q)) = false.
Proof.
  intros Hirr Htrans. induction q as [|e' q IH]; intros best seen Hseen e He; simpl.
  - destruct He as [He|[->|He%elem_of_nil]]; [by apply Hseen|apply Hirr|done].
  - apply (IH _ (λ e0, seen e0 ∨ e0 = best ∨ e0 = e')).
    + intros e0 He0.
      destruct (dlt (time e') (time best)) eqn:Hlt.
      * destruct (dlt (time e0) (time e')) eqn:Hlt'; [|done].
        pose proof (Htrans _ _ _ Hlt' Hlt) as Hlt''.
        destruct He0 as [He0|[->| ->]].
        -- by rewrite (Hseen e0 He0) in Hlt''.
        -- by rewrite Hirr in Hlt''.
        -- by rewrite Hirr in Hlt'.
      * destruct He0 as [He0|[->| ->]]; [by apply Hseen|apply Hirr|done].
    + destruct He as [He|[->|[->|He]%elem_of_cons]].
      * left. by left.
      * destruct (dlt (time e') (time best)); [left; right; by left|right; by left].
      * destruct (dlt (time e') (time best)); [right; by left|left; right; by right].
      * right. by right.
Qed.

Lemma earliest_top_minimal (q : list (Event D)) r :
  (∀ a : D, dlt a a = false) →
  (∀ a b c : D, dlt a b = true → dlt b c = true → dlt a c = true) →
  earliest_top q = Some r →
  r ∈ q ∧ ∀ e, e ∈ q → dlt (time e) (time r) = false.
Proof.
  intros Hirr Htrans Htop. split.
  - pose proof (top_pop (queue := earliest_first) q r Htop) as Hperm.
    rewrite Hperm. apply list_elem_of_here.
  - destruct q as [|best q]; simplify_eq/=.
    intros e He. apply (earliest_minimal_from q Hirr Htrans best (λ _, False)); [done|].
    apply elem_of_cons in He as [->|He]; right; [by left|by right].
Qed.

End EarliestFirst.

(** ** Properties of the engine, for every event queue and every generator *)

Section Properties.
Context {D : Type} `{Double D}.
Context {queue : EventQueue D} {laws : EventQueueLaws queue} (rng : Rng D).
Local Open Scope double_scope.

Implicit Types (s : Simulation D) (v : Vehicle D) (e : Event D) (q : list (Event D)).

(** *** Lists of charger slots *)

Lemma occupy_slot (l : list (option (Vehicle D))) i v :
  l !! i = Some None → omap id (<[i := Some v]> l) ≡ₚ v :: omap id l.
Proof.
  revert i. induction l as [|[w|] l IH]; intros [|i] Hi; simplify_eq/=; try done.
  - rewrite (IH i Hi). apply Permutation_swap.
  - by apply IH.
Qed.

Lemma free_slot (l : list (option (Vehicle D))) i v :
  l !! i = Some (Some v) → omap id l ≡ₚ v :: omap id (<[i := None]> l).
Proof.
  revert i. induction l as [|[w|] l IH]; intros [|i] Hi; simplify_eq/=; try done.
  - rewrite (IH i Hi). apply Permutation_swap.
  - by apply IH.
Qed.

Lemma tryCharging_slot_case i now s : slot_case i now s (tryCharging_slot i now s).
Proof.
  unfold tryCharging_slot.
  destruct (activeChargers s !! i) as [[w|]|] eqn:Hi;
    try (apply slot_skip; left; congruence).
  destruct (chargingQueue s) as [|v rest] eqn:Hq;
    [apply slot_skip; by right|].
  destruct (now + timeToCharge (type v) >? SIM_DURATION) eqn:Hend.
  - by apply slot_drop.
  - by apply slot_assign.
Qed.

Lemma tryCharging_loop_preserves (P : Simulation D → Prop) now :
  (∀ i s, P s → P (tryCharging_slot i now s)) →
  ∀ n i s, P s → P (tryCharging_loop n i now s).
Proof.
  intros Hslot n. induction n as [|n IH]; intros i s Hs; simpl; [done|].
  by apply IH, Hslot.
Qed.

(** *** The structural invariant *)

Lemma flying_push_charge q t v i :
  omap flight_of (push {| time := t; action := ChargeEnd v i |} q) = omap flight_of q.
Proof. unfold push. rewrite omap_app. simpl. by rewrite app_nil_r. Qed.

Lemma flying_push_flight q t v a d :
  omap flight_of (push {| time := t; action := FlightEnd v a d |} q)
  = omap flight_of q ++ [v].
Proof. unfold push. by rewrite omap_app. Qed.

Lemma charges_push_charge q t v i :
  omap charge_of (push {| time := t; action := ChargeEnd v i |} q)
  = omap charge_of q ++ [(v, i)].
Proof. unfold push. by rewrite omap_app. Qed.

Lemma charges_push_flight q t v a d :
  omap charge_of (push {| time := t; action := FlightEnd v a d |} q) = omap charge_of q.
Proof. unfold push. rewrite omap_app. simpl. by rewrite app_nil_r. Qed.

Lemma busy_slot_event s i :
  i ∈ busy_slots s → ∃ e v, e ∈ eventQueue s ∧ action e = ChargeEnd v i.
Proof.
  unfold busy_slots. intros ([v j] & -> & Hin)%list_elem_of_fmap.
  apply list_elem_of_omap in Hin as (e & He & Hc).
  exists e, v. split; [done|].
  unfold charge_of in Hc. destruct (action e); by simplify_eq/=.
Qed.

Lemma Inv_tryCharging_slot i now s : Inv s → Inv (tryCharging_slot i now s).
Proof.
  intros [Huniq Hpool Hslot Hbusy].
  destruct (tryCharging_slot_case i now s) as [?|v rest Hi Hq Hend|v rest Hi Hq Hend].
  - done.
  - split; simpl; try done.
    revert Huniq. unfold places, flying, charging; simpl. rewrite Hq.
    rewrite !fmap_app, !fmap_cons. intros Hnd.
    apply NoDup_app in Hnd as (H1 & H2 & H3).
    apply NoDup_app. split_and!; [done| |].
    + intros a Ha Hin. apply (H2 a Ha). by apply list_elem_of_further.
    + apply NoDup_app in H3 as (H4 & H5 & H6). apply NoDup_cons in H4 as [??].
      apply NoDup_app. split_and!; [done| |done].
      intros a Ha. apply H5. by apply list_elem_of_further.
  - assert (Hlt : i < length (activeChargers s)) by by eapply lookup_lt_Some.
    split; simpl.
    + revert Huniq. unfold places, flying, charging; simpl. rewrite Hq.
      rewrite flying_push_charge, (occupy_slot _ _ _ Hi).
      intros Hnd. eapply NoDup_Permutation_proper; [|exact Hnd].
      rewrite !fmap_app, !fmap_cons.
      by rewrite <-Permutation_middle.
    + by rewrite length_insert.
    + intros e w j [He| ->%list_elem_of_singleton]%elem_of_app Hact.
      * pose proof (Hslot e w j He Hact) as Hj.
        rewrite list_lookup_insert_ne; [done|]. intros ->. congruence.
      * simpl in Hact. simplify_eq. by rewrite list_lookup_insert_eq.
    + unfold busy_slots; simpl. rewrite charges_push_charge, fmap_app. simpl.
      apply NoDup_app. split_and!; [done| |apply NoDup_singleton].
      intros j Hj ->%list_elem_of_singleton.
      apply busy_slot_event in Hj as (e & w & He & Hact).
      specialize (Hslot e w i He Hact). congruence.
Qed.

Lemma Inv_tryCharging now s : Inv s → Inv (tryCharging now s).
Proof. apply tryCharging_loop_preserves. intros. by apply Inv_tryCharging_slot. Qed.

Lemma event_busy_slot s e v i :
  e ∈ eventQueue s → action e = ChargeEnd v i → i ∈ busy_slots s.
Proof.
  intros He Hact. unfold busy_slots.
  apply list_elem_of_fmap. exists (v, i). split; [done|].
  apply list_elem_of_omap. exists e. split; [done|].
  unfold charge_of. by rewrite Hact.
Qed.

Lemma Inv_scheduleFlight v start s :
  Inv s → addr v ∉ addr <$> places s → Inv (scheduleFlight v start s).
Proof.
  intros [Huniq Hpool Hslot Hbusy] Hfresh. unfold scheduleFlight.
  destruct (start + getFlightDuration v >? SIM_DURATION); [done|].
  split; simpl; try done.
  - unfold places, flying, charging in *; simpl.
    rewrite flying_push_flight.
    eapply NoDup_Permutation_proper; [|apply NoDup_cons; split; [exact Hfresh|exact Huniq]].
    rewrite !fmap_app, !fmap_cons, <-!app_assoc. simpl.
    by rewrite <-Permutation_middle.
  - intros e w j [He| ->%list_elem_of_singleton]%elem_of_app Hact; [eauto|done].
  - unfold busy_slots in *; simpl. by rewrite charges_push_flight.
Qed.

(** What [top] and [pop] leave of the invariant, and what they tell about
    the event taken out. *)
Lemma Inv_pop s e :
  Inv s → top (eventQueue s) = Some e →
  let s' := observe (Fired e) (set_eventQueue pop s) in
  Inv s'
  ∧ (∀ v a d, action e = FlightEnd v a d → addr v ∉ addr <$> places s')
  ∧ (∀ v i, action e = ChargeEnd v i →
       activeChargers s' !! i = Some (Some v) ∧ i ∉ busy_slots s').
Proof.
  intros [Huniq Hpool Hslot Hbusy] Htop s'.
  pose proof (top_pop _ _ Htop) as Hperm.
  assert (Hsub : ∀ e', e' ∈ pop (eventQueue s) → e' ∈ eventQueue s).
  { intros e' He'. rewrite Hperm. by apply list_elem_of_further. }
  assert (Hplaces : places s ≡ₚ option_list (flight_of e) ++ places s').
  { unfold places, flying; simpl.
    rewrite (omap_Permutation flight_of _ _ Hperm). simpl.
    destruct (flight_of e); simpl; done. }
  assert (Hslots : busy_slots s ≡ₚ option_list (snd <$> charge_of e) ++ busy_slots s').
  { unfold busy_slots; simpl.
    rewrite (omap_Permutation charge_of _ _ Hperm). simpl.
    destruct (charge_of e); simpl; done. }
  rewrite Hplaces in Huniq. rewrite Hslots in Hbusy.
  rewrite fmap_app in Huniq.
  apply NoDup_app in Huniq as (_ & Hfresh & Huniq).
  apply NoDup_app in Hbusy as (_ & Hfree & Hbusy).
  split_and!.
  - split; simpl; eauto.
  - intros v a d Hact. unfold flight_of in Hfresh. rewrite Hact in Hfresh.
    apply Hfresh. simpl. apply list_elem_of_here.
  - intros v i Hact. split.
    + simpl. apply (Hslot e); [|done]. rewrite Hperm. apply list_elem_of_here.
    + unfold charge_of in Hfree. rewrite Hact in Hfree.
      apply Hfree. simpl. apply list_elem_of_here.
Qed.

Lemma Inv_processFlightEnd v a d s :
  Inv s → addr v ∉ addr <$> places s → Inv (processFlightEnd rng v a d s).
Proof.
  intros HI Hfresh. unfold processFlightEnd.
  destruct (a + d >? SIM_DURATION); [done|].
  apply Inv_tryCharging.
  destruct HI as [Huniq Hpool Hslot Hbusy].
  split; simpl; try done.
  unfold places, flying, charging in *; simpl.
  eapply NoDup_Permutation_proper; [|apply NoDup_cons; split; [exact Hfresh|exact Huniq]].
  rewrite !fmap_app, !fmap_cons, <-!app_assoc. simpl.
  by rewrite <-!Permutation_middle.
Qed.

Lemma Inv_finishCharging v i s s' :
  Inv s → activeChargers s !! i = Some (Some v) → i ∉ busy_slots s →
  finishCharging v i s = Some s' → Inv s'.
Proof.
  intros [Huniq Hpool Hslot Hbusy] Hi Hfree. unfold finishCharging.
  destruct (top (eventQueue s)) as [e|]; [|done].
  intros [= <-].
  apply Inv_tryCharging.
  pose proof (free_slot _ _ _ Hi) as Hperm.
  assert (Hp : places s ≡ₚ v :: (flying s ++ chargingQueue s
                                 ++ omap id (<[i := None]> (activeChargers s)))).
  { unfold places, charging. rewrite Hperm. by rewrite <-!Permutation_middle. }
  rewrite Hp, fmap_cons in Huniq. apply NoDup_cons in Huniq as [Hfresh Huniq].
  apply Inv_scheduleFlight; [|done].
  split; simpl; try done.
  - by rewrite length_insert.
  - intros e' w j He' Hact.
    rewrite list_lookup_insert_ne; [by eapply Hslot|].
    intros ->. apply Hfree. by eapply event_busy_slot.
Qed.

Lemma Inv_run_iteration s s' : Inv s → run_iteration rng s = Continue s' → Inv s'.
Proof.
  intros HI. unfold run_iteration.
  destruct (top (eventQueue s)) as [e|] eqn:Htop; [|done].
  destruct (time e <=? SIM_DURATION); [|done].
  destruct (Inv_pop s e HI Htop) as (HI' & Hflight & Hcharge).
  destruct (action e) as [v a d|v i] eqn:Hact.
  - intros [= <-]. apply Inv_processFlightEnd; [done|]. by eapply Hflight.
  - destruct (finishCharging _ _ _) as [s1|] eqn:Hfin; [|done].
    intros [= <-]. destruct (Hcharge v i eq_refl) as [Hi Hfree].
    by eapply Inv_finishCharging.
Qed.

(** *** The constructor establishes the invariant *)

Lemma grounded_createVehicles_loop n :
  ∀ i s, grounded s → grounded (createVehicles_loop rng n i s).
Proof.
  induction n as [|n IH]; intros i s Hs; simpl; [done|].
  destruct (vehicleTypes s !! _) as [vt|]; [|by apply IH].
  apply IH. destruct Hs as (Hnd & Hlt & Hch & Hq & Hc).
  unfold scheduleFlight.
  destruct (of_int 0 + getFlightDuration _ >? SIM_DURATION).
  - split_and!; simpl; try done.
    intros v Hv. rewrite length_app. specialize (Hlt v Hv). simpl. lia.
  - unfold grounded, flying; simpl.
    rewrite flying_push_flight, charges_push_flight.
    split_and!; try done.
    + rewrite fmap_app. apply NoDup_app. split_and!; [done| |apply NoDup_singleton].
      intros a (v & -> & Hv)%list_elem_of_fmap Heq%list_elem_of_singleton.
      specialize (Hlt v Hv). simpl in Heq. lia.
    + intros v [Hv| Hv%list_elem_of_singleton]%elem_of_app; rewrite length_app; simpl.
      * specialize (Hlt v Hv). lia.
      * subst v. simpl. lia.
Qed.

Lemma Inv_Simulation_over table : Inv (Simulation_over rng table).
Proof.
  unfold Simulation_over, createVehicles.
  destruct (grounded_createVehicles_loop NUM_VEHICLES 0
              (set_vehicleTypes (λ _, table) Simulation_members))
    as (Hnd & Hlt & Hch & Hq & Hc).
  { unfold grounded, flying; simpl. split_and!; try done.
    - apply NoDup_nil_2.
    - by intros v ?%elem_of_nil. }
  revert Hnd Hlt Hch Hq Hc.
  generalize (createVehicles_loop rng NUM_VEHICLES 0
                (set_vehicleTypes (λ _, table) Simulation_members)).
  intros s Hnd Hlt Hch Hq Hc.
  split; simpl.
  - unfold places, flying, charging in *; simpl. rewrite Hq, Hc. simpl.
    by rewrite app_nil_r.
  - by rewrite Hc.
  - intros e v i He Hact.
    assert (Hin : (v, i) ∈ omap charge_of (eventQueue s)).
    { apply list_elem_of_omap. exists e. split; [done|].
      unfold charge_of. by rewrite Hact. }
    rewrite Hch in Hin. by apply elem_of_nil in Hin.
  - unfold busy_slots; simpl. rewrite Hch. apply NoDup_nil_2.
Qed.

Lemma Simulation_new_over : Simulation_new rng = Simulation_over rng vehicleTypes_table.
Proof. reflexivity. Qed.

Lemma Inv_reachable s0 s : Inv s0 → reachable rng s0 s → Inv s.
Proof. induction 2; [done|]. by eapply Inv_run_iteration. Qed.

(** *** Time and history *)

Lemma joined_snoc (h : list (Obs D)) o :
  joined (h ++ [o]) = joined h ++ match o with Joined v => [v] | _ => [] end.
Proof. unfold joined. rewrite omap_app. by destruct o. Qed.

Lemma dequeued_snoc (h : list (Obs D)) o :
  dequeued (h ++ [o])
  = dequeued h ++ match o with
                  | Assigned v _ _ | Dropped v _ _ => [v]
                  | _ => []
                  end.
Proof. unfold dequeued. rewrite omap_app. by destruct o. Qed.

(** Membership in a list extended at its end: in the old part, or the new
    element. *)
Ltac old_or_new H :=
  apply elem_of_app in H; destruct H as [H|H];
  [|apply list_elem_of_singleton in H; simplify_eq].

Lemma Timed_tryCharging_slot i now s : Timed s → Timed (tryCharging_slot i now s).
Proof.
  intros [Hq Hf Hc Hfi Ha Hd Hfifo].
  destruct (tryCharging_slot_case i now s) as [?|v rest Hi Hline Hend|v rest Hi Hline Hend].
  - done.
  - split; simpl; try done.
    + intros e w j He Hact. destruct (Hc e w j He Hact) as (t & Ht & ?).
      exists t. split; [|done]. apply elem_of_app. by left.
    + intros e He. old_or_new He.
      destruct (Hfi e He) as (H1 & H2 & H3 & H4). split_and!; try done.
      intros w j Hact. destruct (H4 w j Hact) as (t & Ht & ?).
      exists t. split; [|done]. apply elem_of_app. by left.
    + intros w j t Hin. old_or_new Hin. eauto.
    + intros w j t Hin. old_or_new Hin; eauto.
    + rewrite joined_snoc, dequeued_snoc, app_nil_r, Hfifo, Hline.
      by rewrite <-app_assoc.
  - split; simpl.
    + intros e [He| ->%list_elem_of_singleton]%elem_of_app; eauto.
    + intros e w a d [He| ->%list_elem_of_singleton]%elem_of_app Hact; [eauto|done].
    + intros e w j [He| ->%list_elem_of_singleton]%elem_of_app Hact.
      * destruct (Hc e w j He Hact) as (t & Ht & ?).
        exists t. split; [|done]. apply elem_of_app. by left.
      * simpl in Hact. injection Hact as <- <-.
        exists now. split; [|done]. apply elem_of_app. right.
        apply list_elem_of_singleton. done.
    + intros e He. old_or_new He.
      destruct (Hfi e He) as (H1 & H2 & H3 & H4). split_and!; try done.
      intros w j Hact. destruct (H4 w j Hact) as (t & Ht & ?).
      exists t. split; [|done]. apply elem_of_app. by left.
    + intros w j t Hin. old_or_new Hin; eauto.
    + intros w j t Hin. old_or_new Hin. eauto.
    + rewrite joined_snoc, dequeued_snoc, app_nil_r, Hfifo, Hline.
      by rewrite <-app_assoc.
Qed.

Lemma Timed_tryCharging now s : Timed s → Timed (tryCharging now s).
Proof. apply tryCharging_loop_preserves. intros. by apply Timed_tryCharging_slot. Qed.

Lemma Timed_scheduleFlight v start s : Timed s → Timed (scheduleFlight v start s).
Proof.
  intros [Hq Hf Hc Hfi Ha Hd Hfifo]. unfold scheduleFlight.
  destruct (start + getFlightDuration v >? SIM_DURATION) eqn:Hend; [done|].
  split; simpl; try done.
  - intros e [He| ->%list_elem_of_singleton]%elem_of_app; eauto.
  - intros e w a d [He| ->%list_elem_of_singleton]%elem_of_app Hact; [eauto|].
    simpl in Hact. by injection Hact as <- <- <-.
  - intros e w j [He| ->%list_elem_of_singleton]%elem_of_app Hact; [eauto|done].
Qed.

Lemma Timed_pop s e :
  Timed s → top (eventQueue s) = Some e → (time e <=? SIM_DURATION) = true →
  Timed (observe (Fired e) (set_eventQueue pop s)).
Proof.
  intros [Hq Hf Hc Hfi Ha Hd Hfifo] Htop Hle.
  pose proof (top_pop _ _ Htop) as Hperm.
  assert (He : e ∈ eventQueue s) by (rewrite Hperm; apply list_elem_of_here).
  assert (Hsub : ∀ e', e' ∈ pop (eventQueue s) → e' ∈ eventQueue s).
  { intros e' He'. rewrite Hperm. by apply list_elem_of_further. }
  split; simpl; eauto.
  - intros e' w j He' Hact. destruct (Hc e' w j (Hsub _ He') Hact) as (t & Ht & ?).
    exists t. split; [|done]. apply elem_of_app. by left.
  - intros e' He'. old_or_new He'.
    + destruct (Hfi e' He') as (H1 & H2 & H3 & H4). split_and!; try done.
      intros w j Hact. destruct (H4 w j Hact) as (t & Ht & ?).
      exists t. split; [|done]. apply elem_of_app. by left.
    + split_and!; eauto.
      intros w j Hact. destruct (Hc e w j He Hact) as (t & Ht & ?).
      exists t. split; [|done]. apply elem_of_app. by left.
  - intros w j t Hin. old_or_new Hin. eauto.
  - intros w j t Hin. old_or_new Hin. eauto.
  - by rewrite joined_snoc, dequeued_snoc, !app_nil_r.
Qed.

Lemma Timed_processFlightEnd v a d s : Timed s → Timed (processFlightEnd rng v a d s).
Proof.
  intros HT. unfold processFlightEnd.
  destruct (a + d >? SIM_DURATION); [done|].
  apply Timed_tryCharging.
  destruct HT as [Hq Hf Hc Hfi Ha Hd Hfifo].
  split; simpl; try done.
  - intros e w j He Hact. destruct (Hc e w j He Hact) as (t & Ht & ?).
    exists t. split; [|done]. apply elem_of_app. by left.
  - intros e He. old_or_new He.
    destruct (Hfi e He) as (H1 & H2 & H3 & H4). split_and!; try done.
    intros w j Hact. destruct (H4 w j Hact) as (t & Ht & ?).
    exists t. split; [|done]. apply elem_of_app. by left.
  - intros w j t Hin. old_or_new Hin. eauto.
  - intros w j t Hin. old_or_new Hin. eauto.
  - by rewrite joined_snoc, dequeued_snoc, app_nil_r, Hfifo, app_assoc.
Qed.

Lemma Timed_finishCharging v i s s' :
  Timed s → finishCharging v i s = Some s' → Timed s'.
Proof.
  intros HT. unfold finishCharging.
  destruct (top (eventQueue s)) as [e|]; [|done].
  intros [= <-].
  apply Timed_tryCharging, Timed_scheduleFlight.
  by destruct HT.
Qed.

Lemma Timed_run_iteration s s' : Timed s → run_iteration rng s = Continue s' → Timed s'.
Proof.
  intros HT. unfold run_iteration.
  destruct (top (eventQueue s)) as [e|] eqn:Htop; [|done].
  destruct (time e <=? SIM_DURATION) eqn:Hle; [|done].
  pose proof (Timed_pop s e HT Htop Hle) as HT'.
  destruct (action e) as [v a d|v i].
  - intros [= <-]. by apply Timed_processFlightEnd.
  - destruct (finishCharging _ _ _) as [s1|] eqn:Hfin; [|done].
    intros [= <-]. by eapply Timed_finishCharging.
Qed.

Lemma Timed_createVehicles_loop n :
  ∀ i s, Timed s → Timed (createVehicles_loop rng n i s).
Proof.
  induction n as [|n IH]; intros i s Hs; simpl; [done|].
  destruct (vehicleTypes s !! _) as [vt|]; [|by apply IH].
  apply IH, Timed_scheduleFlight. by destruct Hs.
Qed.

Lemma Timed_Simulation_over table : Timed (Simulation_over rng table).
Proof.
  unfold Simulation_over, createVehicles.
  pose proof (Timed_createVehicles_loop NUM_VEHICLES 0
                (set_vehicleTypes (λ _, table) Simulation_members)) as HT.
  revert HT.
  generalize (createVehicles_loop rng NUM_VEHICLES 0
                (set_vehicleTypes (λ _, table) Simulation_members)).
  intros s HT. destruct HT as [? ? ? ? ? ? ?]; [|by split].
  split; simpl; try done; try (by intros ? ?%elem_of_nil);
    try (by intros ? ? ? ?%elem_of_nil); by intros ? ? ? ? ?%elem_of_nil.
Qed.

Lemma Timed_reachable s0 s : Timed s0 → reachable rng s0 s → Timed s.
Proof. induction 2; [done|]. by eapply Timed_run_iteration. Qed.

(** *** No handler invents a vehicle *)

Lemma freed_slot_sub (l : list (option (Vehicle D))) i v :
  v ∈ omap id (<[i := None]> l) → v ∈ omap id l.
Proof.
  revert i. induction l as [|[w|] l IH]; intros [|i]; simpl; eauto.
  - apply list_elem_of_further.
  - intros [->|Hin]%elem_of_cons; [apply list_elem_of_here|].
    apply list_elem_of_further. eauto.
Qed.

Section Within.
(** [X]: the vehicles referenced before the handler started. *)
Context (X : list (Vehicle D)).

Lemma within_intro s :
  (∀ e, e ∈ eventQueue s → vehicle_of e ∈ X) →
  (∀ v, v ∈ chargingQueue s → v ∈ X) →
  (∀ v, v ∈ charging s → v ∈ X) →
  within X s.
Proof.
  intros He Hq Hc v. unfold referenced.
  intros [(e & -> & Hin)%list_elem_of_fmap|[Hin|Hin]%elem_of_app]%elem_of_app; eauto.
Qed.

Lemma within_elim s :
  within X s →
  (∀ e, e ∈ eventQueue s → vehicle_of e ∈ X)
  ∧ (∀ v, v ∈ chargingQueue s → v ∈ X)
  ∧ (∀ v, v ∈ charging s → v ∈ X).
Proof.
  intros Hw. unfold within, referenced in Hw. split_and!.
  - intros e He. apply Hw, elem_of_app. left. by apply list_elem_of_fmap_2.
  - intros v Hv. apply Hw, elem_of_app. right. apply elem_of_app. by left.
  - intros v Hv. apply Hw, elem_of_app. right. apply elem_of_app. by right.
Qed.

Lemma within_tryCharging_slot i now s : within X s → within X (tryCharging_slot i now s).
Proof.
  intros (He & Hq & Hc)%within_elim.
  destruct (tryCharging_slot_case i now s) as [?|v rest Hi Hline Hend|v rest Hi Hline Hend].
  - by apply within_intro.
  - apply within_intro; simpl; try done.
    intros w Hw. apply Hq. rewrite Hline. by apply list_elem_of_further.
  - assert (Hv : v ∈ X) by (apply Hq; rewrite Hline; apply list_elem_of_here).
    apply within_intro; simpl.
    + intros e [Hin| ->%list_elem_of_singleton]%elem_of_app; eauto.
    + intros w Hw. apply Hq. rewrite Hline. by apply list_elem_of_further.
    + unfold charging; simpl. intros w. rewrite (occupy_slot _ _ _ Hi).
      intros [->|Hw]%elem_of_cons; eauto.
Qed.

Lemma within_tryCharging now s : within X s → within X (tryCharging now s).
Proof. apply tryCharging_loop_preserves. intros. by apply within_tryCharging_slot. Qed.

Lemma within_scheduleFlight v start s :
  within X s → v ∈ X → within X (scheduleFlight v start s).
Proof.
  intros Hw Hv. unfold scheduleFlight.
  destruct (start + getFlightDuration v >? SIM_DURATION); [done|].
  apply within_elim in Hw as (He & Hq & Hc).
  apply within_intro; simpl; try done.
  intros e [Hin| ->%list_elem_of_singleton]%elem_of_app; eauto.
Qed.

Lemma within_processFlightEnd v a d s :
  within X s → v ∈ X → within X (processFlightEnd rng v a d s).
Proof.
  intros Hw Hv. unfold processFlightEnd.
  destruct (a + d >? SIM_DURATION); [done|].
  apply within_tryCharging.
  apply within_elim in Hw as (He & Hq & Hc).
  apply within_intro; simpl; try done.
  intros w [Hin| ->%list_elem_of_singleton]%elem_of_app; eauto.
Qed.

Lemma within_finishCharging v i s s' :
  within X s → v ∈ X → finishCharging v i s = Some s' → within X s'.
Proof.
  intros Hw Hv. unfold finishCharging.
  destruct (top (eventQueue s)) as [e|]; [|done].
  intros [= <-].
  apply within_tryCharging, within_scheduleFlight; [|done].
  apply within_elim in Hw as (He & Hq & Hc).
  apply within_intro; simpl; try done.
  intros w Hin%freed_slot_sub. eauto.
Qed.

(** [h0]: the history before the handler started. *)
Context (h0 : list (Obs D)).

Lemma news_observe s o :
  news_within X h0 s → obs_vehicle o ∈ X → news_within X h0 (observe o s).
Proof.
  intros Hn Ho o' [Hold| ->%list_elem_of_singleton]%elem_of_app; [by apply Hn|by right].
Qed.

Lemma news_tryCharging_slot i now s :
  within X s → news_within X h0 s → news_within X h0 (tryCharging_slot i now s).
Proof.
  intros (He & Hq & Hc)%within_elim Hn.
  destruct (tryCharging_slot_case i now s) as [?|v rest Hi Hline Hend|v rest Hi Hline Hend];
    [done| |];
    (apply news_observe; [done|]; simpl; apply Hq; rewrite Hline; apply list_elem_of_here).
Qed.

Lemma news_tryCharging_loop now n :
  ∀ i s, within X s → news_within X h0 s →
    news_within X h0 (tryCharging_loop n i now s).
Proof.
  induction n as [|n IH]; intros i s Hw Hn; simpl; [done|].
  apply IH; [by apply within_tryCharging_slot|by apply news_tryCharging_slot].
Qed.

Lemma news_processFlightEnd v a d s :
  within X s → v ∈ X → news_within X h0 s →
  news_within X h0 (processFlightEnd rng v a d s).
Proof.
  intros Hw Hv Hn. unfold processFlightEnd.
  destruct (a + d >? SIM_DURATION); [done|].
  apply news_tryCharging_loop.
  - apply within_elim in Hw as (He & Hq & Hc).
    apply within_intro; simpl; try done.
    intros w [Hin| ->%list_elem_of_singleton]%elem_of_app; eauto.
  - by apply news_observe.
Qed.

Lemma news_finishCharging v i s s' :
  within X s → v ∈ X → news_within X h0 s →
  finishCharging v i s = Some s' → news_within X h0 s'.
Proof.
  intros Hw Hv Hn. unfold finishCharging.
  destruct (top (eventQueue s)) as [e|]; [|done].
  intros [= <-].
  apply news_tryCharging_loop.
  - apply within_scheduleFlight; [|done].
    apply within_elim in Hw as (He & Hq & Hc).
    apply within_intro; simpl; try done.
    intros w Hin%freed_slot_sub. eauto.
  - unfold scheduleFlight. by destruct (_ >? SIM_DURATION).
Qed.
End Within.

Lemma referenced_run_iteration s s' :
  run_iteration rng s = Continue s' → ∀ v, v ∈ referenced s' → v ∈ referenced s.
Proof.
  unfold run_iteration.
  destruct (top (eventQueue s)) as [e|] eqn:Htop; [|done].
  destruct (time e <=? SIM_DURATION); [|done].
  pose proof (top_pop _ _ Htop) as Hperm.
  assert (Hv : vehicle_of e ∈ referenced s).
  { unfold referenced. apply elem_of_app. left. apply list_elem_of_fmap_2.
    rewrite Hperm. apply list_elem_of_here. }
  assert (Hw : within (referenced s) (observe (Fired e) (set_eventQueue pop s))).
  { intros v. unfold referenced; simpl.
    intros [(e' & -> & Hin)%list_elem_of_fmap|Hin]%elem_of_app; apply elem_of_app.
    - left. apply list_elem_of_fmap_2. rewrite Hperm. by apply list_elem_of_further.
    - by right. }
  unfold vehicle_of in Hv.
  destruct (action e) as [v a d|v i].
  - intros [= <-]. by apply within_processFlightEnd.
  - destruct (finishCharging _ _ _) as [s1|] eqn:Hfin; [|done].
    intros [= <-]. by eapply within_finishCharging.
Qed.

Lemma referenced_reachable s0 s :
  reachable rng s0 s → ∀ v, v ∈ referenced s → v ∈ referenced s0.
Proof.
  induction 1 as [|s s' _ IH Hstep]; [done|].
  intros v Hv. by eapply IH, referenced_run_iteration.
Qed.

Lemma news_run_iteration s s' :
  run_iteration rng s = Continue s' → news_within (referenced s) (history s) s'.
Proof.
  unfold run_iteration.
  destruct (top (eventQueue s)) as [e|] eqn:Htop; [|done].
  destruct (time e <=? SIM_DURATION); [|done].
  pose proof (top_pop _ _ Htop) as Hperm.
  assert (Hv : vehicle_of e ∈ referenced s).
  { unfold referenced. apply elem_of_app. left. apply list_elem_of_fmap_2.
    rewrite Hperm. apply list_elem_of_here. }
  assert (Hw : within (referenced s) (observe (Fired e) (set_eventQueue pop s))).
  { intros v. unfold referenced; simpl.
    intros [(e' & -> & Hin)%list_elem_of_fmap|Hin]%elem_of_app; apply elem_of_app.
    - left. apply list_elem_of_fmap_2. rewrite Hperm. by apply list_elem_of_further.
    - by right. }
  assert (Hn : news_within (referenced s) (history s)
                 (observe (Fired e) (set_eventQueue pop s))).
  { apply news_observe; [|done]. intros o Ho. by left. }
  unfold vehicle_of in Hv.
  destruct (action e) as [v a d|v i].
  - intros [= <-]. by apply news_processFlightEnd.
  - destruct (finishCharging _ _ _) as [s1|] eqn:Hfin; [|done].
    intros [= <-]. by eapply news_finishCharging.
Qed.

Lemma news_reachable s0 s :
  reachable rng s0 s → news_within (referenced s0) (history s0) s.
Proof.
  induction 1 as [|s s' Hreach IH Hstep]; [by intros o Ho; left|].
  intros o Ho.
  destruct (news_run_iteration s s' Hstep o Ho) as [Hold|Hnew]; [by apply IH|].
  right. by eapply referenced_reachable.
Qed.

(** *** The books: statistics, samples drawn, events fired *)

Lemma stats_at_insert c c' (st : Stats D) s :
  stats_at c (set_stats (<[c' := st]>) s)
  = if decide (c' = c) then st else stats_at c s.
Proof.
  unfold stats_at; simpl. rewrite lookup_insert.
  by destruct (decide (c' = c)).
Qed.

Lemma count_snoc f (h : list (Obs D)) o :
  count f (h ++ [o]) = (count f h + if f o then 1 else 0)%nat.
Proof.
  unfold count. rewrite List.filter_app, length_app. simpl.
  by destruct (f o).
Qed.

Lemma count_snoc_quiet f (h : list (Obs D)) o :
  counts_fired f → (∀ e, o ≠ Fired e) → count f (h ++ [o]) = count f h.
Proof.
  intros Hf Ho. rewrite count_snoc.
  destruct (f o) eqn:Hfo; [|lia].
  destruct (Hf o Hfo) as [e ->]. by destruct (Ho e).
Qed.

Lemma same_books_refl s : same_books s s.
Proof. by split_and!. Qed.

Lemma same_books_trans s1 s2 s3 : same_books s1 s2 → same_books s2 s3 → same_books s1 s3.
Proof.
  intros (? & ? & Hc) (? & ? & Hc'). split_and!; try congruence.
  intros f Hf. rewrite Hc', Hc; done.
Qed.

Lemma tryCharging_slot_books i now s : same_books s (tryCharging_slot i now s).
Proof.
  destruct (tryCharging_slot_case i now s) as [?|v rest Hi Hline Hend|v rest Hi Hline Hend].
  - apply same_books_refl.
  - split_and!; simpl; try done. intros f Hf. by apply count_snoc_quiet.
  - split_and!; simpl; try done. intros f Hf. by apply count_snoc_quiet.
Qed.

Lemma tryCharging_books now s : same_books s (tryCharging now s).
Proof.
  unfold tryCharging. generalize 0 NUM_CHARGERS. intros i n. revert i s.
  induction n as [|n IH]; intros i s; simpl; [apply same_books_refl|].
  eapply same_books_trans; [apply tryCharging_slot_books|apply IH].
Qed.

Lemma scheduleFlight_books v start s : same_books s (scheduleFlight v start s).
Proof.
  unfold scheduleFlight.
  destruct (start + getFlightDuration v >? SIM_DURATION); by split_and!.
Qed.

Lemma processFlightEnd_books v a d s :
  (a + d >? SIM_DURATION) = false →
  let s' := processFlightEnd rng v a d s in
  stats s'
  = <[company (type v) :=
        record_flight v d (getDistancePerFlight v) (dist01 rng (draws s))
          (stats_at (company (type v)) s)]> (stats s)
  ∧ draws s' = S (draws s)
  ∧ ∀ f, counts_fired f → count f (history s') = count f (history s).
Proof.
  intros Hend s'. subst s'. unfold processFlightEnd. rewrite Hend.
  match goal with |- context [tryCharging ?t ?s1] =>
    destruct (tryCharging_books t s1) as (-> & -> & Hc) end.
  split_and!; simpl; try done.
  intros f Hf. rewrite (Hc f Hf). simpl. by apply count_snoc_quiet.
Qed.

Lemma finishCharging_books v i s s' :
  finishCharging v i s = Some s' →
  stats s' = <[company (type v) := record_charge v (stats_at (company (type v)) s)]> (stats s)
  ∧ draws s' = draws s
  ∧ ∀ f, counts_fired f → count f (history s') = count f (history s).
Proof.
  unfold finishCharging. destruct (top (eventQueue s)) as [e|]; [|done].
  intros [= <-].
  match goal with |- context [tryCharging ?t (scheduleFlight ?w ?t ?s1)] =>
    destruct (tryCharging_books t (scheduleFlight w t s1)) as (-> & -> & Hc);
    destruct (scheduleFlight_books w t s1) as (-> & -> & Hc') end.
  split_and!; simpl; try done.
  intros f Hf. by rewrite (Hc f Hf), (Hc' f Hf).
Qed.

Lemma counts_fired_flight c : counts_fired (fired_flight (D:=D) c).
Proof. intros [e| | |]; simpl; try done. eauto. Qed.

Lemma counts_fired_charge c : counts_fired (fired_charge (D:=D) c).
Proof. intros [e| | |]; simpl; try done. eauto. Qed.

Lemma counts_fired_any_flight : counts_fired (fired_any_flight (D:=D)).
Proof. intros [e| | |]; simpl; try done. eauto. Qed.

Lemma Counted_run_iteration s s' :
  Timed s → Counted s → run_iteration rng s = Continue s' → Counted s'.
Proof.
  intros HT [HC Hdraws]. unfold run_iteration.
  destruct (top (eventQueue s)) as [e|] eqn:Htop; [|done].
  destruct (time e <=? SIM_DURATION) eqn:Hle; [|done].
  pose proof (top_pop _ _ Htop) as Hperm.
  assert (He : e ∈ eventQueue s) by (rewrite Hperm; apply list_elem_of_here).
  destruct (action e) as [v a d|v i] eqn:Hact.
  - intros [= <-].
    destruct (timed_flight s HT e v a d He Hact) as [Htime _].
    pose proof (timed_queue s HT e He) as Hin. rewrite Htime in Hin.
    destruct (processFlightEnd_books v a d
                (observe (Fired e) (set_eventQueue pop s)) Hin) as (Hst & Hdr & Hh).
    split.
    + intros c. unfold stats_at. rewrite Hst, lookup_insert.
      rewrite !Hh by (apply counts_fired_flight || apply counts_fired_charge).
      simpl. rewrite !count_snoc. simpl. rewrite Hact.
      destruct (HC c) as [HF HCh]. unfold stats_at in HF, HCh.
      destruct (decide (company (type v) = c)) as [Heq|Hne]; simpl.
      * rewrite (bool_decide_eq_true_2 _ Heq). subst c.
        unfold stats_at. simpl. lia.
      * rewrite (bool_decide_eq_false_2 _ Hne). lia.
    + rewrite Hdr, (Hh _ counts_fired_any_flight). simpl.
      rewrite count_snoc. simpl. rewrite Hact. lia.
  - destruct (finishCharging _ _ _) as [s1|] eqn:Hfin; [|done].
    intros [= <-].
    destruct (finishCharging_books _ _ _ _ Hfin) as (Hst & Hdr & Hh).
    split.
    + intros c. unfold stats_at. rewrite Hst, lookup_insert.
      rewrite !Hh by (apply counts_fired_flight || apply counts_fired_charge).
      simpl. rewrite !count_snoc. simpl. rewrite Hact.
      destruct (HC c) as [HF HCh]. unfold stats_at in HF, HCh.
      destruct (decide (company (type v) = c)) as [Heq|Hne]; simpl.
      * rewrite (bool_decide_eq_true_2 _ Heq). subst c.
        unfold stats_at. simpl. lia.
      * rewrite (bool_decide_eq_false_2 _ Hne). lia.
    + rewrite Hdr, (Hh _ counts_fired_any_flight). simpl.
      rewrite count_snoc. simpl. rewrite Hact. lia.
Qed.

Lemma same_books_createVehicles_loop n :
  ∀ i s, same_books s (createVehicles_loop rng n i s)
         ∧ history (createVehicles_loop rng n i s) = history s.
Proof.
  induction n as [|n IH]; intros i s; simpl; [by split; [apply same_books_refl|]|].
  destruct (vehicleTypes s !! _) as [vt|]; [|apply IH].
  match goal with |- context [createVehicles_loop rng n (S i) ?s1] =>
    destruct (IH (S i) s1) as [Hb Hh] end.
  split.
  - eapply same_books_trans; [|exact Hb].
    unfold scheduleFlight.
    destruct (_ >? SIM_DURATION); by split_and!.
  - rewrite Hh. unfold scheduleFlight. by destruct (_ >? SIM_DURATION).
Qed.

Lemma Counted_Simulation_over table : Counted (Simulation_over rng table).
Proof.
  unfold Simulation_over, createVehicles.
  destruct (same_books_createVehicles_loop NUM_VEHICLES 0
              (set_vehicleTypes (λ _, table) Simulation_members))
    as [(Hst & Hdr & _) Hh].
  revert Hst Hdr Hh.
  generalize (createVehicles_loop rng NUM_VEHICLES 0
                (set_vehicleTypes (λ _, table) Simulation_members)).
  intros s Hst Hdr Hh. simpl in *.
  split; [intros c|]; unfold stats_at; simpl; rewrite ?Hst, ?Hdr, ?Hh; done.
Qed.

Lemma stats_Simulation_over table : stats (Simulation_over rng table) = ∅.
Proof.
  unfold Simulation_over, createVehicles.
  destruct (same_books_createVehicles_loop NUM_VEHICLES 0
              (set_vehicleTypes (λ _, table) Simulation_members))
    as [(Hst & _ & _) _].
  revert Hst.
  generalize (createVehicles_loop rng NUM_VEHICLES 0
                (set_vehicleTypes (λ _, table) Simulation_members)).
  intros s Hst. simpl in *. by rewrite Hst.
Qed.

Lemma Counted_reachable s0 s :
  Timed s0 → Counted s0 → reachable rng s0 s → Counted s.
Proof.
  intros HT HC. induction 1 as [|s s' Hr IH Hstep]; [done|].
  eapply Counted_run_iteration; [|exact IH|exact Hstep].
  by eapply Timed_reachable.
Qed.

(** *** Reachable states *)

Lemma reachable_trans s0 s1 s2 :
  reachable rng s0 s1 → reachable rng s1 s2 → reachable rng s0 s2.
Proof. induction 2; [done|]. by eapply reachable_step. Qed.

Lemma iterate_reachable n : ∀ s, reachable rng s (iterate rng n s).
Proof.
  induction n as [|n IH]; intros s; simpl; [apply reachable_start|].
  destruct (run_iteration rng s) as [s'| |] eqn:Hstep; try apply reachable_start.
  eapply reachable_trans; [|apply IH].
  eapply reachable_step; [apply reachable_start|done].
Qed.

Lemma run_reachable n : ∀ s s', run rng n s = Continue s' → reachable rng s s'.
Proof.
  induction n as [|n IH]; intros s s'; simpl.
  - intros [= <-]. apply reachable_start.
  - destruct (run_iteration rng s) as [s1| |] eqn:Hstep; try done.
    intros Hrun. eapply reachable_trans; [|by apply IH].
    eapply reachable_step; [apply reachable_start|done].
Qed.

(** *** Horizon containment *)

(** C3.  No event beyond the horizon is ever enqueued or executed.
    [scheduleFlight] leaves the object untouched when the flight would end
    after [SIM_DURATION], and an iteration of [tryCharging] leaves the event
    queue untouched when the charge would end after it.  In every state the
    loop of [run] reaches from the constructed object: no pending event has
    a timestamp beyond the horizon; every event fired so far had a timestamp
    within it; a fired flight completion carries [startTime] and [duration]
    with [startTime + duration] equal to its timestamp, hence within the
    horizon; a fired charge completion belongs to an assignment made at a
    time [now] with [now + timeToCharge] equal to its timestamp, hence within
    the horizon; and the counts in the statistics are the numbers of fired
    completions, so nothing else is reflected there. *)
Theorem horizon_containment :
  (∀ v startTime s,
     (startTime + getFlightDuration v >? SIM_DURATION) = true →
     scheduleFlight v startTime s = s)
  ∧ (∀ i currentTime s v rest,
       activeChargers s !! i = Some None →
       chargingQueue s = v :: rest →
       (currentTime + timeToCharge (type v) >? SIM_DURATION) = true →
       eventQueue (tryCharging_slot i currentTime s) = eventQueue s)
  ∧ (∀ s,
       reachable rng (Simulation_new rng) s →
       (∀ e, e ∈ eventQueue s → (time e >? SIM_DURATION) = false)
       ∧ (∀ e, Fired e ∈ history s →
            (time e <=? SIM_DURATION) = true ∧ (time e >? SIM_DURATION) = false)
       ∧ (∀ e v startTime duration,
            Fired e ∈ history s → action e = FlightEnd v startTime duration →
            time e = startTime + duration
            ∧ (startTime + duration <=? SIM_DURATION) = true
            ∧ (startTime + duration >? SIM_DURATION) = false)
       ∧ (∀ e v i,
            Fired e ∈ history s → action e = ChargeEnd v i →
            ∃ now, Assigned v i now ∈ history s
                   ∧ time e = now + timeToCharge (type v)
                   ∧ (now + timeToCharge (type v) <=? SIM_DURATION) = true
                   ∧ (now + timeToCharge (type v) >? SIM_DURATION) = false)
       ∧ Counted s).
Proof.
  split_and!.
  - intros v startTime s Hend. unfold scheduleFlight. by rewrite Hend.
  - intros i currentTime s v rest Hi Hline Hend. unfold tryCharging_slot.
    by rewrite Hi, Hline, Hend.
  - intros s Hreach.
    pose proof (Timed_reachable _ _ (Timed_Simulation_over vehicleTypes_table) Hreach) as HT.
    pose proof (Counted_reachable _ _ (Timed_Simulation_over vehicleTypes_table)
                  (Counted_Simulation_over vehicleTypes_table) Hreach) as HC.
    split_and!; [apply HT| | | |exact HC].
    + intros e He. by destruct (timed_fired s HT e He) as (? & ? & _).
    + intros e v a d He Hact.
      destruct (timed_fired s HT e He) as (Hle & Hgt & Hfl & _).
      destruct (Hfl v a d Hact) as [Htime _]. rewrite <-Htime. done.
    + intros e v i He Hact.
      destruct (timed_fired s HT e He) as (Hle & Hgt & _ & Hch).
      destruct (Hch v i Hact) as (now & Hin & Htime).
      exists now. rewrite <-Htime. done.
Qed.

(** *** Charger exclusivity *)

Lemma charging_length (l : list (option (Vehicle D))) : length (omap id l) ≤ length l.
Proof. induction l as [|[w|] l IH]; cbn in *; lia. Qed.

(** C6.  In every state the loop of [run] reaches: the pool has
    [NUM_CHARGERS] slots, each empty or holding one vehicle; at most
    [NUM_CHARGERS] vehicles are charging; no vehicle is on two chargers; no
    vehicle of the waiting line is on a charger; the charges in progress
    (pending charge completions) are on distinct slots, each holding the
    vehicle of its completion; and an iteration of [tryCharging] leaves an
    occupied slot alone. *)
Theorem charger_exclusivity s :
  reachable rng (Simulation_new rng) s →
  length (activeChargers s) = NUM_CHARGERS
  ∧ length (charging s) ≤ NUM_CHARGERS
  ∧ NoDup (addr <$> charging s)
  ∧ (∀ v, v ∈ chargingQueue s → addr v ∉ addr <$> charging s)
  ∧ NoDup (busy_slots s)
  ∧ (∀ e v i,
       e ∈ eventQueue s → action e = ChargeEnd v i →
       activeChargers s !! i = Some (Some v))
  ∧ (∀ i w currentTime,
       activeChargers s !! i = Some (Some w) → tryCharging_slot i currentTime s = s).
Proof.
  intros Hreach.
  destruct (Inv_reachable _ _ (Inv_Simulation_over vehicleTypes_table) Hreach)
    as [Huniq Hpool Hslot Hbusy].
  unfold places in Huniq. rewrite !fmap_app in Huniq.
  apply NoDup_app in Huniq as (_ & _ & Huniq).
  apply NoDup_app in Huniq as (_ & Hdisj & Hnd).
  split_and!; try done.
  - rewrite <-Hpool. apply charging_length.
  - intros v Hv. apply Hdisj. by apply list_elem_of_fmap_2.
  - intros i w currentTime Hi. unfold tryCharging_slot. by rewrite Hi.
Qed.

(** *** The waiting line *)

(** C7, as the code has it.  In every state the loop of [run] reaches, the
    vehicles that have left the waiting line are, in the same order, the
    first of those that joined it, and the line holds the rest: the k-th
    vehicle to leave is the k-th that joined, whatever its type or operator.
    A vehicle that left was given the charger exactly when its charge ends
    within the horizon; otherwise it was dropped. *)
Theorem waiting_line_fifo s :
  reachable rng (Simulation_new rng) s →
  joined (history s) = dequeued (history s) ++ chargingQueue s
  ∧ (∀ k v, dequeued (history s) !! k = Some v → joined (history s) !! k = Some v)
  ∧ (∀ v i now,
       Assigned v i now ∈ history s →
       (now + timeToCharge (type v) >? SIM_DURATION) = false)
  ∧ (∀ v i now,
       Dropped v i now ∈ history s →
       (now + timeToCharge (type v) >? SIM_DURATION) = true).
Proof.
  intros Hreach.
  pose proof (Timed_reachable _ _ (Timed_Simulation_over vehicleTypes_table) Hreach) as HT.
  split_and!; [apply HT| |apply HT|apply HT].
  intros k v Hk. rewrite (timed_fifo s HT). by apply lookup_app_l_Some.
Qed.

(** *** Dropping a vehicle whose charge would overrun the horizon *)

Lemma tryCharging_loop_within X now n :
  ∀ i s, within X s → within X (tryCharging_loop n i now s).
Proof.
  induction n as [|n IH]; intros i s Hw; simpl; [done|].
  by apply IH, within_tryCharging_slot.
Qed.

Lemma tryCharging_loop_earlier_slot now i n :
  ∀ j s, i < j →
    activeChargers (tryCharging_loop n j now s) !! i = activeChargers s !! i.
Proof.
  induction n as [|n IH]; intros j s Hij; simpl; [done|].
  rewrite IH by lia.
  destruct (tryCharging_slot_case j now s) as [?|v rest Hj Hline Hend|v rest Hj Hline Hend];
    simpl; try done.
  apply list_lookup_insert_ne. lia.
Qed.

Lemma tryCharging_loop_later_slots now n :
  ∀ j s o,
    o ∈ history (tryCharging_loop n j now s) →
    o ∈ history s
    ∨ ∃ w k, j ≤ k ∧ (o = Assigned w k now ∨ o = Dropped w k now).
Proof.
  induction n as [|n IH]; intros j s o Ho; simpl in Ho; [by left|].
  apply IH in Ho as [Ho|(w & k & Hk & Ho)]; [|right; exists w, k; split; [lia|done]].
  destruct (tryCharging_slot_case j now s) as [?|v rest Hj Hline Hend|v rest Hj Hline Hend];
    simpl in Ho; [by left| |].
  - apply elem_of_app in Ho as [Ho| ->%list_elem_of_singleton]; [by left|].
    right. exists v, j. split; [lia|by right].
  - apply elem_of_app in Ho as [Ho| ->%list_elem_of_singleton]; [by left|].
    right. exists v, j. split; [lia|by left].
Qed.

Lemma Inv_head_unique s v rest :
  Inv s → chargingQueue s = v :: rest →
  ∀ w, w ∈ referenced (set_chargingQueue (λ _, rest) s) → addr w ≠ addr v.
Proof.
  intros [Huniq Hpool Hslot Hbusy] Hline w Hw Heq.
  unfold places in Huniq. rewrite Hline in Huniq.
  assert (Hplaces : w ∈ flying s ++ rest ++ charging s).
  { unfold referenced in Hw; simpl in Hw.
    apply elem_of_app in Hw as [(e & -> & He)%list_elem_of_fmap|Hw]; [|by apply elem_of_app; right].
    unfold vehicle_of. destruct (action e) as [u a d|u j] eqn:Hact.
    - apply elem_of_app. left. apply list_elem_of_omap. exists e.
      split; [done|]. unfold flight_of. by rewrite Hact.
    - apply elem_of_app. right. apply elem_of_app. right.
      apply list_elem_of_omap. exists (Some u). split; [|done].
      apply list_elem_of_lookup. exists j. by eapply Hslot. }
  assert (Hperm : flying s ++ (v :: rest) ++ charging s
                  ≡ₚ v :: (flying s ++ rest ++ charging s)).
  { simpl. by rewrite <-Permutation_middle. }
  rewrite Hperm, fmap_cons in Huniq. apply NoDup_cons in Huniq as [Hfresh _].
  apply Hfresh. rewrite <-Heq. by apply list_elem_of_fmap_2.
Qed.

(** C5.  Take any point of a matching pass: the loop of [tryCharging] is at
    slot [i] with [n] more slots to go, the slot is idle, the head [v] of the
    waiting line has a charge that would end after the horizon.  Then the
    pass goes on with slot [i + 1] and the rest of the line after taking [v]
    out and doing nothing with it; slot [i] is still idle when the pass
    ends; whatever the rest of the pass takes from the line goes to a later
    slot or is dropped there; and from then on no event, no charger and no
    place in the waiting line ever refers to [v] again, and nothing more
    happens to [v]: no event of [v] is fired, [v] does not join the line and
    is not given a charger. *)
Theorem drop_on_overrun i n currentTime s v rest :
  Inv s →
  activeChargers s !! i = Some None →
  chargingQueue s = v :: rest →
  (currentTime + timeToCharge (type v) >? SIM_DURATION) = true →
  let dropped := observe (Dropped v i currentTime) (set_chargingQueue (λ _, rest) s) in
  let s' := tryCharging_loop (S n) i currentTime s in
  s' = tryCharging_loop n (S i) currentTime dropped
  ∧ eventQueue dropped = eventQueue s
  ∧ activeChargers dropped = activeChargers s
  ∧ activeChargers s' !! i = Some None
  ∧ (∀ o, o ∈ history s' →
       o ∈ history dropped
       ∨ ∃ w k, i < k ∧ (o = Assigned w k currentTime ∨ o = Dropped w k currentTime))
  ∧ (∀ s'' w, reachable rng s' s'' → w ∈ referenced s'' → addr w ≠ addr v)
  ∧ (∀ s'' o,
       reachable rng s' s'' → o ∈ history s'' →
       o ∈ history s' ∨ addr (obs_vehicle o) ≠ addr v).
Proof.
  intros HI Hi Hline Hend dropped s'.
  assert (Hs' : s' = tryCharging_loop n (S i) currentTime dropped).
  { subst s' dropped. simpl. unfold tryCharging_slot at 1. by rewrite Hi, Hline, Hend. }
  split_and!; try done.
  - rewrite Hs', tryCharging_loop_earlier_slot by lia. done.
  - intros o Ho. rewrite Hs' in Ho.
    apply tryCharging_loop_later_slots in Ho as [Ho|(w & k & Hk & Ho)]; [by left|].
    right. exists w, k. split; [lia|done].
  - intros s'' w Hreach Hw.
    apply (Inv_head_unique s v rest HI Hline).
    apply (referenced_reachable _ _ Hreach) in Hw. rewrite Hs' in Hw.
    revert w Hw. apply tryCharging_loop_within. by intros w Hw.
  - intros s'' o Hreach Ho.
    destruct (news_reachable _ _ Hreach o Ho) as [Hold|Hnew]; [by left|].
    right. apply (Inv_head_unique s v rest HI Hline).
    rewrite Hs' in Hnew.
    revert Hnew. generalize (obs_vehicle o).
    apply tryCharging_loop_within. by intros w Hw.
Qed.

(** *** What the constructor creates *)

Lemma typed_createVehicles_loop table n :
  ∀ i s,
    vehicleTypes s = table →
    (∀ v, v ∈ vehicles s → type v ∈ table) →
    (∀ e, e ∈ eventQueue s → type (vehicle_of e) ∈ table) →
    let s' := createVehicles_loop rng n i s in
    (∀ v, v ∈ vehicles s' → type v ∈ table)
    ∧ (∀ e, e ∈ eventQueue s' → type (vehicle_of e) ∈ table).
Proof.
  induction n as [|n IH]; intros i s Htab Hv He; simpl; [done|].
  destruct (vehicleTypes s !! _) as [vt|] eqn:Hvt; [|by apply IH].
  assert (Hin : vt ∈ table) by (rewrite <-Htab; by eapply list_elem_of_lookup_2).
  apply IH.
  - unfold scheduleFlight. by destruct (_ >? SIM_DURATION).
  - unfold scheduleFlight. destruct (_ >? SIM_DURATION); simpl;
      intros v [Hold| ->%list_elem_of_singleton]%elem_of_app; eauto.
  - unfold scheduleFlight. destruct (_ >? SIM_DURATION); simpl; [done|].
    intros e [Hold| ->%list_elem_of_singleton]%elem_of_app; eauto.
Qed.

Lemma typed_Simulation_over table :
  let s := Simulation_over rng table in
  (∀ v, v ∈ vehicles s → type v ∈ table)
  ∧ (∀ v, v ∈ referenced s → type v ∈ table).
Proof.
  unfold Simulation_over, createVehicles.
  pose proof (typed_createVehicles_loop table NUM_VEHICLES 0
                (set_vehicleTypes (λ _, table) Simulation_members)) as Hty.
  pose proof (grounded_createVehicles_loop NUM_VEHICLES 0
                (set_vehicleTypes (λ _, table) Simulation_members)) as Hgr.
  revert Hty Hgr.
  generalize (createVehicles_loop rng NUM_VEHICLES 0
                (set_vehicleTypes (λ _, table) Simulation_members)).
  intros s Hty Hgr.
  destruct Hty as [Hv He]; simpl; try done; try (by intros ? ?%elem_of_nil).
  destruct Hgr as (_ & _ & _ & Hq & Hc).
  { unfold grounded, flying; simpl. split_and!; try done.
    - apply NoDup_nil_2.
    - by intros v ?%elem_of_nil. }
  split; [done|].
  unfold referenced, charging; simpl. rewrite Hq, Hc. simpl.
  intros v [(e & -> & Hin)%list_elem_of_fmap|Hin]%elem_of_app; [eauto|].
  by apply elem_of_nil in Hin.
Qed.

(** *** The fault model *)

Section Faults.
Context {zero : ZeroRate D}.

Lemma faults_run_iteration c s s' :
  (∀ n, (of_int 0 <=? dist01 rng n) = true) →
  (∀ v, v ∈ referenced s → company (type v) = c → faultProbPerHour (type v) = of_int 0) →
  run_iteration rng s = Continue s' →
  totalFaults (stats_at c s') = totalFaults (stats_at c s).
Proof.
  intros Hsample Hzero. unfold run_iteration.
  destruct (top (eventQueue s)) as [e|] eqn:Htop; [|done].
  destruct (time e <=? SIM_DURATION); [|done].
  pose proof (top_pop _ _ Htop) as Hperm.
  assert (Hv : vehicle_of e ∈ referenced s).
  { unfold referenced. apply elem_of_app. left. apply list_elem_of_fmap_2.
    rewrite Hperm. apply list_elem_of_here. }
  unfold vehicle_of in Hv.
  destruct (action e) as [v a d|v i].
  - intros [= <-].
    destruct (a + d >? SIM_DURATION) eqn:Hend.
    { unfold processFlightEnd. by rewrite Hend. }
    destruct (processFlightEnd_books v a d
                (observe (Fired e) (set_eventQueue pop s)) Hend) as (Hst & _ & _).
    unfold stats_at. rewrite Hst, lookup_insert.
    destruct (decide (company (type v) = c)) as [Heq|Hne]; [|done].
    simpl. rewrite (Hzero v Hv Heq), zero_rate by apply Hsample.
    subst c. done.
  - destruct (finishCharging _ _ _) as [s1|] eqn:Hfin; [|done].
    intros [= <-].
    destruct (finishCharging_books _ _ _ _ Hfin) as (Hst & _ & _).
    unfold stats_at. rewrite Hst, lookup_insert.
    destruct (decide (company (type v) = c)) as [Heq|Hne]; [|done].
    subst c. done.
Qed.

Lemma faults_reachable c s0 s :
  (∀ n, (of_int 0 <=? dist01 rng n) = true) →
  (∀ v, v ∈ referenced s0 → company (type v) = c → faultProbPerHour (type v) = of_int 0) →
  reachable rng s0 s →
  totalFaults (stats_at c s) = totalFaults (stats_at c s0).
Proof.
  intros Hsample Hzero. induction 1 as [|s s' Hreach IH Hstep]; [done|].
  rewrite <-IH. eapply faults_run_iteration; [done| |done].
  intros v Hv. apply Hzero. by eapply referenced_reachable.
Qed.

(** C8.  A flight completion that is recorded takes exactly one sample from
    the generator and adds one to the fault count of the vehicle's operator
    when the sample is below [faultProbPerHour * duration], and nothing
    otherwise; the fault counts of the other operators stay as they are.
    Along a run the number of samples taken is the number of flight
    completions fired.  Consequently, if the samples are not negative and
    every vehicle of an operator has fault rate 0, the loop of [run] never
    changes the fault count of that operator, whatever object it starts from
    (any fleet, any number of iterations); and whatever the table of vehicle
    types, if every type of the operator in the table has fault rate 0, its
    fault count is 0 in every state the loop reaches from the constructed
    object. *)
Theorem fault_model :
  (∀ v startTime duration s,
     (startTime + duration >? SIM_DURATION) = false →
     let s' := processFlightEnd rng v startTime duration s in
     draws s' = S (draws s)
     ∧ totalFaults (stats_at (company (type v)) s')
       = (totalFaults (stats_at (company (type v)) s)
          + if (dist01 rng (draws s) <? faultProbPerHour (type v) * duration)%D
            then 1 else 0)%Z
     ∧ ∀ c, c ≠ company (type v) →
         totalFaults (stats_at c s') = totalFaults (stats_at c s))
  ∧ (∀ table s,
       reachable rng (Simulation_over rng table) s →
       draws s = count fired_any_flight (history s))
  ∧ (∀ c s0 s,
       (∀ n, (of_int 0 <=? dist01 rng n) = true) →
       (∀ v, v ∈ referenced s0 → company (type v) = c →
             faultProbPerHour (type v) = of_int 0) →
       reachable rng s0 s →
       totalFaults (stats_at c s) = totalFaults (stats_at c s0))
  ∧ (∀ table c s,
       (∀ n, (of_int 0 <=? dist01 rng n) = true) →
       (∀ vt, vt ∈ table → company vt = c → faultProbPerHour vt = of_int 0) →
       reachable rng (Simulation_over rng table) s →
       totalFaults (stats_at c s) = 0%Z).
Proof.
  split_and!; [| |apply faults_reachable|].
  - intros v a d s Hend s'.
    destruct (processFlightEnd_books v a d s Hend) as (Hst & Hdr & _).
    fold s' in Hst, Hdr. split_and!; [done| |].
    + unfold stats_at in *. rewrite Hst, lookup_insert_eq. simpl.
      destruct (dist01 rng (draws s) <? _); lia.
    + intros c Hc. unfold stats_at. rewrite Hst, lookup_insert_ne; done.
  - intros table s Hreach.
    by destruct (Counted_reachable _ _ (Timed_Simulation_over table)
                   (Counted_Simulation_over table) Hreach).
  - intros table c s Hsample Hzero Hreach.
    rewrite (faults_reachable c (Simulation_over rng table) s Hsample); [| |done].
    + unfold stats_at. by rewrite stats_Simulation_over.
    + intros v Hv. apply Hzero. by apply typed_Simulation_over.
Qed.

End Faults.

(** *** The averages of the report *)

(** The generic half of C9: an average is the total divided by the count
    when the count is positive and [0] when it is zero, and its computation
    never divides by zero. *)
Lemma average_defined (total : D) (n : Z) :
  (0 ≤ n)%Z →
  average total n
  = Some (if decide (0 < n)%Z then total / of_int n else of_int 0).
Proof.
  intros Hn. unfold average, divide_by_count.
  destruct (Z.eqb_spec n 0) as [->|Hne]; [done|].
  destruct (decide (0 < n)%Z); [done|lia].
Qed.

Lemma printStats_rows s r :
  r ∈ printStats s → ∃ st, stats s !! operator r = Some st ∧ r = report_of (operator r) st.
Proof.
  unfold printStats. intros (c & _ & Hrow)%list_elem_of_omap.
  destruct (stats s !! c) as [st|] eqn:Hst; simplify_eq/=. by exists st.
Qed.

Lemma report_defined s r :
  reachable rng (Simulation_new rng) s →
  r ∈ printStats s →
  ∃ st,
    stats s !! operator r = Some st
    ∧ (0 ≤ totalFlights st)%Z ∧ (0 ≤ totalCharges st)%Z
    ∧ avgFlightTime r
      = Some (if decide (0 < totalFlights st)%Z
              then totalFlightTime st / of_int (totalFlights st) else of_int 0)
    ∧ avgDistance r
      = Some (if decide (0 < totalFlights st)%Z
              then totalDistance st / of_int (totalFlights st) else of_int 0)
    ∧ avgChargeTime r
      = Some (if decide (0 < totalCharges st)%Z
              then totalChargeTime st / of_int (totalCharges st) else of_int 0).
Proof.
  intros Hreach (st & Hst & ->)%printStats_rows. exists st.
  destruct (Counted_reachable _ _ (Timed_Simulation_over vehicleTypes_table)
              (Counted_Simulation_over vehicleTypes_table) Hreach) as [HC _].
  destruct (HC (operator (report_of (operator r) st))) as [HF HCh].
  unfold stats_at in HF, HCh. simpl in HF, HCh, Hst. rewrite Hst in HF, HCh.
  simpl in HF, HCh.
  assert (0 ≤ totalFlights st)%Z by lia.
  assert (0 ≤ totalCharges st)%Z by lia.
  split_and!; try done; simpl; by apply average_defined.
Qed.

End Properties.

(** ** The arithmetic of binary64 *)

#[export] Instance binary64_zero_rate : ZeroRate float.
Proof.
  intros sample d. unfold dle, dlt, dmul, of_int; simpl.
  rewrite FloatAxioms.leb_spec, FloatAxioms.ltb_spec, FloatAxioms.mul_spec.
  change (Prim2SF (PrimFloat.of_uint63 0)) with (S754_zero false).
  destruct (Prim2SF sample) as [[]|[]| |[] m e], (Prim2SF d) as [[]|[]| |[] m' e'];
    cbn; congruence.
Qed.

Lemma SFltb_irrefl (x : spec_float) : SFltb x x = false.
Proof.
  destruct x as [s|s| |s m e]; [by destruct s|by destruct s|done|].
  unfold SFltb, SFcompare. rewrite Z.compare_refl.
  change (Pos.compare_cont Eq m m) with (Pos.compare m m). rewrite Pos.compare_refl.
  by destruct s.
Qed.

Lemma SFltb_finite s1 m1 e1 s2 m2 e2 :
  SFltb (S754_finite s1 m1 e1) (S754_finite s2 m2 e2) = true ↔
  (s1 = true ∧ s2 = false)
  ∨ (s1 = false ∧ s2 = false ∧ (e1 < e2 ∨ e1 = e2 ∧ (m1 < m2)%positive))%Z
  ∨ (s1 = true ∧ s2 = true ∧ (e2 < e1 ∨ e1 = e2 ∧ (m2 < m1)%positive))%Z.
Proof.
  unfold SFltb, SFcompare.
  change (Pos.compare_cont Eq m1 m2) with (Pos.compare m1 m2).
  destruct s1, s2;
    destruct (Z.compare_spec e1 e2), (Pos.compare_spec m1 m2); simpl;
    split; intros Hx; try discriminate Hx;
    try (destruct Hx as [[??]|[(?&?&?)|(?&?&?)]]; try discriminate; lia);
    try (by left);
    try (right; left; split_and!; try done; lia);
    try (right; right; split_and!; try done; lia).
Qed.

Lemma SFltb_trans (x y z : spec_float) :
  SFltb x y = true → SFltb y z = true → SFltb x z = true.
Proof.
  destruct x as [sx|sx| |sx mx ex], y as [sy|sy| |sy my ey], z as [sz|sz| |sz mz ez];
    try (by destruct sx, sy, sz); try (by destruct sx, sy); try (by destruct sy, sz);
    try (by destruct sx, sz); try done.
  rewrite !SFltb_finite. intros H1 H2.
  destruct H1 as [[??]|[(?&?&?)|(?&?&?)]], H2 as [[??]|[(?&?&?)|(?&?&?)]];
    subst; try discriminate;
    try (by left);
    try (right; left; split_and!; try done; lia);
    try (right; right; split_and!; try done; lia).
Qed.

Lemma binary64_lt_irrefl (a : float) : dlt a a = false.
Proof. unfold dlt; simpl. rewrite FloatAxioms.ltb_spec. apply SFltb_irrefl. Qed.

Lemma binary64_lt_trans (a b c : float) :
  dlt a b = true → dlt b c = true → dlt a c = true.
Proof. unfold dlt; simpl. rewrite !FloatAxioms.ltb_spec. apply SFltb_trans. Qed.

(** So the queue of the computed runs hands out an earliest event. *)
Lemma engine_top_minimal (q : list (Event float)) r :
  @top float engine q = Some r →
  r ∈ q ∧ ∀ e, e ∈ q → PrimFloat.ltb (time e) (time r) = false.
Proof.
  intros Htop.
  exact (earliest_top_minimal q r binary64_lt_irrefl binary64_lt_trans Htop).
Qed.

(** The literals of the table are the binary64 values the compiler stores:
    they are the values Rocq's own reading of the same decimal literals
    (round to nearest) gives. *)
#[local] Set Warnings "-inexact-float".
Lemma table_literals :
  (timeToCharge <$> vehicleTypes_table (D := float))
  = [0.6; 0.2; 0.8; 0.62; 0.3]%float
  ∧ (energyPerMile <$> vehicleTypes_table (D := float))
    = [1.6; 1.5; 2.2; 0.8; 5.8]%float
  ∧ (faultProbPerHour <$> vehicleTypes_table (D := float))
    = [0.25; 0.10; 0.05; 0.22; 0.61]%float.
Proof. split_and!; vm_compute; reflexivity. Qed.
#[local] Set Warnings "inexact-float".

(** ** The time [finishCharging] takes for "now" *)

(** C1 evaluated where it fails.  Twenty vehicles of the second type.  After
    22 iterations of the loop of [run] the earliest pending event is the
    charge completion of vehicle 2 on charger 2, at a time between 0.86 and
    0.87; the earliest event behind it is later, between 1.06 and 1.07.  The
    iteration that fires the charge completion schedules the next flight of
    vehicle 2 with a start time that is not the time of the completion but
    the timestamp of that later event. *)
Theorem finishCharging_reads_next_timestamp :
  reachable (queue := engine) all_bravo (Simulation_new all_bravo) (after all_bravo 22)
  ∧ ∃ e v next s',
      @top float engine (eventQueue (after all_bravo 22)) = Some e
      ∧ action e = ChargeEnd v 2
      ∧ addr v = 2
      ∧ @top float engine (@pop float engine (eventQueue (after all_bravo 22))) = Some next
      ∧ PrimFloat.ltb (literal 0.86) (time e) = true
      ∧ PrimFloat.ltb (time e) (literal 0.87) = true
      ∧ PrimFloat.ltb (literal 1.06) (time next) = true
      ∧ PrimFloat.ltb (time next) (literal 1.07) = true
      ∧ run_iteration (queue := engine) all_bravo (after all_bravo 22) = Continue s'
      ∧ eventQueue s' !! 4
        = Some {| time := PrimFloat.add (time next) (getFlightDuration v);
                  action := FlightEnd v (time next) (getFlightDuration v) |}
      ∧ flying s' = [vehicle_number all_bravo 0; vehicle_number all_bravo 1; v].
Proof.
  split; [unfold after; apply iterate_reachable|].
  let t := eval vm_compute in (@top float engine (eventQueue (after all_bravo 22))) in
  lazymatch t with
  | Some ?e => exists e; (let v := eval vm_compute in (vehicle_of e) in exists v)
  end.
  let t := eval vm_compute in
    (@top float engine (@pop float engine (eventQueue (after all_bravo 22)))) in
  lazymatch t with Some ?next => exists next end.
  let t := eval vm_compute in
    (run_iteration (queue := engine) all_bravo (after all_bravo 22)) in
  lazymatch t with Continue ?s' => exists s' end.
  split_and!; vm_compute; reflexivity.
Qed.

(** C2 evaluated where it fails.  Twenty vehicles of the first type.  After
    24 iterations of the loop of [run] the only pending event is a charge
    completion within the horizon.  The loop pops it, the queue is empty, and
    [finishCharging] calls [top] on the empty queue. *)
Theorem finishCharging_on_empty_queue :
  reachable (queue := engine) all_alpha (Simulation_new all_alpha) (after all_alpha 24)
  ∧ ∃ e v i,
      eventQueue (after all_alpha 24) = [e]
      ∧ action e = ChargeEnd v i
      ∧ PrimFloat.leb (time e) SIM_DURATION = true
      ∧ @pop float engine (eventQueue (after all_alpha 24)) = []
      ∧ finishCharging (queue := engine) v i
          (observe (Fired e) (set_eventQueue (@pop float engine) (after all_alpha 24)))
        = None
      ∧ run_iteration (queue := engine) all_alpha (after all_alpha 24) = Undefined
      ∧ run (queue := engine) all_alpha 25 (Simulation_new all_alpha) = Undefined.
Proof.
  split; [unfold after; apply iterate_reachable|].
  let t := eval vm_compute in (eventQueue (after all_alpha 24)) in
  lazymatch t with
  | [?e] =>
      exists e;
      (let v := eval vm_compute in (vehicle_of e) in exists v);
      (let i := eval vm_compute in (default 0 (snd <$> charge_of e)) in exists i)
  end.
  split_and!; vm_compute; reflexivity.
Qed.

(** ** The waiting line is not served in the order of the claim *)

Lemma assigned_to_elem (A : Vehicle float) i t (l : list (Obs float)) :
  Assigned A i t ∈ l → existsb (assigned_to (addr A)) l = true.
Proof.
  intros Hin. apply existsb_exists. exists (Assigned A i t).
  split; [by apply list_elem_of_In|]. simpl. apply Nat.eqb_refl.
Qed.

(** C7 as it is worded fails.  Ten vehicles of the third type (charge time
    0.8), then ten of the second (charge time 0.2).  Vehicle 9 joins the
    waiting line before vehicle 10.  The 28th iteration of the loop of [run]
    fires a flight completion at a time after 2.67; its matching pass takes
    vehicle 9 from the line for charger 0 and drops it, because its charge
    would end after the horizon, and then gives charger 1 to vehicle 10.
    Vehicle 9 has never been given a charger. *)
Lemma served_in_order_fails :
  reachable (queue := engine) charlie_then_bravo (Simulation_new charlie_then_bravo)
    (after charlie_then_bravo 28)
  ∧ history (after charlie_then_bravo 28) !! 22
    = Some (Joined (vehicle_number charlie_then_bravo 9))
  ∧ history (after charlie_then_bravo 28) !! 24
    = Some (Joined (vehicle_number charlie_then_bravo 10))
  ∧ (∃ now,
       PrimFloat.ltb (literal 2.67) now = true
       ∧ history (after charlie_then_bravo 28) !! 60
         = Some (Dropped (vehicle_number charlie_then_bravo 9) 0 now)
       ∧ history (after charlie_then_bravo 28) !! 61
         = Some (Assigned (vehicle_number charlie_then_bravo 10) 1 now))
  ∧ existsb (assigned_to 9) (history (after charlie_then_bravo 28)) = false
  ∧ ¬ served_in_order (history (after charlie_then_bravo 28)).
Proof.
  split; [unfold after; apply iterate_reachable|].
  split_and!.
  - vm_compute; reflexivity.
  - vm_compute; reflexivity.
  - let o := eval vm_compute in (history (after charlie_then_bravo 28) !! 61) in
    lazymatch o with Some (Assigned _ _ ?now) => exists now end.
    split_and!; vm_compute; reflexivity.
  - vm_compute; reflexivity.
  - intros Hclaim.
    pose (h := history (after charlie_then_bravo 28)).
    let o := eval vm_compute in (h !! 61) in
    lazymatch o with
    | Some (Assigned ?B ?j ?t) =>
        destruct (Hclaim (vehicle_number charlie_then_bravo 9) B
                    (take 22 h) (take 1 (drop 23 h)) (take 36 (drop 25 h)) (drop 62 h)
                    j t) as (i & t' & Hin)
    end.
    { vm_compute. reflexivity. }
    apply assigned_to_elem in Hin. vm_compute in Hin. discriminate.
Qed.

(** ** The catalog is not validated *)

(** C10 as it is worded fails.  A table whose only entry has cruise speed
    -100 is not rejected by anything after [loadVehicleTypes]:
    [createVehicles] makes twenty vehicles of that type and schedules twenty
    flight completions at a negative time, and the loop of [run] is still
    running after 100 iterations, with a negative total flight time. *)
Lemma degenerate_entry_not_rejected :
  valid_entry backwards_bravo = false
  ∧ type <$> vehicles (Simulation_over all_alpha [backwards_bravo])
    = replicate 20 backwards_bravo
  ∧ length (eventQueue (Simulation_over all_alpha [backwards_bravo])) = 20
  ∧ forallb (λ e, PrimFloat.ltb (time e) (of_int 0))
      (eventQueue (Simulation_over all_alpha [backwards_bravo])) = true
  ∧ (∃ s',
       run (queue := engine) all_alpha 100 (Simulation_over all_alpha [backwards_bravo])
       = Continue s'
       ∧ PrimFloat.ltb (totalFlightTime (stats_at BRAVO s')) (of_int 0) = true)
  ∧ ¬ catalog_validated.
Proof.
  split_and!.
  - vm_compute; reflexivity.
  - vm_compute; reflexivity.
  - vm_compute; reflexivity.
  - vm_compute; reflexivity.
  - let o := eval vm_compute in
      (run (queue := engine) all_alpha 100 (Simulation_over all_alpha [backwards_bravo])) in
    lazymatch o with Continue ?s' => exists s' end.
    split; vm_compute; reflexivity.
  - intros Hclaim.
    destruct (Hclaim all_alpha [backwards_bravo]) as [Hnone _]; [vm_compute; reflexivity|].
    vm_compute in Hnone. discriminate.
Qed.

(** C10 as the code has it.  [loadVehicleTypes] installs the fixed table
    whatever the object held before, without looking at it; every entry of
    that table has a positive cruise speed and a positive energy per mile;
    and every vehicle the constructor creates has a type of that table, so
    its type is valid. *)
Theorem catalog_is_fixed :
  (∀ s : Simulation float, vehicleTypes (loadVehicleTypes s) = vehicleTypes_table)
  ∧ forallb valid_entry vehicleTypes_table = true
  ∧ (∀ rng : Rng float,
       Forall (λ v, valid_entry (type v) = true) (vehicles (Simulation_new rng))).
Proof.
  split_and!; [done|vm_compute; reflexivity|].
  intros rng. apply Forall_forall. intros v Hv.
  destruct (typed_Simulation_over rng vehicleTypes_table) as [Hty _].
  specialize (Hty v Hv).
  assert (Hall : forallb valid_entry (vehicleTypes_table (D := float)) = true)
    by (vm_compute; reflexivity).
  rewrite forallb_forall in Hall. apply Hall. by apply list_elem_of_In.
Qed.

(** ** The report *)

(** *** No NaN in binary64

    From the kernel's IEEE specification of [+], [/] and the conversion of
    integers: rounding a mantissa that is not negative gives no NaN and
    keeps the sign. *)

Section Rounding.
Context (prec emax : Z).

Lemma shr_1_nonneg mrs : (0 ≤ shr_m mrs)%Z → (0 ≤ shr_m (shr_1 mrs))%Z.
Proof. destruct mrs as [[|[p|p|]|p] r s]; simpl; lia. Qed.

Lemma iter_shr_1_nonneg n : ∀ mrs, (0 ≤ shr_m mrs)%Z → (0 ≤ shr_m (SpecFloat.iter_pos shr_1 n mrs))%Z.
Proof.
  induction n as [n IH|n IH|]; intros mrs Hm; simpl.
  - by apply IH, IH, shr_1_nonneg.
  - by apply IH, IH.
  - by apply shr_1_nonneg.
Qed.

Lemma shr_fexp_nonneg m e l :
  (0 ≤ m)%Z → (0 ≤ shr_m (shr_fexp prec emax m e l).1)%Z.
Proof.
  intros Hm. unfold shr_fexp, shr.
  assert (0 ≤ shr_m (shr_record_of_loc m l))%Z by (by destruct l as [|[]]).
  destruct (_ - e)%Z; simpl; try done. by apply iter_shr_1_nonneg.
Qed.

Lemma round_nearest_even_nonneg m l : (0 ≤ m)%Z → (0 ≤ round_nearest_even m l)%Z.
Proof. intros Hm. destruct l as [|[]]; simpl; try done; try lia. destruct (Z.even m); lia. Qed.

Lemma binary_round_aux_sign s m e l :
  (0 ≤ m)%Z →
  match binary_round_aux prec emax s m e l with
  | S754_zero s' | S754_infinity s' | S754_finite s' _ _ => s' = s
  | S754_nan => False
  end.
Proof.
  intros Hm. unfold binary_round_aux.
  pose proof (shr_fexp_nonneg m e l Hm) as H1.
  destruct (shr_fexp prec emax m e l) as [mrs' e'] eqn:E1. simpl in H1.
  pose proof (shr_fexp_nonneg _ e' loc_Exact
                (round_nearest_even_nonneg _ (loc_of_shr_record mrs') H1)) as H2.
  destruct (shr_fexp prec emax _ e' loc_Exact) as [mrs'' e''] eqn:E2. simpl in H2.
  destruct (shr_m mrs'') as [|p|p]; [done| |lia].
  by destruct (_ <=? _)%Z.
Qed.
End Rounding.

(** Addition keeps numbers that are not negative not negative. *)
Lemma SFadd_nonneg x y : nonneg x → nonneg y → nonneg (SF64add x y).
Proof.
  destruct x as [sx|sx| |sx mx ex], y as [sy|sy| |sy my ey]; simpl; try done;
    try (intros _ ->; done); try (intros -> _; done); try (by intros -> ->).
  - by destruct sx, sy.
  - intros -> ->. simpl. unfold binary_round.
    destruct (shl_align _ _ (fexp _ _ _)) as [mz ez].
    pose proof (binary_round_aux_sign prec emax false (Zpos mz) ez loc_Exact) as Hs.
    destruct (binary_round_aux _ _ _ _ _ _); simpl; try done; by apply Hs.
Qed.

(** A count in the range of [int] converts to a positive finite number. *)
Lemma digits2_pos_pow (p : positive) : (2 ^ (Zpos (digits2_pos p) - 1) ≤ Zpos p)%Z.
Proof.
  induction p as [p IH|p IH|]; simpl; try done.
  - rewrite Pos2Z.inj_succ.
    replace (Z.succ (Zpos (digits2_pos p)) - 1)%Z with (Z.succ (Zpos (digits2_pos p) - 1))%Z by lia.
    rewrite Z.pow_succ_r by lia. lia.
  - rewrite Pos2Z.inj_succ.
    replace (Z.succ (Zpos (digits2_pos p)) - 1)%Z with (Z.succ (Zpos (digits2_pos p) - 1))%Z by lia.
    rewrite Z.pow_succ_r by lia. lia.
Qed.

Lemma digits2_pos_small (p : positive) :
  (Zpos p < 2 ^ 53)%Z → (Zpos (digits2_pos p) ≤ 53)%Z.
Proof.
  intros Hp. pose proof (digits2_pos_pow p) as Hpow.
  destruct (decide (Zpos (digits2_pos p) ≤ 53)%Z) as [|Hbig]; [done|].
  assert (2 ^ 53 ≤ 2 ^ (Zpos (digits2_pos p) - 1))%Z by (apply Z.pow_le_mono_r; lia).
  lia.
Qed.

Lemma digits2_pos_iter_xO (k p : positive) :
  Zpos (digits2_pos (Pos.iter xO p k)) = (Zpos (digits2_pos p) + Zpos k)%Z.
Proof.
  induction k as [|k IH] using Pos.peano_ind.
  - simpl. lia.
  - rewrite Pos.iter_succ. simpl. rewrite Pos2Z.inj_succ, IH. lia.
Qed.

Lemma binary_round_aux_exact s mz ez :
  fexp prec emax (Zpos (digits2_pos mz) + ez) = ez →
  (ez ≤ emax - prec)%Z →
  binary_round_aux prec emax s (Zpos mz) ez loc_Exact = S754_finite s mz ez.
Proof.
  intros Hfexp Hez. unfold binary_round_aux, shr_fexp. simpl Zdigits2.
  rewrite Hfexp, Z.sub_diag. simpl.
  rewrite Hfexp, Z.sub_diag. simpl.
  destruct (Z.leb_spec ez (emax - prec)); [done|lia].
Qed.

Lemma binary_normalize_small (p : positive) :
  (Zpos p < 2 ^ 53)%Z →
  ∃ m e, binary_normalize prec emax (Zpos p) 0 false = S754_finite false m e.
Proof.
  intros Hp. pose proof (digits2_pos_small p Hp) as Hd.
  assert (Hd1 : (1 ≤ Zpos (digits2_pos p))%Z) by lia.
  unfold binary_normalize, binary_round.
  assert (Hfexp : fexp prec emax (Zpos (digits2_pos p) + 0) = (Zpos (digits2_pos p) - 53)%Z).
  { unfold fexp, emin, prec, emax. lia. }
  rewrite Hfexp. unfold shl_align.
  destruct (Zpos (digits2_pos p) - 53 - 0)%Z as [|k|k] eqn:Hk; [|lia|].
  - eexists _, _. apply binary_round_aux_exact.
    + unfold fexp, emin, prec, emax. lia.
    + unfold prec, emax. lia.
  - eexists _, _. apply binary_round_aux_exact.
    + rewrite digits2_pos_iter_xO. unfold fexp, emin, prec, emax. lia.
    + unfold prec, emax. lia.
Qed.

Lemma of_int_finite (n : Z) :
  (0 < n < 2 ^ 53)%Z → ∃ m e, Prim2SF (of_int n) = S754_finite false m e.
Proof.
  intros Hn. destruct n as [|p|p]; try lia.
  change (of_int (Zpos p)) with (PrimFloat.of_uint63 (Uint63.of_Z (Zpos p))).
  rewrite FloatAxioms.of_uint63_spec, Uint63.of_Z_spec.
  rewrite Z.mod_small.
  - apply binary_normalize_small. lia.
  - change Uint63Axioms.wB with (2 ^ 63)%Z. lia.
Qed.

(** Dividing a number that is not negative by a positive finite number gives
    no NaN. *)
Lemma SFdiv_nonneg x m e :
  nonneg x → nonneg (SF64div x (S754_finite false m e)).
Proof.
  destruct x as [sx|sx| |sx mx ex]; simpl; try done.
  - intros ->. done.
  - intros ->. unfold SF64div, SFdiv. simpl.
    destruct (SFdiv_core_binary _ _ _ _ _ _) as [[mz ez] lz] eqn:Hcore.
    assert (Hmz : (0 ≤ mz)%Z).
    { unfold SFdiv_core_binary in Hcore.
      destruct (Z.div_eucl _ (Zpos m)) as [q r] eqn:Hdiv.
      injection Hcore as <- _ _.
      match type of Hdiv with Z.div_eucl ?a ?b = _ =>
        assert (Hq : q = (a / b)%Z) by (unfold Z.div; by rewrite Hdiv);
        assert (Ha : (0 ≤ a)%Z) end.
      { destruct (_ - _ - _)%Z; try lia. apply Z.shiftl_nonneg. lia. }
      rewrite Hq. apply Z.div_pos; lia. }
    pose proof (binary_round_aux_sign prec emax false mz ez lz Hmz) as Hs.
    destruct (binary_round_aux _ _ _ _ _ _); simpl; try done; by apply Hs.
Qed.

Lemma nonneg_not_nan (x : float) : nonneg (Prim2SF x) → PrimFloat.is_nan x = false.
Proof.
  intros Hx. unfold PrimFloat.is_nan. rewrite FloatAxioms.eqb_spec.
  destruct (Prim2SF x) as [s|s| |s m e]; simpl in *; try done; try by destruct s.
  unfold SFeqb, SFcompare. rewrite Z.compare_refl.
  change (Pos.compare_cont Eq m m) with (Pos.compare m m). rewrite Pos.compare_refl.
  by destruct s.
Qed.

Lemma table_sound (vt : VehicleType float) : vt ∈ vehicleTypes_table → sound_type vt.
Proof.
  intros Hin. unfold vehicleTypes_table in Hin.
  repeat (apply elem_of_cons in Hin as [->|Hin]; [by vm_compute|]).
  by apply elem_of_nil in Hin.
Qed.

Lemma add_nonneg (a b : float) :
  nonneg (Prim2SF a) → nonneg (Prim2SF b) → nonneg (Prim2SF (PrimFloat.add a b)).
Proof. intros Ha Hb. rewrite FloatAxioms.add_spec. by apply SFadd_nonneg. Qed.

Lemma record_flight_nonneg v d sample st :
  sound_type (type v) → d = getFlightDuration v →
  books_nonneg st → books_nonneg (record_flight v d (getDistancePerFlight v) sample st).
Proof.
  intros (H1 & H2 & H3 & H4) -> (B1 & B2 & B3 & B4).
  split_and!; simpl; try done; by apply add_nonneg.
Qed.

Lemma record_charge_nonneg v st :
  sound_type (type v) → books_nonneg st → books_nonneg (record_charge v st).
Proof.
  intros (H1 & H2 & H3 & H4) (B1 & B2 & B3 & B4).
  split_and!; simpl; try done; by apply add_nonneg.
Qed.

(** The totals of the statistics are never a NaN and never negative. *)

Section Books.
Context {queue : EventQueue float} {laws : EventQueueLaws queue} (rng : Rng float).

Lemma Books_run_iteration s s' :
  Timed s → Books s → run_iteration rng s = Continue s' → Books s'.
Proof.
  intros HT [Hbooks Hsound] Hstep. split.
  2: { intros v Hv. apply Hsound. by eapply referenced_run_iteration. }
  revert Hstep. unfold run_iteration.
  destruct (top (eventQueue s)) as [e|] eqn:Htop; [|done].
  destruct (dle (time e) SIM_DURATION); [|done].
  pose proof (top_pop _ _ Htop) as Hperm.
  assert (He : e ∈ eventQueue s) by (rewrite Hperm; apply list_elem_of_here).
  assert (Hv : sound_type (type (vehicle_of e))).
  { apply Hsound. unfold referenced. apply elem_of_app. left.
    by apply list_elem_of_fmap_2. }
  unfold vehicle_of in Hv.
  destruct (action e) as [v a d|v i] eqn:Hact.
  - intros [= <-] c.
    destruct (timed_flight s HT e v a d He Hact) as [Htime Hd].
    pose proof (timed_queue s HT e He) as Hin. rewrite Htime in Hin.
    destruct (processFlightEnd_books rng v a d
                (observe (Fired e) (set_eventQueue pop s)) Hin) as (Hst & _ & _).
    unfold stats_at. rewrite Hst, lookup_insert.
    destruct (decide (company (type v) = c)) as [Heq|Hne]; [|apply Hbooks].
    simpl. apply record_flight_nonneg; [done|done|apply Hbooks].
  - destruct (finishCharging _ _ _) as [s1|] eqn:Hfin; [|done].
    intros [= <-] c.
    destruct (finishCharging_books _ _ _ _ Hfin) as (Hst & _ & _).
    unfold stats_at. rewrite Hst, lookup_insert.
    destruct (decide (company (type v) = c)) as [Heq|Hne]; [|apply Hbooks].
    simpl. apply record_charge_nonneg; [done|apply Hbooks].
Qed.

Lemma Books_Simulation_new : Books (Simulation_new rng).
Proof.
  split.
  - intros c. unfold stats_at.
    rewrite (Simulation_new_over rng), stats_Simulation_over. by vm_compute.
  - intros v Hv. apply table_sound.
    by apply (typed_Simulation_over rng vehicleTypes_table).
Qed.

Lemma Books_reachable s :
  reachable rng (Simulation_new rng) s → Books s.
Proof.
  intros Hreach.
  assert (HT : ∀ s', reachable rng (Simulation_new rng) s' → Timed s').
  { intros s' Hs'.
    exact (Timed_reachable rng _ _ (Timed_Simulation_over rng vehicleTypes_table) Hs'). }
  induction Hreach as [|s s' Hreach IH Hstep]; [apply Books_Simulation_new|].
  eapply Books_run_iteration; [by apply HT|exact IH|exact Hstep].
Qed.

Lemma average_not_nan (total : float) (n : Z) x :
  nonneg (Prim2SF total) → (0 ≤ n ≤ INT_MAX)%Z →
  average total n = Some x → PrimFloat.is_nan x = false.
Proof.
  intros Htotal Hn. unfold average, divide_by_count.
  destruct (Z.eqb_spec n 0) as [->|Hne]; intros [= <-]; [done|].
  apply nonneg_not_nan.
  destruct (of_int_finite n) as (m & e & Hfin); [unfold INT_MAX in Hn; lia|].
  change (ddiv total (of_int n)) with (PrimFloat.div total (of_int n)).
  rewrite FloatAxioms.div_spec.
  change (float_of_Z n) with (of_int (D := float) n). rewrite Hfin. by apply SFdiv_nonneg.
Qed.

Lemma report_not_nan s r x :
  reachable rng (Simulation_new rng) s →
  r ∈ printStats s →
  (∀ st, stats s !! operator r = Some st →
         (totalFlights st ≤ INT_MAX)%Z ∧ (totalCharges st ≤ INT_MAX)%Z) →
  avgFlightTime r = Some x ∨ avgDistance r = Some x ∨ avgChargeTime r = Some x →
  PrimFloat.is_nan x = false.
Proof.
  intros Hreach Hr Hint Havg.
  destruct (report_defined rng s r Hreach Hr) as (st & Hst & HF & HC & _).
  destruct (Hint st Hst) as [HF' HC'].
  destruct (Books_reachable s Hreach) as [Hbooks _].
  pose proof (Hbooks (operator r)) as (B1 & B2 & B3 & B4).
  unfold stats_at in B1, B2, B3, B4. rewrite Hst in B1, B2, B3, B4.
  simpl in B1, B2, B3, B4.
  apply printStats_rows in Hr as (st' & Hst' & Hr).
  rewrite Hst in Hst'. injection Hst' as <-. rewrite Hr in Havg. simpl in Havg.
  destruct Havg as [Havg|[Havg|Havg]]; eapply average_not_nan; try exact Havg; done.
Qed.
End Books.


(** C9.  An average of the report is the total divided by the count when the
    count is positive and [0] when the count is zero.  For every row that
    [printStats] prints in a state the loop of [run] reaches, the counts are
    not negative and each of the three averages is defined that way: none of
    them is computed by a division by zero.  In binary64 no average of any
    such row is a NaN, as long as the counts are in the range of [int]. *)
Theorem averages_well_defined :
  (∀ (D : Type) (H : Double D) (total : D) (n : Z),
     (0 < n)%Z → average total n = Some (ddiv total (of_int n)))
  ∧ (∀ (D : Type) (H : Double D) (total : D), average total 0 = Some (of_int 0))
  ∧ (∀ (D : Type) (H : Double D) (queue : EventQueue D) (rng : Rng D) s r,
       EventQueueLaws queue →
       reachable rng (Simulation_new rng) s →
       r ∈ printStats s →
       ∃ st,
         stats s !! operator r = Some st
         ∧ (0 ≤ totalFlights st)%Z ∧ (0 ≤ totalCharges st)%Z
         ∧ avgFlightTime r
           = Some (if decide (0 < totalFlights st)%Z
                   then ddiv (totalFlightTime st) (of_int (totalFlights st))
                   else of_int 0)
         ∧ avgDistance r
           = Some (if decide (0 < totalFlights st)%Z
                   then ddiv (totalDistance st) (of_int (totalFlights st))
                   else of_int 0)
         ∧ avgChargeTime r
           = Some (if decide (0 < totalCharges st)%Z
                   then ddiv (totalChargeTime st) (of_int (totalCharges st))
                   else of_int 0))
  ∧ (∀ (queue : EventQueue float) (rng : Rng float) s r x,
       EventQueueLaws queue →
       reachable rng (Simulation_new rng) s →
       r ∈ printStats s →
       (∀ st, stats s !! operator r = Some st →
              (totalFlights st ≤ INT_MAX)%Z ∧ (totalCharges st ≤ INT_MAX)%Z) →
       avgFlightTime r = Some x ∨ avgDistance r = Some x ∨ avgChargeTime r = Some x →
       PrimFloat.is_nan x = false).
Proof.
  split_and!.
  - intros D H total n Hn. rewrite average_defined by lia.
    by destruct (decide (0 < n)%Z).
  - intros D H total. reflexivity.
  - intros D H queue rng s r laws Hreach Hr. by eapply report_defined.
  - intros queue rng s r x laws Hreach Hr Hint Havg. by eapply report_not_nan.
Qed.

(** ** The general properties at work on a computed run *)

Lemma horizon_containment_witness :
  PrimFloat.ltb SIM_DURATION
    (PrimFloat.add (literal 2.5)
       (getFlightDuration (vehicle_number charlie_then_bravo 9))) = true
  ∧ scheduleFlight (vehicle_number charlie_then_bravo 9) (literal 2.5)
      (after charlie_then_bravo 28)
    = after charlie_then_bravo 28
  ∧ reachable (queue := engine) charlie_then_bravo (Simulation_new charlie_then_bravo)
      (after charlie_then_bravo 28)
  ∧ Counted (after charlie_then_bravo 28).
Proof.
  assert (Hlate : PrimFloat.ltb SIM_DURATION
            (PrimFloat.add (literal 2.5)
               (getFlightDuration (vehicle_number charlie_then_bravo 9))) = true)
    by (vm_compute; reflexivity).
  assert (Hreach : reachable (queue := engine) charlie_then_bravo
            (Simulation_new charlie_then_bravo) (after charlie_then_bravo 28))
    by (unfold after; apply iterate_reachable).
  destruct (horizon_containment (queue := engine) charlie_then_bravo)
    as (Hschedule & _ & Hrun).
  split; [exact Hlate|]. split; [apply Hschedule; exact Hlate|].
  split; [exact Hreach|].
  destruct (Hrun _ Hreach) as (_ & _ & _ & _ & Hcounted). exact Hcounted.
Defined.

Lemma charger_exclusivity_witness :
  reachable (queue := engine) charlie_then_bravo (Simulation_new charlie_then_bravo)
    (after charlie_then_bravo 28)
  ∧ length (charging (after charlie_then_bravo 28)) ≤ NUM_CHARGERS
  ∧ NoDup (addr <$> charging (after charlie_then_bravo 28)).
Proof.
  assert (Hreach : reachable (queue := engine) charlie_then_bravo
            (Simulation_new charlie_then_bravo) (after charlie_then_bravo 28))
    by (unfold after; apply iterate_reachable).
  split; [exact Hreach|].
  destruct (charger_exclusivity (queue := engine) charlie_then_bravo _ Hreach)
    as (_ & Hcount & Hnodup & _).
  split; [exact Hcount|exact Hnodup].
Defined.

Lemma waiting_line_fifo_witness :
  reachable (queue := engine) charlie_then_bravo (Simulation_new charlie_then_bravo)
    (after charlie_then_bravo 28)
  ∧ joined (history (after charlie_then_bravo 28))
    = dequeued (history (after charlie_then_bravo 28))
      ++ chargingQueue (after charlie_then_bravo 28).
Proof.
  assert (Hreach : reachable (queue := engine) charlie_then_bravo
            (Simulation_new charlie_then_bravo) (after charlie_then_bravo 28))
    by (unfold after; apply iterate_reachable).
  split; [exact Hreach|].
  destruct (waiting_line_fifo (queue := engine) charlie_then_bravo _ Hreach)
    as (Hfifo & _).
  exact Hfifo.
Defined.

(** After 26 iterations charger 0 is idle and vehicle 7, of the third type,
    heads the waiting line; a pass at time 2.5 would drop it. *)
Lemma drop_on_overrun_witness :
  Inv (after charlie_then_bravo 26)
  ∧ activeChargers (after charlie_then_bravo 26) !! 0 = Some None
  ∧ chargingQueue (after charlie_then_bravo 26)
    = vehicle_number charlie_then_bravo 7 :: tail (chargingQueue (after charlie_then_bravo 26))
  ∧ PrimFloat.ltb SIM_DURATION
      (PrimFloat.add (literal 2.5)
         (timeToCharge (type (vehicle_number charlie_then_bravo 7)))) = true
  ∧ activeChargers
      (tryCharging_loop 3 0 (literal 2.5) (after charlie_then_bravo 26)) !! 0
    = Some None.
Proof.
  assert (HI : Inv (after charlie_then_bravo 26)).
  { eapply (Inv_reachable (queue := engine) charlie_then_bravo);
      [apply (Inv_Simulation_over charlie_then_bravo vehicleTypes_table)|].
    unfold after. apply iterate_reachable. }
  assert (Hidle : activeChargers (after charlie_then_bravo 26) !! 0 = Some None)
    by (vm_compute; reflexivity).
  assert (Hline : chargingQueue (after charlie_then_bravo 26)
                  = vehicle_number charlie_then_bravo 7
                    :: tail (chargingQueue (after charlie_then_bravo 26)))
    by (vm_compute; reflexivity).
  assert (Hlate : PrimFloat.ltb SIM_DURATION
            (PrimFloat.add (literal 2.5)
               (timeToCharge (type (vehicle_number charlie_then_bravo 7)))) = true)
    by (vm_compute; reflexivity).
  split; [exact HI|]. split; [exact Hidle|]. split; [exact Hline|].
  split; [exact Hlate|].
  pose proof (drop_on_overrun (queue := engine) charlie_then_bravo 0 2 (literal 2.5)
                _ _ _ HI Hidle Hline) as Hdrop.
  destruct (Hdrop Hlate) as (_ & _ & _ & Hstill & _).
  exact Hstill.
Defined.

(** A fleet of the fault-free type never records a fault. *)
Lemma fault_model_witness :
  totalFaults
    (stats_at BRAVO
       (iterate (queue := engine) all_alpha 40
          (Simulation_over all_alpha [faultless_bravo])))
  = 0%Z.
Proof.
  destruct (fault_model (queue := engine) all_alpha) as (_ & _ & _ & Hzero).
  apply (Hzero [faultless_bravo] BRAVO).
  - intros n. vm_compute. reflexivity.
  - intros vt Hvt%list_elem_of_singleton _. rewrite Hvt. reflexivity.
  - apply iterate_reachable.
Defined.

Lemma averages_well_defined_witness :
  reachable (queue := engine) charlie_then_bravo (Simulation_new charlie_then_bravo)
    (after charlie_then_bravo 28)
  ∧ report_of BRAVO (stats_at BRAVO (after charlie_then_bravo 28))
    ∈ printStats (after charlie_then_bravo 28)
  ∧ (∃ st,
       stats (after charlie_then_bravo 28) !! BRAVO = Some st
       ∧ avgChargeTime (report_of BRAVO (stats_at BRAVO (after charlie_then_bravo 28)))
         = Some (if decide (0 < totalCharges st)%Z
                 then PrimFloat.div (totalChargeTime st) (of_int (totalCharges st))
                 else of_int 0))
  ∧ PrimFloat.is_nan
      (default (of_int 0)
         (avgFlightTime (report_of BRAVO (stats_at BRAVO (after charlie_then_bravo 28)))))
    = false.
Proof.
  assert (Hreach : reachable (queue := engine) charlie_then_bravo
            (Simulation_new charlie_then_bravo) (after charlie_then_bravo 28))
    by (unfold after; apply iterate_reachable).
  assert (Hrow : report_of BRAVO (stats_at BRAVO (after charlie_then_bravo 28))
                 ∈ printStats (after charlie_then_bravo 28)).
  { apply list_elem_of_omap. exists BRAVO. split.
    - apply list_elem_of_further, list_elem_of_here.
    - vm_compute. reflexivity. }
  split; [exact Hreach|]. split; [exact Hrow|].
  destruct averages_well_defined as (_ & _ & Hrows & Hnan).
  split.
  - destruct (Hrows float binary64 engine charlie_then_bravo _ _
                earliest_first_laws Hreach Hrow) as (st & Hst & _ & _ & _ & _ & Havg).
    exists st. split; [exact Hst|exact Havg].
  - apply (Hnan engine charlie_then_bravo _ _ _ earliest_first_laws Hreach Hrow).
    + intros st Hst. vm_compute in Hst. injection Hst as <-.
      split; vm_compute; discriminate.
    + left. vm_compute. reflexivity.
Defined.

(** ** Further properties of the engine, for every event queue and generator *)

Section Coverage.
Context {D : Type} `{Double D}.
Context {queue : EventQueue D} {laws : EventQueueLaws queue} (rng : Rng D).
Local Open Scope double_scope.

Implicit Types (s : Simulation D) (v : Vehicle D) (e : Event D) (q : list (Event D)).

(** *** The fleet is created once *)

Lemma fleet_tryCharging_slot i now s :
  vehicles (tryCharging_slot i now s) = vehicles s
  ∧ vehicleTypes (tryCharging_slot i now s) = vehicleTypes s.
Proof.
  by destruct (tryCharging_slot_case i now s) as [?|v rest Hi Hline Hend|v rest Hi Hline Hend].
Qed.

Lemma fleet_tryCharging now s :
  vehicles (tryCharging now s) = vehicles s
  ∧ vehicleTypes (tryCharging now s) = vehicleTypes s.
Proof.
  unfold tryCharging. generalize 0 NUM_CHARGERS. intros i n. revert i s.
  induction n as [|n IH]; intros i s; simpl; [done|].
  destruct (IH (S i) (tryCharging_slot i now s)) as [-> ->].
  apply fleet_tryCharging_slot.
Qed.

Lemma fleet_scheduleFlight v start s :
  vehicles (scheduleFlight v start s) = vehicles s
  ∧ vehicleTypes (scheduleFlight v start s) = vehicleTypes s.
Proof. unfold scheduleFlight. by destruct (_ >? SIM_DURATION). Qed.

Lemma fleet_run_iteration s s' :
  run_iteration rng s = Continue s' →
  vehicles s' = vehicles s ∧ vehicleTypes s' = vehicleTypes s.
Proof.
  unfold run_iteration.
  destruct (top (eventQueue s)) as [e|]; [|done].
  destruct (time e <=? SIM_DURATION); [|done].
  destruct (action e) as [v a d|v i].
  - intros [= <-]. unfold processFlightEnd.
    destruct (a + d >? SIM_DURATION); [done|].
    match goal with |- context [tryCharging ?t ?s1] =>
      destruct (fleet_tryCharging t s1) as [-> ->] end.
    done.
  - unfold finishCharging. simpl.
    destruct (top (pop (eventQueue s))) as [e'|]; [|done].
    intros [= <-].
    match goal with |- context [tryCharging ?t (scheduleFlight ?w ?t ?s1)] =>
      destruct (fleet_tryCharging t (scheduleFlight w t s1)) as [-> ->];
      destruct (fleet_scheduleFlight w t s1) as [-> ->] end.
    done.
Qed.

Lemma fleet_reachable s0 s :
  reachable rng s0 s → vehicles s = vehicles s0 ∧ vehicleTypes s = vehicleTypes s0.
Proof.
  induction 1 as [|s s' _ [IH1 IH2] Hstep]; [done|].
  destruct (fleet_run_iteration s s' Hstep) as [-> ->]. done.
Qed.

(** What [createVehicles] adds to the object, one iteration after the
    other. *)
Lemma createVehicles_loop_spec table n :
  table ≠ [] →
  ∀ i s,
    vehicleTypes s = table →
    eventQueue s = omap first_flight (vehicles s) →
    (∀ k v, vehicles s !! k = Some v → addr v = k) →
    let s' := createVehicles_loop rng n i s in
    vehicleTypes s' = table
    ∧ eventQueue s' = omap first_flight (vehicles s')
    ∧ (∀ k v, vehicles s' !! k = Some v → addr v = k)
    ∧ length (vehicles s') = (length (vehicles s) + n)%nat
    ∧ (∀ k v, vehicles s !! k = Some v → vehicles s' !! k = Some v)
    ∧ (∀ k, k < n →
         ∃ vt, table !! (pick rng (i + k) `mod` length table)%nat = Some vt
               ∧ type <$> vehicles s' !! (length (vehicles s) + k)%nat = Some vt)
    ∧ chargingQueue s' = chargingQueue s
    ∧ activeChargers s' = activeChargers s
    ∧ stats s' = stats s ∧ draws s' = draws s ∧ history s' = history s.
Proof.
  intros Hne. induction n as [|n IH]; intros i s Htable Hq Haddr; simpl.
  - split_and!; try done; try lia.
  - rewrite Htable.
    assert (Hlt : pick rng i `mod` length table < length table).
    { apply Nat.mod_upper_bound. by destruct table. }
    destruct (lookup_lt_is_Some_2 table _ Hlt) as [vt Hvt]. rewrite Hvt.
    set (v := {| addr := length (vehicles s); type := vt |}).
    set (s1 := scheduleFlight v (of_int 0) (set_vehicles (λ l, l ++ [v]) s)).
    assert (Hv1 : vehicles s1 = vehicles s ++ [v]).
    { subst s1. unfold scheduleFlight. by destruct (_ >? SIM_DURATION). }
    assert (Hq1 : eventQueue s1 = omap first_flight (vehicles s1)).
    { rewrite Hv1, omap_app. subst s1. unfold scheduleFlight, first_flight at 2. simpl.
      destruct (_ >? SIM_DURATION); simpl; [by rewrite app_nil_r|].
      unfold push. by rewrite Hq. }
    assert (Hrest : vehicleTypes s1 = table ∧ chargingQueue s1 = chargingQueue s
                    ∧ activeChargers s1 = activeChargers s ∧ stats s1 = stats s
                    ∧ draws s1 = draws s ∧ history s1 = history s).
    { subst s1. unfold scheduleFlight. by destruct (_ >? SIM_DURATION). }
    destruct Hrest as (Ht1 & Hc1 & Ha1 & Hs1 & Hd1 & Hh1).
    assert (Haddr1 : ∀ k w, vehicles s1 !! k = Some w → addr w = k).
    { intros k w. rewrite Hv1. intros [Hk|[Hk Hw]]%lookup_app_Some; [eauto|].
      apply list_lookup_singleton_Some in Hw as [Hk0 <-]. simpl. lia. }
    destruct (IH (S i) s1 Ht1 Hq1 Haddr1) as (R1 & R2 & R3 & R4 & R5 & R6 & R7 & R8 & R9 & R10 & R11).
    split_and!; try done; try congruence.
    + rewrite R4, Hv1, length_app. simpl. lia.
    + intros k w Hk. apply R5. rewrite Hv1. by apply lookup_app_l_Some.
    + intros [|k] Hk.
      * exists vt. rewrite !Nat.add_0_r. split; [done|].
        rewrite (R5 (length (vehicles s)) v); [done|].
        rewrite Hv1. by rewrite lookup_app_r, Nat.sub_diag.
      * destruct (R6 k) as (vt' & Hvt' & Hty); [lia|].
        exists vt'. rewrite Nat.add_succ_r. split; [done|].
        rewrite Hv1, length_app in Hty. simpl in Hty.
        by rewrite <-Nat.add_assoc in Hty.
Qed.

(** The object the constructor leaves. *)
Lemma Simulation_over_spec table :
  table ≠ [] →
  let s := Simulation_over rng table in
  vehicleTypes s = table
  ∧ eventQueue s = omap first_flight (vehicles s)
  ∧ (∀ k v, vehicles s !! k = Some v → addr v = k)
  ∧ length (vehicles s) = NUM_VEHICLES
  ∧ (∀ k, k < NUM_VEHICLES →
       ∃ vt, table !! (pick rng k `mod` length table)%nat = Some vt
             ∧ type <$> vehicles s !! k = Some vt)
  ∧ chargingQueue s = []
  ∧ activeChargers s = replicate NUM_CHARGERS None
  ∧ stats s = ∅ ∧ draws s = 0 ∧ history s = [].
Proof.
  intros Hne. unfold Simulation_over, createVehicles.
  pose proof (createVehicles_loop_spec table NUM_VEHICLES Hne 0
                (set_vehicleTypes (λ _, table) Simulation_members)
                eq_refl eq_refl) as Hspec.
  cbv zeta in Hspec. revert Hspec.
  generalize (createVehicles_loop rng NUM_VEHICLES 0
                (set_vehicleTypes (λ _, table) Simulation_members)).
  intros s Hspec.
  destruct Hspec as (R1 & R2 & R3 & R4 & R5 & R6 & R7 & R8 & R9 & R10 & R11);
    [by intros k v ?|].
  simpl. rewrite R8. simpl in R4, R6, R7.
  split_and!;
    [exact R1|exact R2|exact R3|exact R4|exact R6|exact R7|reflexivity
    |exact R9|exact R10|exact R11].
Qed.

Lemma referenced_Simulation_over table v :
  table ≠ [] →
  v ∈ referenced (Simulation_over rng table) →
  vehicles (Simulation_over rng table) !! addr v = Some v.
Proof.
  intros Hne.
  pose proof (Simulation_over_spec table Hne) as Hspec. cbv zeta in Hspec.
  revert Hspec. generalize (Simulation_over rng table). intros s Hspec.
  destruct Hspec as (_ & Hq & Haddr & _ & _ & Hline & Hch & _).
  unfold referenced, charging. rewrite Hq, Hline, Hch. simpl. rewrite app_nil_r.
  intros (e & -> & (w & Hw & He)%list_elem_of_omap)%list_elem_of_fmap.
  unfold first_flight in He. destruct (_ >? SIM_DURATION); [done|].
  injection He as <-. unfold vehicle_of; simpl.
  apply list_elem_of_lookup in Hw as [k Hk].
  by rewrite (Haddr k w Hk).
Qed.

(** *** Vehicles on chargers and pending charge completions *)

Lemma vehicles_of_events q :
  vehicle_of <$> q ≡ₚ omap flight_of q ++ (fst <$> omap charge_of q).
Proof.
  induction q as [|[t [v a d|v i]] q IH]; [done| |]; simpl.
  - by rewrite IH.
  - rewrite IH. by rewrite <-Permutation_middle.
Qed.

Lemma on_charge_tryCharging_slot i now s :
  on_charge s ≡ₚ charging s →
  on_charge (tryCharging_slot i now s) ≡ₚ charging (tryCharging_slot i now s).
Proof.
  intros HP.
  destruct (tryCharging_slot_case i now s) as [?|v rest Hi Hline Hend|v rest Hi Hline Hend];
    [done|done|].
  unfold on_charge, charging in *; simpl.
  rewrite charges_push_charge, fmap_app, (occupy_slot _ _ _ Hi). simpl.
  rewrite HP. by rewrite <-Permutation_cons_append.
Qed.

Lemma on_charge_tryCharging now s :
  on_charge s ≡ₚ charging s → on_charge (tryCharging now s) ≡ₚ charging (tryCharging now s).
Proof.
  apply (tryCharging_loop_preserves (λ s, on_charge s ≡ₚ charging s)).
  intros. by apply on_charge_tryCharging_slot.
Qed.

Lemma on_charge_scheduleFlight v start s :
  on_charge (scheduleFlight v start s) = on_charge s
  ∧ charging (scheduleFlight v start s) = charging s.
Proof.
  unfold scheduleFlight. destruct (_ >? SIM_DURATION); [done|].
  unfold on_charge, charging; simpl. by rewrite charges_push_flight.
Qed.

Lemma on_charge_run_iteration s s' :
  Inv s → on_charge s ≡ₚ charging s →
  run_iteration rng s = Continue s' → on_charge s' ≡ₚ charging s'.
Proof.
  intros HI HP. unfold run_iteration.
  destruct (top (eventQueue s)) as [e|] eqn:Htop; [|done].
  destruct (time e <=? SIM_DURATION); [|done].
  destruct (Inv_pop s e HI Htop) as (HI' & _ & Hcharge).
  pose proof (top_pop _ _ Htop) as Hperm.
  assert (Hsplit : on_charge s
                   ≡ₚ option_list (fst <$> charge_of e) ++ (fst <$> omap charge_of (pop (eventQueue s)))).
  { unfold on_charge. rewrite (omap_Permutation charge_of _ _ Hperm). simpl.
    by destruct (charge_of e). }
  destruct (action e) as [v a d|v i] eqn:Hact.
  - assert (Hco : charge_of e = None) by (unfold charge_of; by rewrite Hact).
    rewrite Hco in Hsplit. simpl in Hsplit.
    intros [= <-]. unfold processFlightEnd.
    destruct (a + d >? SIM_DURATION).
    + unfold on_charge, charging; simpl. by rewrite <-HP, Hsplit.
    + apply on_charge_tryCharging.
      unfold on_charge, charging; simpl. by rewrite <-HP, Hsplit.
  - assert (Hco : charge_of e = Some (v, i)) by (unfold charge_of; by rewrite Hact).
    rewrite Hco in Hsplit. simpl in Hsplit.
    unfold finishCharging. simpl.
    destruct (top (pop (eventQueue s))) as [e'|]; [|done].
    intros [= <-].
    apply on_charge_tryCharging.
    match goal with |- context [scheduleFlight ?w ?t ?s1] =>
      destruct (on_charge_scheduleFlight w t s1) as [-> ->] end.
    unfold on_charge, charging; simpl.
    destruct (Hcharge v i eq_refl) as [Hi _]. simpl in Hi.
    apply (Permutation_cons_inv (a := v)).
    rewrite <-(free_slot _ _ _ Hi). unfold charging in HP. by rewrite <-HP, Hsplit.
Qed.

Lemma on_charge_Simulation_over table :
  on_charge (Simulation_over rng table) ≡ₚ charging (Simulation_over rng table).
Proof.
  unfold Simulation_over, createVehicles.
  destruct (grounded_createVehicles_loop rng NUM_VEHICLES 0
              (set_vehicleTypes (λ _, table) Simulation_members))
    as (_ & _ & Hch & _ & Hc).
  { unfold grounded, flying; simpl. split_and!; try done.
    - apply NoDup_nil_2.
    - by intros v ?%elem_of_nil. }
  revert Hch Hc.
  generalize (createVehicles_loop rng NUM_VEHICLES 0
                (set_vehicleTypes (λ _, table) Simulation_members)).
  intros s Hch Hc. unfold on_charge, charging; simpl. by rewrite Hch, Hc.
Qed.

Lemma on_charge_reachable s0 s :
  Inv s0 → on_charge s0 ≡ₚ charging s0 → reachable rng s0 s → on_charge s ≡ₚ charging s.
Proof.
  intros HI HP. induction 1 as [|s s' Hr IH Hstep]; [done|].
  eapply on_charge_run_iteration; [|exact IH|exact Hstep].
  by eapply Inv_reachable.
Qed.

Lemma slot_unique (l : list (option (Vehicle D))) :
  NoDup (addr <$> omap id l) →
  ∀ i j v w, l !! i = Some (Some v) → l !! j = Some (Some w) → addr v = addr w → i = j.
Proof.
  induction l as [|[u|] l IH]; intros Hnd i j v w Hi Hj Heq; [done| |].
  - simpl in Hnd. apply NoDup_cons in Hnd as [Hfresh Hnd].
    assert (Hin : ∀ k x, l !! k = Some (Some x) → addr x ∈ addr <$> omap id l).
    { intros k x Hk. apply list_elem_of_fmap_2, list_elem_of_omap.
      exists (Some x). split; [by eapply list_elem_of_lookup_2|done]. }
    destruct i as [|i], j as [|j]; simplify_eq/=; try done.
    + destruct Hfresh. rewrite Heq. by eapply Hin.
    + destruct Hfresh. rewrite <-Heq. by eapply Hin.
    + f_equal. by eapply IH.
  - simpl in Hnd. destruct i as [|i], j as [|j]; simplify_eq/=.
    f_equal. by eapply IH.
Qed.

Lemma table_not_empty : vehicleTypes_table (D := D) ≠ [].
Proof. done. Qed.

Lemma referenced_fleet s v :
  reachable rng (Simulation_new rng) s →
  v ∈ referenced s → vehicles s !! addr v = Some v.
Proof.
  intros Hreach Hv.
  destruct (fleet_reachable _ _ Hreach) as [-> _].
  apply (referenced_Simulation_over _ _ table_not_empty).
  by apply (referenced_reachable rng _ _ Hreach).
Qed.

Lemma NoDup_bounded (l : list nat) n :
  NoDup l → (∀ a, a ∈ l → a < n) → length l ≤ n.
Proof.
  intros Hnd Hlt.
  assert (Hle : length l ≤ length (seq 0 n)); [|by rewrite length_seq in Hle].
  apply submseteq_length, NoDup_submseteq; [done|].
  intros a Ha. apply elem_of_seq. specialize (Hlt a Ha). lia.
Qed.

(** X3.  In every state the loop of [run] reaches, no vehicle has two
    pending events or two places in the waiting line, and none has a pending
    event while it waits; every vehicle an event, the line or a charger
    refers to is the vehicle of the fleet at its address; and the pending
    events and the waiting vehicles are together at most [NUM_VEHICLES]. *)
Theorem one_place_per_vehicle s :
  reachable rng (Simulation_new rng) s →
  NoDup (addr <$> (vehicle_of <$> eventQueue s) ++ chargingQueue s)
  ∧ (∀ v, v ∈ referenced s → vehicles s !! addr v = Some v)
  ∧ (length (eventQueue s) + length (chargingQueue s) ≤ NUM_VEHICLES)%nat.
Proof.
  intros Hreach.
  pose proof (Inv_reachable rng _ _ (Inv_Simulation_over rng vehicleTypes_table) Hreach)
    as HI.
  pose proof (on_charge_reachable _ _ (Inv_Simulation_over rng vehicleTypes_table)
                (on_charge_Simulation_over vehicleTypes_table) Hreach) as HP.
  assert (Hperm : (vehicle_of <$> eventQueue s) ++ chargingQueue s ≡ₚ places s).
  { rewrite vehicles_of_events. fold (flying s). fold (on_charge s). rewrite HP.
    unfold places. rewrite <-!app_assoc.
    apply Permutation_app_head, Permutation_app_comm. }
  assert (Hnd : NoDup (addr <$> (vehicle_of <$> eventQueue s) ++ chargingQueue s)).
  { rewrite Hperm. by destruct HI. }
  split_and!; [done|intros v Hv; by apply referenced_fleet|].
  rewrite <-(length_fmap vehicle_of), <-length_app, <-(length_fmap addr).
  apply NoDup_bounded; [done|].
  intros a (v & -> & Hv)%list_elem_of_fmap.
  assert (Href : v ∈ referenced s).
  { unfold referenced. apply elem_of_app in Hv as [Hv|Hv]; apply elem_of_app; [by left|].
    right. apply elem_of_app. by left. }
  pose proof (referenced_fleet s v Hreach Href) as Hlook.
  apply lookup_lt_Some in Hlook.
  destruct (fleet_reachable _ _ Hreach) as [Hfleet _]. rewrite Hfleet in Hlook.
  destruct (Simulation_over_spec vehicleTypes_table table_not_empty) as (_ & _ & _ & Hlen & _).
  rewrite Simulation_new_over in Hlook. by rewrite Hlen in Hlook.
Qed.

(** X5.  In every state the loop of [run] reaches, the vehicles on chargers
    are the vehicles with a pending charge completion: a slot holds a
    vehicle exactly when the completion of that vehicle on that slot is
    pending, so no charger stays occupied without an event that will free
    it. *)
Theorem occupied_charger_has_completion s :
  reachable rng (Simulation_new rng) s →
  on_charge s ≡ₚ charging s
  ∧ (∀ i v, activeChargers s !! i = Some (Some v)
            ↔ ∃ e, e ∈ eventQueue s ∧ action e = ChargeEnd v i)
  ∧ length (busy_slots s) = length (charging s).
Proof.
  intros Hreach.
  pose proof (Inv_reachable rng _ _ (Inv_Simulation_over rng vehicleTypes_table) Hreach)
    as HI.
  pose proof (on_charge_reachable _ _ (Inv_Simulation_over rng vehicleTypes_table)
                (on_charge_Simulation_over vehicleTypes_table) Hreach) as HP.
  split_and!; [done| |].
  - intros i v. split; [|intros (e & He & Hact); by eapply (inv_slot s HI)].
    intros Hi.
    assert (Hv : v ∈ on_charge s).
    { rewrite HP. apply list_elem_of_omap. exists (Some v).
      split; [by eapply list_elem_of_lookup_2|done]. }
    apply list_elem_of_fmap in Hv as ([w j] & -> & Hin).
    apply list_elem_of_omap in Hin as (e & He & Hc).
    assert (Hact : action e = ChargeEnd w j).
    { unfold charge_of in Hc. destruct (action e); by simplify_eq/=. }
    exists e. split; [done|]. simpl in *.
    pose proof (inv_slot s HI e w j He Hact) as Hj.
    destruct HI as [Huniq _ _ _]. unfold places in Huniq.
    rewrite !fmap_app in Huniq.
    apply NoDup_app in Huniq as (_ & _ & Huniq).
    apply NoDup_app in Huniq as (_ & _ & Huniq).
    by rewrite (slot_unique _ Huniq i j w w Hi Hj eq_refl).
  - unfold busy_slots. rewrite length_fmap, <-(length_fmap fst). fold (on_charge s).
    by rewrite HP.
Qed.

(** *** When the loop of [run] stops and when it goes wrong *)

Lemma top_nil : top (EventQueue := queue) [] = None.
Proof.
  destruct (top []) as [e|] eqn:Htop; [|done].
  apply top_pop in Htop. by apply Permutation_nil_cons in Htop.
Qed.

Lemma top_singleton e : top [e] = Some e ∧ pop [e] = [].
Proof.
  destruct (top [e]) as [e'|] eqn:Htop; [|by apply top_None in Htop].
  apply top_pop in Htop.
  pose proof (Permutation_length Htop) as Hlen. simpl in Hlen.
  destruct (pop [e]) as [|e'' l]; [|simpl in Hlen; lia].
  apply Permutation_singleton_r in Htop. by simplify_eq.
Qed.

Lemma top_only q e : top q = Some e → pop q = [] → q = [e].
Proof.
  intros Htop Hpop. apply top_pop in Htop. rewrite Hpop in Htop.
  by apply Permutation_singleton_r in Htop.
Qed.

(** X6.  [finishCharging] reads [eventQueue.top()] on an empty queue exactly
    when it is called with no event pending; and an iteration of the loop of
    [run] does so exactly when a single event is pending, that event is a
    charge completion, and its time is within the horizon. *)
Theorem undefined_exactly_on_last_charge :
  (∀ v i s, finishCharging v i s = None ↔ eventQueue s = [])
  ∧ (∀ s, run_iteration rng s = Undefined
          ↔ ∃ e v i, eventQueue s = [e] ∧ action e = ChargeEnd v i
                     ∧ (time e <=? SIM_DURATION) = true).
Proof.
  split.
  - intros v i s. unfold finishCharging. split.
    + destruct (top (eventQueue s)) as [e|] eqn:Htop; [done|].
      intros _. by apply top_None.
    + intros ->. by rewrite top_nil.
  - intros s. unfold run_iteration. split.
    + destruct (top (eventQueue s)) as [e|] eqn:Htop; [|done].
      destruct (time e <=? SIM_DURATION) eqn:Hle; [|done].
      destruct (action e) as [v a d|v i] eqn:Hact; [done|].
      unfold finishCharging. simpl.
      destruct (top (pop (eventQueue s))) as [e'|] eqn:Htop'; [done|].
      intros _. exists e, v, i. split_and!; [|done|done].
      apply top_only; [done|]. by apply top_None.
    + intros (e & v & i & Hq & Hact & Hle).
      destruct (top_singleton e) as [Htop Hpop].
      rewrite Hq, Htop, Hle, Hact. unfold finishCharging. simpl.
      by rewrite Hq, Hpop, top_nil.
Qed.

(** *** Nothing is lost between flights, the line and the chargers *)

Lemma of_operator_cons c v (l : list (Vehicle D)) :
  of_operator c (v :: l)
  = ((if bool_decide (company (type v) = c) then 1 else 0) + of_operator c l)%nat.
Proof.
  unfold of_operator. rewrite filter_cons.
  destruct (decide (company (type v) = c)) as [Heq|Hne].
  - by rewrite (bool_decide_eq_true_2 _ Heq).
  - by rewrite (bool_decide_eq_false_2 _ Hne).
Qed.

Lemma of_operator_app c (l1 l2 : list (Vehicle D)) :
  of_operator c (l1 ++ l2) = (of_operator c l1 + of_operator c l2)%nat.
Proof. unfold of_operator. by rewrite filter_app, length_app. Qed.

Lemma of_operator_perm c (l1 l2 : list (Vehicle D)) :
  l1 ≡ₚ l2 → of_operator c l1 = of_operator c l2.
Proof. intros Hperm. unfold of_operator. by rewrite Hperm. Qed.

Lemma ledger_tryCharging_slot c i now s :
  ledger c (tryCharging_slot i now s) = ledger c s.
Proof.
  destruct (tryCharging_slot_case i now s) as [?|v rest Hi Hline Hend|v rest Hi Hline Hend];
    [done| |].
  - unfold ledger, charging; simpl. rewrite !count_snoc, Hline, of_operator_cons. simpl.
    rewrite !pair_equal_spec. destruct (bool_decide _); split_and!; lia.
  - unfold ledger, charging; simpl.
    rewrite !count_snoc, Hline, of_operator_cons, (of_operator_perm c _ _ (occupy_slot _ _ _ Hi)).
    rewrite of_operator_cons. simpl.
    rewrite !pair_equal_spec. destruct (bool_decide _); split_and!; lia.
Qed.

Lemma ledger_tryCharging c now s : ledger c (tryCharging now s) = ledger c s.
Proof.
  unfold tryCharging. generalize 0 NUM_CHARGERS. intros i n. revert i s.
  induction n as [|n IH]; intros i s; simpl; [done|].
  by rewrite IH, ledger_tryCharging_slot.
Qed.

Lemma ledger_scheduleFlight c v start s : ledger c (scheduleFlight v start s) = ledger c s.
Proof. unfold scheduleFlight. by destruct (_ >? SIM_DURATION). Qed.

Lemma Conserved_ledger s :
  Conserved s
  ↔ ∀ c, match ledger c s with
         | (J, F, C, T, K) => J = F ∧ J = T ∧ K = C
         end.
Proof.
  unfold Conserved, ledger. split; intros Hc c; specialize (Hc c); simpl in *; lia.
Qed.

Lemma Conserved_run_iteration s s' :
  Inv s → Timed s → Conserved s → run_iteration rng s = Continue s' → Conserved s'.
Proof.
  intros HI HT HC. unfold run_iteration.
  destruct (top (eventQueue s)) as [e|] eqn:Htop; [|done].
  destruct (time e <=? SIM_DURATION) eqn:Hle; [|done].
  pose proof (top_pop _ _ Htop) as Hperm.
  assert (He : e ∈ eventQueue s) by (rewrite Hperm; apply list_elem_of_here).
  destruct (Inv_pop s e HI Htop) as (_ & _ & Hcharge).
  destruct (action e) as [v a d|v i] eqn:Hact.
  - intros [= <-].
    destruct (timed_flight s HT e v a d He Hact) as [Htime _].
    pose proof (timed_queue s HT e He) as Hin. rewrite Htime in Hin.
    unfold processFlightEnd. rewrite Hin.
    apply Conserved_ledger. intros c. rewrite ledger_tryCharging.
    specialize (HC c). unfold charging in HC. unfold ledger, charging; simpl.
    rewrite !count_snoc, of_operator_app. simpl. rewrite Hact.
    unfold of_operator at 2. rewrite filter_cons. simpl.
    destruct (decide (company (type v) = c)) as [Heq|Hne].
    + rewrite (bool_decide_eq_true_2 _ Heq). simpl. lia.
    + rewrite (bool_decide_eq_false_2 _ Hne). simpl. lia.
  - unfold finishCharging. simpl.
    destruct (top (pop (eventQueue s))) as [e'|]; [|done].
    intros [= <-].
    apply Conserved_ledger. intros c.
    rewrite ledger_tryCharging, ledger_scheduleFlight.
    specialize (HC c). unfold charging in HC. unfold ledger, charging; simpl.
    destruct (Hcharge v i eq_refl) as [Hi _]. simpl in Hi.
    rewrite !count_snoc. simpl. rewrite Hact.
    rewrite (of_operator_perm c _ _ (free_slot _ _ _ Hi)), of_operator_cons in HC.
    destruct (bool_decide (company (type v) = c)); simpl; lia.
Qed.


Lemma start_Simulation_over table :
  history (Simulation_over rng table) = []
  ∧ chargingQueue (Simulation_over rng table) = []
  ∧ charging (Simulation_over rng table) = []
  ∧ stats (Simulation_over rng table) = ∅.
Proof.
  unfold Simulation_over, createVehicles.
  destruct (same_books_createVehicles_loop rng NUM_VEHICLES 0
              (set_vehicleTypes (λ _, table) Simulation_members)) as [(Hst & _ & _) Hh].
  destruct (grounded_createVehicles_loop rng NUM_VEHICLES 0
              (set_vehicleTypes (λ _, table) Simulation_members))
    as (_ & _ & _ & Hq & Hc).
  { unfold grounded, flying; simpl. split_and!; try done.
    - apply NoDup_nil_2.
    - by intros v ?%elem_of_nil. }
  revert Hst Hh Hq Hc.
  generalize (createVehicles_loop rng NUM_VEHICLES 0
                (set_vehicleTypes (λ _, table) Simulation_members)).
  intros s Hst Hh Hq Hc. unfold charging. simpl.
  rewrite Hst, Hh, Hq, Hc. by split_and!.
Qed.

Lemma Conserved_Simulation_over table : Conserved (Simulation_over rng table).
Proof.
  destruct (start_Simulation_over table) as (Hh & Hq & Hc & _).
  revert Hh Hq Hc. generalize (Simulation_over rng table).
  intros s Hh Hq Hc c. rewrite Hh, Hq, Hc. by split_and!.
Qed.

Lemma Conserved_reachable s :
  reachable rng (Simulation_new rng) s → Conserved s.
Proof.
  induction 1 as [|s s' Hreach IH Hstep].
  - rewrite Simulation_new_over. apply Conserved_Simulation_over.
  - eapply Conserved_run_iteration; [| |exact IH|exact Hstep].
    + exact (Inv_reachable rng _ _ (Inv_Simulation_over rng vehicleTypes_table) Hreach).
    + exact (Timed_reachable rng _ _ (Timed_Simulation_over rng vehicleTypes_table) Hreach).
Qed.

(** What one iteration of the loop of [run] does to the statistics and to
    the counts of fired events. *)
Lemma run_iteration_books s s' :
  Timed s → run_iteration rng s = Continue s' →
  ∃ e,
    e ∈ eventQueue s
    ∧ (∀ f, counts_fired f →
         count f (history s') = (count f (history s) + if f (Fired e) then 1 else 0)%nat)
    ∧ match action e with
      | FlightEnd v a d =>
          d = getFlightDuration v
          ∧ stats s'
            = <[company (type v) :=
                  record_flight v d (getDistancePerFlight v) (dist01 rng (draws s))
                    (stats_at (company (type v)) s)]> (stats s)
      | ChargeEnd v i =>
          stats s'
          = <[company (type v) := record_charge v (stats_at (company (type v)) s)]> (stats s)
      end.
Proof.
  intros HT. unfold run_iteration.
  destruct (top (eventQueue s)) as [e|] eqn:Htop; [|done].
  destruct (time e <=? SIM_DURATION) eqn:Hle; [|done].
  pose proof (top_pop _ _ Htop) as Hperm.
  assert (He : e ∈ eventQueue s) by (rewrite Hperm; apply list_elem_of_here).
  intros Hstep. exists e. split; [done|].
  destruct (action e) as [v a d|v i] eqn:Hact.
  - injection Hstep as <-.
    destruct (timed_flight s HT e v a d He Hact) as [Htime Hd].
    pose proof (timed_queue s HT e He) as Hin. rewrite Htime in Hin.
    destruct (processFlightEnd_books rng v a d
                (observe (Fired e) (set_eventQueue pop s)) Hin) as (Hst & _ & Hh).
    split; [|by split].
    intros f Hf. rewrite (Hh f Hf). simpl. by rewrite count_snoc.
  - destruct (finishCharging _ _ _) as [s1|] eqn:Hfin; [|done].
    injection Hstep as <-.
    destruct (finishCharging_books _ _ _ _ Hfin) as (Hst & _ & Hh).
    split; [|done].
    intros f Hf. rewrite (Hh f Hf). simpl. by rewrite count_snoc.
Qed.

Lemma faults_le_flights_step s s' :
  Timed s →
  (∀ c, (0 ≤ totalFaults (stats_at c s) ≤ totalFlights (stats_at c s))%Z) →
  run_iteration rng s = Continue s' →
  ∀ c, (0 ≤ totalFaults (stats_at c s') ≤ totalFlights (stats_at c s'))%Z.
Proof.
  intros HT Hs Hstep c.
  destruct (run_iteration_books s s' HT Hstep) as (e & _ & _ & Hst).
  specialize (Hs c).
  destruct (action e) as [v a d|v i]; [destruct Hst as [_ Hst]|];
    unfold stats_at in *; rewrite Hst, lookup_insert;
    (destruct (decide (company (type v) = c)) as [<-|Hne]; [|done]); simpl.
  - destruct (_ <? _); lia.
  - done.
Qed.

Lemma faults_le_flights_reachable s c :
  reachable rng (Simulation_new rng) s →
  (0 ≤ totalFaults (stats_at c s) ≤ totalFlights (stats_at c s))%Z.
Proof.
  intros Hreach. revert c.
  induction Hreach as [|s s' Hreach IH Hstep].
  - intros c. unfold stats_at. rewrite Simulation_new_over.
    destruct (start_Simulation_over vehicleTypes_table) as (_ & _ & _ & ->).
    by rewrite lookup_empty.
  - eapply faults_le_flights_step; [|exact IH|exact Hstep].
    exact (Timed_reachable rng _ _ (Timed_Simulation_over rng vehicleTypes_table) Hreach).
Qed.

(** X9.  In every state the loop of [run] reaches and for every operator:
    the flights recorded are the charges recorded plus the vehicles of the
    operator on chargers, in the waiting line, and dropped from it; so there
    are never more charges than flights; and the faults recorded are between
    zero and the flights recorded. *)
Theorem flights_charges_balance s c :
  reachable rng (Simulation_new rng) s →
  totalFlights (stats_at c s)
  = (totalCharges (stats_at c s)
     + Z.of_nat (of_operator c (charging s))
     + Z.of_nat (of_operator c (chargingQueue s))
     + Z.of_nat (count (dropped_by c) (history s)))%Z
  ∧ (0 ≤ totalCharges (stats_at c s) ≤ totalFlights (stats_at c s))%Z
  ∧ (0 ≤ totalFaults (stats_at c s) ≤ totalFlights (stats_at c s))%Z.
Proof.
  intros Hreach.
  pose proof (Timed_reachable rng _ _ (Timed_Simulation_over rng vehicleTypes_table) Hreach)
    as HT.
  pose proof (Counted_reachable rng _ _ (Timed_Simulation_over rng vehicleTypes_table)
                (Counted_Simulation_over rng vehicleTypes_table) Hreach) as [HC _].
  destruct (HC c) as [HF HCh].
  destruct (Conserved_reachable s Hreach c) as (H1 & H2 & H3).
  pose proof (faults_le_flights_reachable s c Hreach).
  split_and!; lia.
Qed.

(** *** Which operators the report has a row for *)

Lemma keys_run_iteration s s' :
  Timed s →
  (∀ c, is_Some (stats s !! c) →
        (0 < count (fired_flight c) (history s) + count (fired_charge c) (history s))%nat) →
  run_iteration rng s = Continue s' →
  ∀ c, is_Some (stats s' !! c) →
       (0 < count (fired_flight c) (history s') + count (fired_charge c) (history s'))%nat.
Proof.
  intros HT Hs Hstep c.
  destruct (run_iteration_books s s' HT Hstep) as (e & _ & Hh & Hst).
  rewrite (Hh _ (counts_fired_flight c)), (Hh _ (counts_fired_charge c)). simpl.
  specialize (Hs c).
  destruct (action e) as [v a d|v i]; [destruct Hst as [_ Hst]|];
    rewrite Hst, lookup_insert;
    (destruct (decide (company (type v) = c)) as [Heq|Hne];
     [rewrite (bool_decide_eq_true_2 _ Heq); lia|]);
    intros Hc; specialize (Hs Hc); lia.
Qed.

Lemma keys_reachable s c :
  reachable rng (Simulation_new rng) s →
  is_Some (stats s !! c) ↔ (0 < count (fired_flight c) (history s))%nat.
Proof.
  intros Hreach.
  pose proof (Counted_reachable rng _ _ (Timed_Simulation_over rng vehicleTypes_table)
                (Counted_Simulation_over rng vehicleTypes_table) Hreach) as [HC _].
  destruct (HC c) as [HF _].
  destruct (Conserved_reachable s Hreach c) as (H1 & H2 & H3).
  split.
  - assert (Hkeys : ∀ c, is_Some (stats s !! c) →
              (0 < count (fired_flight c) (history s)
                   + count (fired_charge c) (history s))%nat).
    { clear c HF H1 H2 H3 HC.
      induction Hreach as [|s s' Hreach IH Hstep].
      - intros c. rewrite Simulation_new_over.
        destruct (start_Simulation_over vehicleTypes_table) as (_ & _ & _ & ->).
        rewrite lookup_empty. by intros [? ?].
      - eapply keys_run_iteration; [|exact IH|exact Hstep].
        exact (Timed_reachable rng _ _ (Timed_Simulation_over rng vehicleTypes_table)
                 Hreach). }
    intros Hc. specialize (Hkeys c Hc). lia.
  - intros Hpos. unfold stats_at in HF.
    destruct (stats s !! c) as [st|]; [by eexists|].
    simpl in HF. lia.
Qed.

Lemma printStats_operators s :
  operator <$> printStats s = filter (λ c, is_Some (stats s !! c)) companies.
Proof.
  unfold printStats. induction companies as [|c l IH]; [done|].
  rewrite filter_cons. simpl.
  destruct (stats s !! c) as [st|] eqn:Hc; simpl.
  - f_equal. exact IH.
  - exact IH.
Qed.

(** X8.  In every state the loop of [run] reaches, [printStats] has a row
    for an operator exactly when a flight completion of that operator was
    fired, the rows are in the order of the enumeration, and every row has
    at least one flight, so that the two averages per flight are quotients
    and never the default. *)
Theorem report_rows_have_flights s :
  reachable rng (Simulation_new rng) s →
  operator <$> printStats s
  = filter (λ c, (0 < count (fired_flight c) (history s))%nat) companies
  ∧ (∀ r, r ∈ printStats s →
       ∃ st, stats s !! operator r = Some st
             ∧ (1 ≤ totalFlights st)%Z
             ∧ avgFlightTime r = Some (totalFlightTime st / of_int (totalFlights st))
             ∧ avgDistance r = Some (totalDistance st / of_int (totalFlights st))).
Proof.
  intros Hreach. split.
  - rewrite printStats_operators. apply list_filter_iff.
    intros c. by apply keys_reachable.
  - intros r Hr.
    apply printStats_rows in Hr as (st & Hst & ->). simpl in *.
    exists st. split; [done|].
    assert (Hpos : (1 ≤ totalFlights st)%Z).
    { pose proof (Counted_reachable rng _ _ (Timed_Simulation_over rng vehicleTypes_table)
                    (Counted_Simulation_over rng vehicleTypes_table) Hreach) as [HC _].
      destruct (HC (operator r)) as [HF _].
      assert (Hsome : is_Some (stats s !! operator r)) by by eexists.
      apply (keys_reachable s _ Hreach) in Hsome.
      unfold stats_at in HF. rewrite Hst in HF. simpl in HF. lia. }
    split; [done|].
    rewrite !average_defined by lia.
    by rewrite !decide_True by lia.
Qed.

(** *** The vehicle distribution at the end of the report *)

Lemma vehicleCount_snoc (l : list (Vehicle D)) v :
  vehicleCount (l ++ [v])
  = <[company (type v) := (default 0 (vehicleCount l !! company (type v)) + 1)%Z]>
      (vehicleCount l).
Proof. unfold vehicleCount. by rewrite foldl_app. Qed.

Lemma vehicleCount_lookup (l : list (Vehicle D)) c :
  vehicleCount l !! c
  = if decide (of_operator c l = 0%nat) then None else Some (Z.of_nat (of_operator c l)).
Proof.
  induction l as [|v l IH] using rev_ind; [done|].
  rewrite vehicleCount_snoc, of_operator_app, of_operator_cons, lookup_insert.
  change (of_operator c []) with 0%nat.
  destruct (decide (company (type v) = c)) as [Heq|Hne].
  - rewrite (bool_decide_eq_true_2 _ Heq). subst c. rewrite IH.
    repeat case_decide; simpl; try lia; f_equal; lia.
  - rewrite (bool_decide_eq_false_2 _ Hne), IH. simpl. by rewrite !Nat.add_0_r.
Qed.

Lemma of_operator_total (l : list (Vehicle D)) :
  (of_operator ALPHA l + of_operator BRAVO l + of_operator CHARLIE l
   + of_operator DELTA l + of_operator ECHO l)%nat = length l.
Proof.
  induction l as [|v l IH]; [done|].
  rewrite !of_operator_cons. simpl length. rewrite <-IH.
  destruct (company (type v)); simpl; lia.
Qed.

Lemma vehicleDistribution_sum (l : list (Vehicle D)) (cs : list Company) :
  foldr Z.add 0%Z (snd <$> omap (λ c, pair c <$> vehicleCount l !! c) cs)
  = foldr Z.add 0%Z ((λ c, Z.of_nat (of_operator c l)) <$> cs).
Proof.
  induction cs as [|c cs IH]; [done|].
  simpl in *. rewrite vehicleCount_lookup.
  destruct (decide (of_operator c l = 0%nat)) as [->|Hpos]; simpl.
  - exact IH.
  - f_equal. exact IH.
Qed.

Lemma vehicleDistribution_rows s c n :
  (c, n) ∈ vehicleDistribution s
  ↔ n = Z.of_nat (of_operator c (vehicles s)) ∧ (0 < n)%Z.
Proof.
  unfold vehicleDistribution. rewrite list_elem_of_omap. split.
  - intros (c' & _ & Hrow). rewrite vehicleCount_lookup in Hrow.
    destruct (decide _) as [|Hpos]; simplify_eq/=. split; [done|lia].
  - intros [-> Hpos]. exists c. split; [destruct c; unfold companies; set_solver|].
    rewrite vehicleCount_lookup. rewrite decide_False by lia. done.
Qed.

Lemma companyName_defined c : is_Some (companyName c).
Proof. by destruct c; eexists. Qed.

Lemma named_rows (rows : list (Company * Z)) (lines : list (string * Z)) :
  Forall2 (λ row line, (λ name, (name, row.2)) <$> companyName row.1 = Some line)
    rows lines →
  snd <$> lines = snd <$> rows
  ∧ Forall2 (λ row line, companyName row.1 = Some line.1) rows lines.
Proof.
  induction 1 as [|[c n] [name n'] rows lines Hrow _ [IH1 IH2]]; [by split|].
  simpl in Hrow. destruct (companyName c) as [nm|] eqn:Hn; [|done].
  injection Hrow as <- <-.
  split; [rewrite !fmap_cons; f_equal; exact IH1|].
  constructor; [exact Hn|exact IH2].
Qed.

Lemma count_pos (f : Obs D → bool) (h : list (Obs D)) :
  (0 < count f h)%nat → ∃ o, o ∈ h ∧ f o = true.
Proof.
  unfold count. intros Hpos.
  destruct (List.filter f h) as [|o l] eqn:Hf; [simpl in Hpos; lia|].
  assert (Hin : In o (List.filter f h)) by (rewrite Hf; by left).
  apply filter_In in Hin as [Hin Hfo]. exists o. split; [by apply list_elem_of_In|done].
Qed.

(** X2.  The fleet is the one the constructor created, in every state the
    loop of [run] reaches.  The summary at the end of [printStats] lists an
    operator exactly when the fleet has a vehicle of it, with the number of
    its vehicles; the numbers add up to [NUM_VEHICLES]; every name is found
    in [companyNames]; and every operator with a row of statistics is
    listed. *)
Theorem vehicle_distribution s :
  reachable rng (Simulation_new rng) s →
  vehicles s = vehicles (Simulation_new rng)
  ∧ (∀ c n, (c, n) ∈ vehicleDistribution s
            ↔ n = Z.of_nat (of_operator c (vehicles s)) ∧ (0 < n)%Z)
  ∧ foldr Z.add 0%Z (snd <$> vehicleDistribution s) = Z.of_nat NUM_VEHICLES
  ∧ (∃ lines, printVehicleDistribution s = Some lines
              ∧ snd <$> lines = snd <$> vehicleDistribution s
              ∧ Forall2 (λ row line, companyName row.1 = Some line.1)
                  (vehicleDistribution s) lines)
  ∧ (∀ r, r ∈ printStats s → ∃ n, (operator r, n) ∈ vehicleDistribution s).
Proof.
  intros Hreach.
  destruct (fleet_reachable _ _ Hreach) as [Hfleet _].
  destruct (Simulation_over_spec vehicleTypes_table table_not_empty) as (_ & _ & _ & Hlen & _).
  rewrite <-Simulation_new_over, <-Hfleet in Hlen.
  split_and!; [done|apply vehicleDistribution_rows| | |].
  - unfold vehicleDistribution. rewrite vehicleDistribution_sum. simpl.
    rewrite <-Hlen, <-of_operator_total. lia.
  - unfold printVehicleDistribution.
    destruct (mapM _ (vehicleDistribution s)) as [lines|] eqn:Hlines.
    + exists lines. split; [done|].
      apply mapM_Some in Hlines. by apply named_rows.
    + apply mapM_None in Hlines. apply Exists_exists in Hlines as ([c n] & _ & Hname).
      by destruct c.
  - intros r Hr.
    assert (Hsome : is_Some (stats s !! operator r)).
    { apply printStats_rows in Hr as (st & Hst & _). by eexists. }
    apply (keys_reachable s _ Hreach), count_pos in Hsome as (o & Ho & Hfo).
    destruct (news_reachable rng _ _ Hreach o Ho) as [Hold|Hnew].
    { rewrite Simulation_new_over in Hold.
      destruct (start_Simulation_over vehicleTypes_table) as (Hh & _).
      rewrite Hh in Hold. by apply elem_of_nil in Hold. }
    rewrite Simulation_new_over in Hnew.
    apply (referenced_Simulation_over _ _ table_not_empty) in Hnew.
    rewrite <-Simulation_new_over, <-Hfleet in Hnew.
    exists (Z.of_nat (of_operator (operator r) (vehicles s))).
    apply vehicleDistribution_rows. split; [done|].
    assert (Hc : company (type (obs_vehicle o)) = operator r).
    { destruct o as [e| | |]; simpl in Hfo; try done.
      unfold obs_vehicle, vehicle_of. destruct (action e); [|done].
      by apply bool_decide_eq_true_1 in Hfo. }
    apply list_elem_of_lookup_2 in Hnew.
    assert (Hin : obs_vehicle o ∈ filter (λ v, company (type v) = operator r) (vehicles s)).
    { by apply list_elem_of_filter. }
    unfold of_operator. destruct (filter _ (vehicles s)); [by apply elem_of_nil in Hin|].
    simpl. lia.
Qed.

(** *** A matching pass *)

Lemma tryCharging_loop_pass now n :
  ∀ i s,
    let s' := tryCharging_loop n i now s in
    ∃ taken news,
      chargingQueue s = taken ++ chargingQueue s'
      ∧ history s' = history s ++ news
      ∧ dequeued news = taken
      ∧ joined news = []
      ∧ (length taken ≤ n)%nat
      ∧ (∀ o, o ∈ news →
           ∃ v k, (i ≤ k < i + n)%nat ∧ (o = Assigned v k now ∨ o = Dropped v k now))
      ∧ (∀ k w, activeChargers s !! k = Some (Some w) →
                activeChargers s' !! k = Some (Some w))
      ∧ (∀ k, (i ≤ k < i + n)%nat → (k < length (activeChargers s))%nat →
           (∃ w, activeChargers s' !! k = Some (Some w))
           ∨ chargingQueue s' = []
           ∨ ∃ v, Dropped v k now ∈ news)
      ∧ (∀ k w t, Assigned w k t ∈ news → activeChargers s' !! k = Some (Some w))
      ∧ (∀ e, e ∈ eventQueue s → e ∈ eventQueue s').
Proof.
  induction n as [|n IH]; intros i s; simpl.
  { exists [], []. rewrite app_nil_r.
    split_and!; try done; try (by intros o ?%elem_of_nil);
      try (by intros k w t ?%elem_of_nil).
    intros k Hk. lia. }
  destruct (IH (S i) (tryCharging_slot i now s))
    as (taken & news & Hline' & Hh' & Hdeq & Hjoin & Hlen & Hnews & Hbusy & Hwork
        & Hgiven & Hkept).
  destruct (tryCharging_slot_case i now s) as [Hskip|v rest Hi Hline Hend|v rest Hi Hline Hend].
  - exists taken, news. split_and!; try done; [lia| |].
    + intros o Ho. destruct (Hnews o Ho) as (v & k & Hk & Hcase).
      exists v, k. split; [lia|done].
    + intros k Hk Hlt. destruct (decide (k = i)) as [->|Hne]; [|apply Hwork; [lia|done]].
      destruct Hskip as [Hbusy'|Hempty].
      * left. destruct (lookup_lt_is_Some_2 _ _ Hlt) as [[w|] Hw]; [|done].
        exists w. by apply Hbusy.
      * right; left. rewrite Hempty in Hline'.
        symmetry in Hline'. by apply app_eq_nil in Hline' as [_ ?].
  - simpl in *. exists (v :: taken), (Dropped v i now :: news).
    split_and!.
    + rewrite Hline. simpl. f_equal. exact Hline'.
    + by rewrite Hh', <-app_assoc.
    + simpl. f_equal. exact Hdeq.
    + exact Hjoin.
    + simpl. lia.
    + intros o [->|Ho]%elem_of_cons.
      * exists v, i. split; [lia|by right].
      * destruct (Hnews o Ho) as (w & k & Hk & Hcase). exists w, k. split; [lia|done].
    + done.
    + intros k Hk Hlt. destruct (decide (k = i)) as [->|Hne].
      * right; right. exists v. apply list_elem_of_here.
      * destruct (Hwork k) as [?|[?|[w Hw]]]; [lia|done|by left|by right; left|].
        right; right. exists w. by apply list_elem_of_further.
    + intros k w t [Heq|Ho]%elem_of_cons; [done|by eapply Hgiven].
    + done.
  - simpl in *. exists (v :: taken), (Assigned v i now :: news).
    assert (Hlt : (i < length (activeChargers s))%nat) by by eapply lookup_lt_Some.
    split_and!.
    + rewrite Hline. simpl. f_equal. exact Hline'.
    + by rewrite Hh', <-app_assoc.
    + simpl. f_equal. exact Hdeq.
    + exact Hjoin.
    + simpl. lia.
    + intros o [->|Ho]%elem_of_cons.
      * exists v, i. split; [lia|by left].
      * destruct (Hnews o Ho) as (w & k & Hk & Hcase). exists w, k. split; [lia|done].
    + intros k w Hk. apply Hbusy. rewrite list_lookup_insert_ne; [done|].
      intros ->. congruence.
    + intros k Hk Hlt'. destruct (decide (k = i)) as [->|Hne].
      * left. exists v. apply Hbusy. by rewrite list_lookup_insert_eq.
      * rewrite length_insert in Hwork.
        destruct (Hwork k) as [?|[?|[w Hw]]]; [lia|done|by left|by right; left|].
        right; right. exists w. by apply list_elem_of_further.
    + intros k w t [Heq|Ho]%elem_of_cons; [|by eapply Hgiven].
      injection Heq as -> -> ->. apply Hbusy. by rewrite list_lookup_insert_eq.
    + intros e He. apply Hkept. apply elem_of_app. by left.
Qed.

(** X10.  A matching pass takes vehicles from the head of the waiting line
    only, at most one per charger, and history records them in that order;
    it leaves every occupied charger as it is; and when it ends every
    charger is occupied, or the line is empty, or a vehicle was dropped at
    that charger: a pass that drops nobody leaves no vehicle waiting beside
    an idle charger. *)
Theorem matching_pass now s :
  length (activeChargers s) = NUM_CHARGERS →
  let s' := tryCharging now s in
  ∃ taken news,
    chargingQueue s = taken ++ chargingQueue s'
    ∧ history s' = history s ++ news
    ∧ dequeued news = taken
    ∧ (length taken ≤ NUM_CHARGERS)%nat
    ∧ (∀ k w, activeChargers s !! k = Some (Some w) →
              activeChargers s' !! k = Some (Some w))
    ∧ (∀ k, (k < NUM_CHARGERS)%nat →
         (∃ w, activeChargers s' !! k = Some (Some w))
         ∨ chargingQueue s' = []
         ∨ ∃ v, Dropped v k now ∈ news)
    ∧ (forallb (λ o, negb (is_dropped o)) news = true →
       chargingQueue s' = []
       ∨ ∀ k, (k < NUM_CHARGERS)%nat → ∃ w, activeChargers s' !! k = Some (Some w)).
Proof.
  intros Hpool s'.
  destruct (tryCharging_loop_pass now NUM_CHARGERS 0 s)
    as (taken & news & Hline & Hh & Hdeq & _ & Hlen & _ & Hbusy & Hwork & _ & _).
  fold (tryCharging now s) in Hline, Hh, Hbusy, Hwork. fold s' in Hline, Hh, Hbusy, Hwork.
  assert (Hwork' : ∀ k, (k < NUM_CHARGERS)%nat →
            (∃ w, activeChargers s' !! k = Some (Some w))
            ∨ chargingQueue s' = []
            ∨ ∃ v, Dropped v k now ∈ news).
  { intros k Hk. apply Hwork; [lia|by rewrite Hpool]. }
  exists taken, news. split_and!; try done.
  intros Hnone.
  destruct (chargingQueue s') as [|u l] eqn:Hq; [by left|right].
  intros k Hk. destruct (Hwork' k Hk) as [?|[?|[v Hv]]]; [done|done|].
  rewrite forallb_forall in Hnone.
  apply list_elem_of_In, Hnone in Hv. done.
Qed.

(** *** Faults do not steer the simulation *)

Lemma schedule_tryCharging_slot i now s :
  schedule_of (tryCharging_slot i now s) = tryCharging_slot i now (schedule_of s).
Proof.
  unfold tryCharging_slot. simpl.
  destruct (activeChargers s !! i) as [[w|]|]; try done.
  destruct (chargingQueue s) as [|v rest]; [done|].
  by destruct (_ >? SIM_DURATION).
Qed.

Lemma schedule_tryCharging now s :
  schedule_of (tryCharging now s) = tryCharging now (schedule_of s).
Proof.
  unfold tryCharging. generalize 0 NUM_CHARGERS. intros i n. revert i s.
  induction n as [|n IH]; intros i s; simpl; [done|].
  by rewrite IH, schedule_tryCharging_slot.
Qed.

Lemma schedule_scheduleFlight v start s :
  schedule_of (scheduleFlight v start s) = scheduleFlight v start (schedule_of s).
Proof. unfold scheduleFlight. by destruct (_ >? SIM_DURATION). Qed.

Lemma forget_record_flight v d x sample sample' (st st' : Stats D) :
  forget_faults st = forget_faults st' →
  forget_faults (record_flight v d x sample st)
  = forget_faults (record_flight v d x sample' st').
Proof.
  destruct st, st'. unfold forget_faults, record_flight. simpl.
  intros [= -> -> -> -> -> ->]. done.
Qed.

Lemma forget_record_charge v (st st' : Stats D) :
  forget_faults st = forget_faults st' →
  forget_faults (record_charge v st) = forget_faults (record_charge v st').
Proof.
  destruct st, st'. unfold forget_faults, record_charge. simpl.
  intros [= -> -> -> -> -> ->]. done.
Qed.

Lemma forget_stats_at c s1 s2 :
  schedule_of s1 = schedule_of s2 →
  forget_faults (stats_at c s1) = forget_faults (stats_at c s2).
Proof.
  intros Heq. assert (Hm : forget_faults <$> stats s1 = forget_faults <$> stats s2).
  { by apply (f_equal stats) in Heq. }
  apply (f_equal (λ m, m !! c)) in Hm. rewrite !lookup_fmap in Hm.
  unfold stats_at.
  destruct (stats s1 !! c), (stats s2 !! c); simpl in Hm |- *; congruence.
Qed.

Lemma schedule_fields s1 s2 :
  schedule_of s1 = schedule_of s2 →
  eventQueue s1 = eventQueue s2 ∧ chargingQueue s1 = chargingQueue s2
  ∧ activeChargers s1 = activeChargers s2 ∧ vehicleTypes s1 = vehicleTypes s2
  ∧ vehicles s1 = vehicles s2 ∧ draws s1 = draws s2 ∧ history s1 = history s2
  ∧ forget_faults <$> stats s1 = forget_faults <$> stats s2.
Proof.
  intros Heq. split_and!.
  - by apply (f_equal eventQueue) in Heq.
  - by apply (f_equal chargingQueue) in Heq.
  - by apply (f_equal activeChargers) in Heq.
  - by apply (f_equal vehicleTypes) in Heq.
  - by apply (f_equal vehicles) in Heq.
  - by apply (f_equal draws) in Heq.
  - by apply (f_equal history) in Heq.
  - by apply (f_equal stats) in Heq.
Qed.

Lemma schedule_intro s1 s2 :
  eventQueue s1 = eventQueue s2 → chargingQueue s1 = chargingQueue s2 →
  activeChargers s1 = activeChargers s2 → vehicleTypes s1 = vehicleTypes s2 →
  vehicles s1 = vehicles s2 → draws s1 = draws s2 → history s1 = history s2 →
  forget_faults <$> stats s1 = forget_faults <$> stats s2 →
  schedule_of s1 = schedule_of s2.
Proof.
  destruct s1, s2. unfold schedule_of, set_stats. simpl. by intros -> -> -> -> -> -> -> ->.
Qed.

Lemma schedule_processFlightEnd (rng1 rng2 : Rng D) v a d s1 s2 :
  schedule_of s1 = schedule_of s2 →
  schedule_of (processFlightEnd rng1 v a d s1) = schedule_of (processFlightEnd rng2 v a d s2).
Proof.
  intros Heq. unfold processFlightEnd.
  destruct (a + d >? SIM_DURATION); [done|].
  rewrite !schedule_tryCharging. f_equal.
  pose proof (forget_stats_at (company (type v)) s1 s2 Heq) as Hst.
  destruct (schedule_fields s1 s2 Heq) as (E1 & E2 & E3 & E4 & E5 & E6 & E7 & E8).
  apply schedule_intro; simpl; try congruence.
  rewrite !fmap_insert, E8. f_equal. by apply forget_record_flight.
Qed.

Lemma schedule_finishCharging v i s1 s2 :
  schedule_of s1 = schedule_of s2 →
  schedule_of <$> finishCharging v i s1 = schedule_of <$> finishCharging v i s2.
Proof.
  intros Heq. unfold finishCharging.
  pose proof (forget_stats_at (company (type v)) s1 s2 Heq) as Hst.
  destruct (schedule_fields s1 s2 Heq) as (E1 & E2 & E3 & E4 & E5 & E6 & E7 & E8).
  rewrite E1. destruct (top (eventQueue s2)) as [e|]; [|done].
  simpl. f_equal. rewrite !schedule_tryCharging, !schedule_scheduleFlight. do 2 f_equal.
  apply schedule_intro; simpl; try congruence.
  rewrite !fmap_insert, E8. f_equal. by apply forget_record_charge.
Qed.

Lemma schedule_run_iteration (rng1 rng2 : Rng D) s1 s2 :
  schedule_of s1 = schedule_of s2 →
  outcome_schedule (run_iteration rng1 s1) = outcome_schedule (run_iteration rng2 s2).
Proof.
  intros Heq. unfold run_iteration.
  destruct (schedule_fields s1 s2 Heq) as (E1 & E2 & E3 & E4 & E5 & E6 & E7 & E8).
  rewrite E1. destruct (top (eventQueue s2)) as [e|]; simpl; [|by f_equal].
  destruct (time e <=? SIM_DURATION); simpl; [|by f_equal].
  assert (Heq' : schedule_of (observe (Fired e) (set_eventQueue pop s1))
                 = schedule_of (observe (Fired e) (set_eventQueue pop s2))).
  { apply schedule_intro; simpl; congruence. }
  destruct (action e) as [v a d|v i]; simpl.
  - f_equal. by apply schedule_processFlightEnd.
  - pose proof (schedule_finishCharging v i _ _ Heq') as Hfin.
    destruct (finishCharging v i (observe (Fired e) (set_eventQueue pop s1))),
             (finishCharging v i (observe (Fired e) (set_eventQueue pop s2)));
      simpl in Hfin |- *; congruence.
Qed.

Lemma schedule_run (rng1 rng2 : Rng D) n :
  ∀ s1 s2, schedule_of s1 = schedule_of s2 →
    outcome_schedule (run rng1 n s1) = outcome_schedule (run rng2 n s2).
Proof.
  induction n as [|n IH]; intros s1 s2 Heq.
  { change (Continue (schedule_of s1) = Continue (schedule_of s2)). by rewrite Heq. }
  pose proof (schedule_run_iteration rng1 rng2 s1 s2 Heq) as Hstep.
  cbn [run].
  destruct (run_iteration rng1 s1) as [s1'| |], (run_iteration rng2 s2) as [s2'| |];
    cbn [outcome_schedule] in Hstep |- *; try discriminate; try done.
  apply IH. congruence.
Qed.

Lemma createVehicles_loop_pick (rng1 rng2 : Rng D) n :
  (∀ i, pick rng1 i = pick rng2 i) →
  ∀ i s, createVehicles_loop rng1 n i s = createVehicles_loop rng2 n i s.
Proof.
  intros Hpick. induction n as [|n IH]; intros i s; simpl; [done|].
  rewrite Hpick. destruct (vehicleTypes s !! _); by rewrite IH.
Qed.

(** X11.  Two generators that create the same fleet drive the same
    simulation whatever the samples of the fault model are: after any number
    of iterations of the loop of [run] the outcome is the same, and so are
    the events, the waiting line, the chargers, the history and the
    statistics, the fault counts apart. *)
Theorem faults_do_not_steer (rng1 rng2 : Rng D) n :
  (∀ i, pick rng1 i = pick rng2 i) →
  outcome_schedule (run rng1 n (Simulation_new rng1))
  = outcome_schedule (run rng2 n (Simulation_new rng2)).
Proof.
  intros Hpick. apply schedule_run. f_equal.
  unfold Simulation_new, createVehicles.
  by rewrite (createVehicles_loop_pick rng1 rng2 NUM_VEHICLES Hpick).
Qed.

(** *** How a vehicle leaves the simulation *)

Lemma pass_fate now s :
  let s' := tryCharging now s in
  ∃ news,
    history s' = history s ++ news
    ∧ joined news = []
    ∧ (∀ e, e ∈ eventQueue s → e ∈ eventQueue s')
    ∧ (∀ w, w ∈ charging s → w ∈ charging s')
    ∧ (∀ w, w ∈ chargingQueue s →
         w ∈ chargingQueue s' ∨ w ∈ charging s' ∨ ∃ k t, Dropped w k t ∈ news).
Proof.
  intros s'.
  destruct (tryCharging_loop_pass now NUM_CHARGERS 0 s)
    as (taken & news & Hline & Hh & Hdeq & Hjoin & _ & Hnews & Hbusy & _ & Hgiven & Hkept).
  fold (tryCharging now s) in Hline, Hh, Hbusy, Hgiven, Hkept.
  fold s' in Hline, Hh, Hbusy, Hgiven, Hkept.
  exists news. split_and!; try done.
  - intros w (o & Ho & Hw)%list_elem_of_omap. destruct o as [u|]; simplify_eq/=.
    apply list_elem_of_lookup in Ho as [k Hk].
    apply list_elem_of_omap. exists (Some w). split; [|done].
    eapply list_elem_of_lookup_2. by apply Hbusy.
  - intros w Hw. rewrite Hline in Hw. apply elem_of_app in Hw as [Hw|Hw]; [|by left].
    right. rewrite <-Hdeq in Hw. apply list_elem_of_omap in Hw as (o & Ho & Hw).
    destruct o as [e|u|u k t|u k t]; simplify_eq/=.
    + left. apply list_elem_of_omap. exists (Some w). split; [|done].
      eapply list_elem_of_lookup_2. by eapply Hgiven.
    + right. by exists k, t.
Qed.

Lemma referenced_cases s w :
  w ∈ referenced s
  ↔ (∃ e, e ∈ eventQueue s ∧ vehicle_of e = w) ∨ w ∈ chargingQueue s ∨ w ∈ charging s.
Proof.
  unfold referenced. rewrite !elem_of_app, list_elem_of_fmap. split.
  - intros [(e & -> & He)|[?|?]]; [left; by exists e|by right; left|by right; right].
  - intros [(e & He & <-)|[?|?]]; [left; by exists e|by right; left|by right; right].
Qed.

(** X4.  An iteration of the loop of [run] keeps every vehicle in the
    simulation, with two exceptions: a vehicle the matching pass drops from
    the waiting line, and the vehicle whose charge has just completed when
    its next flight, started at the time [finishCharging] takes for now,
    would end after the horizon.  A vehicle that has left never comes
    back. *)
Theorem vehicles_leave_by_drop_or_refusal s s' :
  reachable rng (Simulation_new rng) s →
  run_iteration rng s = Continue s' →
  (∃ e news,
     top (eventQueue s) = Some e
     ∧ history s' = history s ++ Fired e :: news
     ∧ ∀ w, w ∈ referenced s →
         w ∈ referenced s'
         ∨ (∃ k t, Dropped w k t ∈ news)
         ∨ (∃ i next,
              action e = ChargeEnd w i
              ∧ top (pop (eventQueue s)) = Some next
              ∧ (time next + getFlightDuration w >? SIM_DURATION) = true))
  ∧ (∀ s'' w, reachable rng s' s'' → w ∈ referenced s'' → w ∈ referenced s').
Proof.
  intros Hreach Hstep.
  split; [|intros s'' w Hreach' Hw; by eapply referenced_reachable].
  pose proof (Inv_reachable rng _ _ (Inv_Simulation_over rng vehicleTypes_table) Hreach)
    as HI.
  pose proof (Timed_reachable rng _ _ (Timed_Simulation_over rng vehicleTypes_table) Hreach)
    as HT.
  revert Hstep. unfold run_iteration.
  destruct (top (eventQueue s)) as [e|] eqn:Htop; [|done].
  destruct (time e <=? SIM_DURATION) eqn:Hle; [|done].
  pose proof (top_pop _ _ Htop) as Hperm.
  assert (He : e ∈ eventQueue s) by (rewrite Hperm; apply list_elem_of_here).
  destruct (Inv_pop s e HI Htop) as (_ & _ & Hcharge).
  destruct (action e) as [v a d|v i] eqn:Hact.
  - intros [= <-].
    destruct (timed_flight s HT e v a d He Hact) as [Htime _].
    pose proof (timed_queue s HT e He) as Hin. rewrite Htime in Hin.
    unfold processFlightEnd. rewrite Hin.
    match goal with |- context [tryCharging ?t ?s1] =>
      destruct (pass_fate t s1) as (news & Hh & _ & Hev & Hch & Hq);
      set (s2 := tryCharging t s1) in * end.
    simpl in Hh, Hev, Hch, Hq.
    exists e, (Joined v :: news). split; [done|]. split.
    { rewrite Hh, <-!app_assoc. done. }
    assert (Hline : ∀ w, w ∈ chargingQueue s ++ [v] →
              w ∈ referenced s2 ∨ (∃ k t, Dropped w k t ∈ Joined v :: news) ∨ False).
    { intros w Hw. destruct (Hq w Hw) as [?|[?|(k & t & Hd)]].
      - left. apply referenced_cases. by right; left.
      - left. apply referenced_cases. by right; right.
      - right; left. exists k, t. by apply list_elem_of_further. }
    intros w [(e' & He' & <-)|[Hw|Hw]]%referenced_cases.
    + rewrite Hperm in He'. apply elem_of_cons in He' as [->|He'].
      * unfold vehicle_of. rewrite Hact.
        destruct (Hline v) as [?|[?|[]]]; [apply elem_of_app; right; apply list_elem_of_here| |];
          [by left|by right; left].
      * left. apply referenced_cases. left. exists e'. split; [by apply Hev|done].
    + destruct (Hline w) as [?|[?|[]]]; [apply elem_of_app; by left| |];
        [by left|by right; left].
    + left. apply referenced_cases. right; right. by apply Hch.
  - unfold finishCharging. simpl.
    destruct (top (pop (eventQueue s))) as [next|] eqn:Hnext; [|done].
    intros [= <-].
    destruct (Hcharge v i eq_refl) as [Hi _]. simpl in Hi.
    match goal with |- context [tryCharging ?t (scheduleFlight ?u ?t ?s1)] =>
      set (s3 := scheduleFlight u t s1) end.
    assert (Hs3 : history s3 = history s ++ [Fired e]
                  ∧ chargingQueue s3 = chargingQueue s
                  ∧ charging s3 = omap id (<[i:=None]> (activeChargers s))
                  ∧ (∀ e', e' ∈ pop (eventQueue s) → e' ∈ eventQueue s3)
                  ∧ ((time next + getFlightDuration v >? SIM_DURATION) = false →
                     ∃ e', e' ∈ eventQueue s3 ∧ vehicle_of e' = v)).
    { subst s3. unfold scheduleFlight, charging.
      destruct (time next + getFlightDuration v >? SIM_DURATION); simpl;
        split_and!; try done.
      - intros e' He'. apply elem_of_app. by left.
      - intros _. eexists. split; [apply elem_of_app; right; apply list_elem_of_here|done]. }
    destruct Hs3 as (Hh3 & Hq3 & Hc3 & Hev3 & Hnew3).
    destruct (pass_fate (time next) s3) as (news & Hh & _ & Hev & Hch & Hq).
    set (s2 := tryCharging (time next) s3) in *.
    rewrite Hq3 in Hq. rewrite Hc3 in Hch.
    exists e, news. split; [done|]. split.
    { by rewrite Hh, Hh3, <-app_assoc. }
    assert (Hv : v ∈ referenced s2
                 ∨ (∃ k t, Dropped v k t ∈ news)
                 ∨ ∃ i0 next0, action e = ChargeEnd v i0 ∧ Some next = Some next0
                     ∧ (time next0 + getFlightDuration v >? SIM_DURATION) = true).
    { destruct (time next + getFlightDuration v >? SIM_DURATION) eqn:Hend.
      - right; right. by exists i, next.
      - left. destruct (Hnew3 eq_refl) as (e' & He' & Hve').
        apply referenced_cases. left. exists e'. split; [by apply Hev|done]. }
    intros w [(e' & He' & <-)|[Hw|Hw]]%referenced_cases.
    + rewrite Hperm in He'. apply elem_of_cons in He' as [->|He'].
      * replace (vehicle_of e) with v by (unfold vehicle_of; by rewrite Hact).
        exact Hv.
      * left. apply referenced_cases. left. exists e'. split; [|done].
        by apply Hev, Hev3.
    + destruct (Hq w Hw) as [?|[?|(k & t & Hd)]].
      * left. apply referenced_cases. by right; left.
      * left. apply referenced_cases. by right; right.
      * right; left. by exists k, t.
    + unfold charging in Hw. rewrite (free_slot _ _ _ Hi) in Hw.
      apply elem_of_cons in Hw as [->|Hw]; [exact Hv|].
      left. apply referenced_cases. right; right. by apply Hch.
Qed.

(** *** What an iteration adds to the event queue and to the fired events *)

Lemma events_tryCharging_slot (Q : Event D → Prop) (X : list (Vehicle D)) i now s :
  within X s →
  (∀ v k, v ∈ X → Q {| time := now + timeToCharge (type v); action := ChargeEnd v k |}) →
  (∀ e, e ∈ eventQueue s → Q e) →
  ∀ e, e ∈ eventQueue (tryCharging_slot i now s) → Q e.
Proof.
  intros Hw Hnew Hs.
  destruct (tryCharging_slot_case i now s) as [?|v rest Hi Hline Hend|v rest Hi Hline Hend];
    [done|done|].
  simpl. intros e [He| ->%list_elem_of_singleton]%elem_of_app; [by apply Hs|].
  apply Hnew, Hw. apply referenced_cases. right; left. rewrite Hline. apply list_elem_of_here.
Qed.

Lemma events_tryCharging (Q : Event D → Prop) (X : list (Vehicle D)) now s :
  within X s →
  (∀ v k, v ∈ X → Q {| time := now + timeToCharge (type v); action := ChargeEnd v k |}) →
  (∀ e, e ∈ eventQueue s → Q e) →
  ∀ e, e ∈ eventQueue (tryCharging now s) → Q e.
Proof.
  intros Hw Hnew. revert Hw. unfold tryCharging. generalize 0 NUM_CHARGERS.
  intros i n. revert i s.
  induction n as [|n IH]; intros i s Hw Hs; simpl; [done|].
  apply IH; [by apply within_tryCharging_slot|].
  by apply (events_tryCharging_slot Q X).
Qed.

Lemma events_scheduleFlight (Q : Event D → Prop) v start s :
  Q {| time := start + getFlightDuration v;
       action := FlightEnd v start (getFlightDuration v) |} →
  (∀ e, e ∈ eventQueue s → Q e) →
  ∀ e, e ∈ eventQueue (scheduleFlight v start s) → Q e.
Proof.
  intros Hnew Hs. unfold scheduleFlight.
  destruct (_ >? SIM_DURATION); [done|]. simpl.
  intros e [He| ->%list_elem_of_singleton]%elem_of_app; [by apply Hs|done].
Qed.

(** The events pending after an iteration: those that were pending, the
    fired one apart, and completions computed from the time the handler
    takes for now, which is the time of the fired event or of the earliest
    event behind it. *)
Lemma events_run_iteration (Q : Event D → Prop) s s' :
  Timed s → run_iteration rng s = Continue s' →
  ∃ e,
    top (eventQueue s) = Some e
    ∧ ((∀ e', e' ∈ pop (eventQueue s) → Q e') →
       (∀ now v k,
          now = time e ∨ (∃ next, top (pop (eventQueue s)) = Some next ∧ now = time next) →
          v ∈ referenced s →
          Q {| time := now + timeToCharge (type v); action := ChargeEnd v k |}) →
       (∀ now v,
          now = time e ∨ (∃ next, top (pop (eventQueue s)) = Some next ∧ now = time next) →
          v ∈ referenced s →
          Q {| time := now + getFlightDuration v;
               action := FlightEnd v now (getFlightDuration v) |}) →
       ∀ e', e' ∈ eventQueue s' → Q e').
Proof.
  intros HT. unfold run_iteration.
  destruct (top (eventQueue s)) as [e|] eqn:Htop; [|done].
  destruct (time e <=? SIM_DURATION); [|done].
  pose proof (top_pop _ _ Htop) as Hperm.
  assert (He : e ∈ eventQueue s) by (rewrite Hperm; apply list_elem_of_here).
  assert (Hsub : ∀ e', e' ∈ pop (eventQueue s) → e' ∈ eventQueue s).
  { intros e' He'. rewrite Hperm. by apply list_elem_of_further. }
  assert (Hv : vehicle_of e ∈ referenced s).
  { apply referenced_cases. left. by exists e. }
  assert (Hw : within (referenced s) (observe (Fired e) (set_eventQueue pop s))).
  { intros w [(e' & He' & <-)|[Hw|Hw]]%referenced_cases; apply referenced_cases.
    - left. exists e'. split; [by apply Hsub|done].
    - by right; left.
    - by right; right. }
  unfold vehicle_of in Hv.
  intros Hstep. exists e. split; [done|]. intros Hold Hcharge Hflight. revert Hstep.
  destruct (action e) as [v a d|v i] eqn:Hact.
  - intros [= <-]. unfold processFlightEnd.
    destruct (a + d >? SIM_DURATION); [done|].
    destruct (timed_flight s HT e v a d He Hact) as [Htime _].
    apply (events_tryCharging Q (referenced s)); [| |done].
    + apply within_elim in Hw as (W1 & W2 & W3).
      apply within_intro; simpl; try done.
      intros w [Hin| ->%list_elem_of_singleton]%elem_of_app; eauto.
    + intros w k Hw'. apply Hcharge; [|done]. left. by rewrite Htime.
  - unfold finishCharging. simpl.
    destruct (top (pop (eventQueue s))) as [next|] eqn:Hnext; [|done].
    intros [= <-].
    assert (Hnow : time next = time e
                   ∨ ∃ next0, Some next = Some next0 ∧ time next = time next0).
    { right. by exists next. }
    apply (events_tryCharging Q (referenced s)).
    + apply within_scheduleFlight; [|done].
      apply within_elim in Hw as (W1 & W2 & W3).
      apply within_intro; simpl; try done.
      intros w Hin%freed_slot_sub. eauto.
    + intros w k Hw'. by apply Hcharge.
    + apply events_scheduleFlight; [by apply Hflight|done].
Qed.

Lemma fired_times_snoc (h : list (Obs D)) o :
  fired_times (h ++ [o])
  = fired_times h ++ match o with Fired e => [time e] | _ => [] end.
Proof. unfold fired_times. rewrite omap_app. by destruct o. Qed.

Lemma fired_tryCharging now s :
  fired_times (history (tryCharging now s)) = fired_times (history s).
Proof.
  unfold tryCharging. generalize 0 NUM_CHARGERS. intros i n. revert i s.
  induction n as [|n IH]; intros i s; simpl; [done|].
  rewrite IH.
  destruct (tryCharging_slot_case i now s) as [?|v rest Hi Hline Hend|v rest Hi Hline Hend];
    [done| |]; simpl; by rewrite fired_times_snoc, app_nil_r.
Qed.

Lemma fired_run_iteration s s' :
  run_iteration rng s = Continue s' →
  ∃ e, top (eventQueue s) = Some e
       ∧ fired_times (history s') = fired_times (history s) ++ [time e].
Proof.
  unfold run_iteration.
  destruct (top (eventQueue s)) as [e|] eqn:Htop; [|done].
  destruct (time e <=? SIM_DURATION); [|done].
  intros Hstep. exists e. split; [done|]. revert Hstep.
  destruct (action e) as [v a d|v i].
  - intros [= <-]. unfold processFlightEnd.
    destruct (a + d >? SIM_DURATION); simpl; [by rewrite fired_times_snoc|].
    rewrite fired_tryCharging. simpl.
    by rewrite !fired_times_snoc, app_nil_r.
  - unfold finishCharging. simpl.
    destruct (top (pop (eventQueue s))) as [next|]; [|done].
    intros [= <-]. rewrite fired_tryCharging.
    unfold scheduleFlight. destruct (_ >? SIM_DURATION); simpl; by rewrite fired_times_snoc.
Qed.

End Coverage.

(** ** The object the constructor builds *)

Lemma first_flights_fit (v : Vehicle float) :
  type v ∈ vehicleTypes_table →
  (of_int 0 + getFlightDuration v >? SIM_DURATION)%D = false.
Proof.
  destruct v as [a vt]. simpl. intros Hin.
  unfold getFlightDuration. simpl.
  unfold vehicleTypes_table in Hin.
  repeat (apply elem_of_cons in Hin as [->|Hin]; [vm_compute; reflexivity|]).
  by apply elem_of_nil in Hin.
Qed.

(** X1.  The constructor leaves [NUM_VEHICLES] vehicles, vehicle [k] at
    address [k] with the type of the table the generator picked for it; one
    pending flight completion, started at time 0, for every vehicle whose
    flight fits the horizon, in the order of the fleet; [NUM_CHARGERS] idle
    chargers, an empty waiting line and empty statistics.  In binary64 the
    flight of every type of the table fits, so all the vehicles are in the
    air. *)
Theorem constructor_postcondition :
  (∀ (D : Type) (H : Double D) (rng : Rng D),
     let s := Simulation_new rng in
     length (vehicles s) = NUM_VEHICLES
     ∧ (∀ k, k < NUM_VEHICLES →
          ∃ vt, vehicleTypes_table !! (pick rng k `mod` 5) = Some vt
                ∧ vehicles s !! k = Some {| addr := k; type := vt |})
     ∧ eventQueue s = omap first_flight (vehicles s)
     ∧ activeChargers s = replicate NUM_CHARGERS None
     ∧ chargingQueue s = [] ∧ stats s = ∅ ∧ draws s = 0 ∧ history s = []
     ∧ vehicleTypes s = vehicleTypes_table)
  ∧ (∀ rng : Rng float,
       length (eventQueue (Simulation_new rng)) = NUM_VEHICLES
       ∧ flying (Simulation_new rng) = vehicles (Simulation_new rng)).
Proof.
  split.
  - intros D H rng s. subst s. rewrite Simulation_new_over.
    pose proof (Simulation_over_spec rng vehicleTypes_table table_not_empty) as Hspec.
    cbv zeta in Hspec. revert Hspec. generalize (Simulation_over rng vehicleTypes_table).
    intros s (R1 & R2 & R3 & R4 & R5 & R6 & R7 & R8 & R9 & R10).
    split_and!; try done.
    intros k Hk. destruct (R5 k Hk) as (vt & Hvt & Hty). exists vt. split; [done|].
    destruct (vehicles s !! k) as [[a vt']|] eqn:Hv; [|done].
    simpl in Hty. injection Hty as ->.
    pose proof (R3 k _ Hv) as Ha. simpl in Ha. by subst a.
  - intros rng. rewrite Simulation_new_over.
    pose proof (Simulation_over_spec rng vehicleTypes_table table_not_empty) as Hspec.
    pose proof (typed_Simulation_over rng vehicleTypes_table) as Hty.
    cbv zeta in Hspec, Hty. revert Hspec Hty.
    generalize (Simulation_over rng vehicleTypes_table).
    intros s (_ & Hq & _ & Hlen & _) [Hty _].
    assert (Hall : ∀ l : list (Vehicle float),
              (∀ v, v ∈ l → type v ∈ vehicleTypes_table) →
              length (omap first_flight l) = length l
              ∧ omap flight_of (omap first_flight l) = l).
    { induction l as [|v l IH]; [done|]. intros Hl.
      destruct (IH (λ w Hw, Hl w (list_elem_of_further _ _ _ Hw))) as [IH1 IH2].
      pose proof (first_flights_fit v (Hl v (list_elem_of_here _ _))) as Hfit.
      assert (He : first_flight v
                   = Some {| time := (of_int 0 + getFlightDuration v)%D;
                             action := FlightEnd v (of_int 0) (getFlightDuration v) |}).
      { unfold first_flight. by rewrite Hfit. }
      simpl. rewrite He. simpl. split; f_equal; [exact IH1|exact IH2]. }
    destruct (Hall (vehicles s) Hty) as [H1 H2].
    unfold flying. rewrite Hq. by rewrite H1, H2.
Qed.

(** ** The order of binary64 on numbers that are not negative *)

Lemma SFleb_of_not_ltb (x y : spec_float) :
  nonneg x → nonneg y → SFltb y x = false → SFleb x y = true.
Proof.
  destruct x as [sx|sx| |sx mx ex], y as [sy|sy| |sy my ey]; simpl; try done;
    try (intros -> ->; done); try (intros _ ->; done); try (intros -> _; done).
  intros -> ->. unfold SFltb, SFleb, SFcompare.
  rewrite (Z.compare_antisym ex ey).
  destruct (ex ?= ey)%Z; simpl; try done.
  change (Pos.compare_cont Eq my mx) with (my ?= mx)%positive.
  change (Pos.compare_cont Eq mx my) with (mx ?= my)%positive.
  rewrite (Pos.compare_antisym mx my).
  by destruct (mx ?= my)%positive.
Qed.

Lemma leb_of_not_ltb (x y : float) :
  nonneg (Prim2SF x) → nonneg (Prim2SF y) →
  PrimFloat.ltb y x = false → PrimFloat.leb x y = true.
Proof.
  rewrite FloatAxioms.ltb_spec, FloatAxioms.leb_spec. apply SFleb_of_not_ltb.
Qed.

Lemma zero_leb (x : float) :
  nonneg (Prim2SF x) → PrimFloat.leb (of_int 0) x = true.
Proof.
  rewrite FloatAxioms.leb_spec.
  change (Prim2SF (of_int 0)) with (S754_zero false).
  by destruct (Prim2SF x) as [s|s| |s m e]; simpl; try done; intros ->.
Qed.

Lemma SIM_DURATION_nonneg : nonneg (Prim2SF (SIM_DURATION (D := float))).
Proof. by vm_compute. Qed.

Lemma flight_duration_nonneg (v : Vehicle float) :
  sound_type (type v) → nonneg (Prim2SF (getFlightDuration v)).
Proof. by intros (Hd & _). Qed.

(** ** The loop of [run] in binary64 *)

Section Binary64.
Context {queue : EventQueue float} {laws : EventQueueLaws queue} (rng : Rng float).

Implicit Types (s : Simulation float) (v : Vehicle float) (e : Event float).

(** No pending event has a time that is a NaN or negative. *)
Lemma times_tryCharging_slot (X : list (Vehicle float)) i now s :
  (∀ v, v ∈ X → sound_type (type v)) → within X s →
  nonneg (Prim2SF now) →
  (∀ e, e ∈ eventQueue s → nonneg (Prim2SF (time e))) →
  ∀ e, e ∈ eventQueue (tryCharging_slot i now s) → nonneg (Prim2SF (time e)).
Proof.
  intros HX Hw Hnow Hs.
  destruct (tryCharging_slot_case i now s) as [?|v rest Hi Hline Hend|v rest Hi Hline Hend];
    [done|done|].
  simpl. intros e [He| ->%list_elem_of_singleton]%elem_of_app; [by apply Hs|].
  simpl. apply add_nonneg; [done|].
  destruct (HX v) as (_ & _ & Hc & _); [|done].
  apply Hw. apply referenced_cases. right; left. rewrite Hline. apply list_elem_of_here.
Qed.

Lemma times_tryCharging (X : list (Vehicle float)) now s :
  (∀ v, v ∈ X → sound_type (type v)) → within X s →
  nonneg (Prim2SF now) →
  (∀ e, e ∈ eventQueue s → nonneg (Prim2SF (time e))) →
  ∀ e, e ∈ eventQueue (tryCharging now s) → nonneg (Prim2SF (time e)).
Proof.
  intros HX. unfold tryCharging. generalize 0 NUM_CHARGERS. intros i n. revert i s.
  induction n as [|n IH]; intros i s Hw Hnow Hs; simpl; [done|].
  apply IH; [by apply within_tryCharging_slot|done|].
  by apply (times_tryCharging_slot X).
Qed.

Lemma times_scheduleFlight v start s :
  sound_type (type v) → nonneg (Prim2SF start) →
  (∀ e, e ∈ eventQueue s → nonneg (Prim2SF (time e))) →
  ∀ e, e ∈ eventQueue (scheduleFlight v start s) → nonneg (Prim2SF (time e)).
Proof.
  intros Hv Hstart Hs. unfold scheduleFlight.
  destruct (dlt _ _); [done|]. simpl.
  intros e [He| ->%list_elem_of_singleton]%elem_of_app; [by apply Hs|].
  simpl. apply add_nonneg; [done|by apply flight_duration_nonneg].
Qed.

Lemma times_run_iteration s s' :
  Timed s → Books s →
  (∀ e, e ∈ eventQueue s → nonneg (Prim2SF (time e))) →
  run_iteration rng s = Continue s' →
  ∀ e, e ∈ eventQueue s' → nonneg (Prim2SF (time e)).
Proof.
  intros HT [_ Hsound] Hs. unfold run_iteration.
  destruct (top (eventQueue s)) as [e|] eqn:Htop; [|done].
  destruct (dle (time e) SIM_DURATION); [|done].
  pose proof (top_pop _ _ Htop) as Hperm.
  assert (He : e ∈ eventQueue s) by (rewrite Hperm; apply list_elem_of_here).
  assert (Hsub : ∀ e', e' ∈ pop (eventQueue s) → e' ∈ eventQueue s).
  { intros e' He'. rewrite Hperm. by apply list_elem_of_further. }
  assert (Hv : vehicle_of e ∈ referenced s).
  { apply referenced_cases. left. by exists e. }
  assert (Hw : within (referenced s) (observe (Fired e) (set_eventQueue pop s))).
  { intros w [(e' & He' & <-)|[Hw|Hw]]%referenced_cases; apply referenced_cases.
    - left. exists e'. split; [by apply Hsub|done].
    - by right; left.
    - by right; right. }
  unfold vehicle_of in Hv.
  destruct (action e) as [v a d|v i] eqn:Hact.
  - intros [= <-]. unfold processFlightEnd.
    destruct (dlt _ _); [simpl; intros e' He'; by apply Hs, Hsub|].
    destruct (timed_flight s HT e v a d He Hact) as [Htime _].
    apply (times_tryCharging (referenced s)); [done| | |].
    + apply within_elim in Hw as (W1 & W2 & W3).
      apply within_intro; simpl; try done.
      intros w [Hin| ->%list_elem_of_singleton]%elem_of_app; eauto.
    + change (dadd a d) with (PrimFloat.add a d). change (dadd a d) with (PrimFloat.add a d) in Htime.
      rewrite <-Htime. by apply Hs.
    + simpl. intros e' He'. by apply Hs, Hsub.
  - unfold finishCharging. simpl.
    destruct (top (pop (eventQueue s))) as [next|] eqn:Hnext; [|done].
    intros [= <-].
    assert (Hnow : nonneg (Prim2SF (time next))).
    { apply Hs, Hsub. rewrite (top_pop _ _ Hnext). apply list_elem_of_here. }
    apply (times_tryCharging (referenced s)); [done| |done|].
    + apply within_scheduleFlight; [|done].
      apply within_elim in Hw as (W1 & W2 & W3).
      apply within_intro; simpl; try done.
      intros w Hin%freed_slot_sub. eauto.
    + apply times_scheduleFlight; [by apply Hsound|done|].
      simpl. intros e' He'. by apply Hs, Hsub.
Qed.

Lemma times_Simulation_new e :
  e ∈ eventQueue (Simulation_new rng) → nonneg (Prim2SF (time e)).
Proof.
  rewrite Simulation_new_over.
  pose proof (Simulation_over_spec rng vehicleTypes_table table_not_empty) as Hspec.
  pose proof (typed_Simulation_over rng vehicleTypes_table) as Hty.
  cbv zeta in Hspec, Hty. revert Hspec Hty.
  generalize (Simulation_over rng vehicleTypes_table).
  intros s (_ & Hq & _) [Hty _]. rewrite Hq.
  intros (v & Hv & He)%list_elem_of_omap.
  unfold first_flight in He. destruct (dlt _ _); [done|]. injection He as <-. simpl.
  apply add_nonneg; [by vm_compute|].
  apply flight_duration_nonneg, table_sound. by apply Hty.
Qed.

Lemma times_reachable s :
  reachable rng (Simulation_new rng) s →
  ∀ e, e ∈ eventQueue s → nonneg (Prim2SF (time e)).
Proof.
  induction 1 as [|s s' Hreach IH Hstep]; [apply times_Simulation_new|].
  eapply times_run_iteration; [| |exact IH|exact Hstep].
  - exact (Timed_reachable rng _ _ (Timed_Simulation_over rng vehicleTypes_table) Hreach).
  - by apply (Books_reachable rng).
Qed.

Lemma all_idle (l : list (option (Vehicle float))) :
  omap id l = [] → l = replicate (length l) None.
Proof.
  induction l as [|[v|] l IH]; simpl; [done|done|].
  intros Hl. f_equal. by apply IH.
Qed.

(** X7.  In binary64, in every state the loop of [run] reaches, every
    pending event has a time between 0 and the horizon and passes the test
    of the loop condition: the loop stops only when the event queue is
    empty, and then every charger is idle. *)
Theorem run_stops_on_empty_queue s :
  reachable rng (Simulation_new rng) s →
  (∀ e, e ∈ eventQueue s →
        PrimFloat.leb (of_int 0) (time e) = true
        ∧ PrimFloat.leb (time e) SIM_DURATION = true)
  ∧ (run_iteration rng s = Finished s ↔ eventQueue s = [])
  ∧ (∀ s', run_iteration rng s = Finished s' →
       s' = s ∧ eventQueue s = []
       ∧ activeChargers s = replicate NUM_CHARGERS None).
Proof.
  intros Hreach.
  pose proof (Timed_reachable rng _ _ (Timed_Simulation_over rng vehicleTypes_table) Hreach)
    as HT.
  pose proof (Inv_reachable rng _ _ (Inv_Simulation_over rng vehicleTypes_table) Hreach)
    as HI.
  pose proof (on_charge_reachable rng _ _ (Inv_Simulation_over rng vehicleTypes_table)
                (on_charge_Simulation_over rng vehicleTypes_table) Hreach) as HP.
  assert (Hle : ∀ e, e ∈ eventQueue s → PrimFloat.leb (time e) SIM_DURATION = true).
  { intros e He. apply leb_of_not_ltb.
    - by apply (times_reachable s Hreach).
    - apply SIM_DURATION_nonneg.
    - exact (timed_queue s HT e He). }
  assert (Hstop : ∀ s', run_iteration rng s = Finished s' → s' = s ∧ eventQueue s = []).
  { intros s'. unfold run_iteration.
    destruct (top (eventQueue s)) as [e|] eqn:Htop.
    - assert (He : e ∈ eventQueue s).
      { rewrite (top_pop _ _ Htop). apply list_elem_of_here. }
      change (dle (time e) SIM_DURATION) with (PrimFloat.leb (time e) SIM_DURATION).
      rewrite (Hle e He).
      destruct (action e); [done|]. by destruct (finishCharging _ _ _).
    - intros [= <-]. split; [done|by apply top_None]. }
  split_and!; [| |].
  - intros e He. split; [|by apply Hle].
    apply zero_leb. by apply (times_reachable s Hreach).
  - split; [intros Hfin; by apply Hstop in Hfin as [_ ?]|].
    intros Hq. unfold run_iteration. by rewrite Hq, top_nil.
  - intros s' Hfin. destruct (Hstop s' Hfin) as [-> Hq]. split_and!; [done|done|].
    rewrite <-(inv_pool s HI). apply all_idle.
    fold (charging s). apply Permutation_nil. rewrite <-HP.
    unfold on_charge. by rewrite Hq.
Qed.

End Binary64.

(** ** Adding a number that is not negative does not decrease a binary64

    From the kernel's specification of [+]: the exact sum is aligned, cut to
    53 bits and rounded to nearest even; since the left operand is itself a
    binary64 not above the exact sum, the rounded sum is not below it. *)

Lemma iter_xO_pow (m d : positive) : Zpos (Pos.iter xO m d) = (Zpos m * 2 ^ Zpos d)%Z.
Proof.
  induction d as [|d IH] using Pos.peano_ind.
  - simpl. lia.
  - rewrite Pos.iter_succ, Pos2Z.inj_succ, Z.pow_succ_r by lia.
    rewrite Pos2Z.inj_xO, IH. lia.
Qed.

Lemma shl_align_value (mx : positive) (ex ez : Z) :
  (ez ≤ ex)%Z →
  (shl_align mx ex ez).2 = ez
  ∧ Zpos (shl_align mx ex ez).1 = (Zpos mx * 2 ^ (ex - ez))%Z.
Proof.
  intros Hle. unfold shl_align.
  destruct (ez - ex)%Z as [|d|d] eqn:Hd; simpl.
  - assert (ez = ex) as -> by lia. rewrite Z.sub_diag. simpl. lia.
  - lia.
  - rewrite iter_xO_pow. replace (ex - ez)%Z with (Zpos d) by lia. done.
Qed.

Lemma shl_align_any (mx : positive) (ex ez : Z) :
  ((shl_align mx ex ez).2 ≤ ex)%Z
  ∧ Zpos (shl_align mx ex ez).1 = (Zpos mx * 2 ^ (ex - (shl_align mx ex ez).2))%Z
  ∧ (Zpos (digits2_pos (shl_align mx ex ez).1) + (shl_align mx ex ez).2
     = Zpos (digits2_pos mx) + ex)%Z.
Proof.
  unfold shl_align.
  destruct (ez - ex)%Z as [|d|d] eqn:Hd; simpl;
    rewrite ?Z.sub_diag; simpl; try (split_and!; lia).
  rewrite iter_xO_pow, digits2_pos_iter_xO.
  replace (ex - ez)%Z with (Zpos d) by lia. split_and!; lia.
Qed.

Lemma shr_1_div2 mrs : (0 ≤ shr_m mrs)%Z → shr_m (shr_1 mrs) = (shr_m mrs / 2)%Z.
Proof.
  destruct mrs as [[|[p|p|]|p] r s]; simpl; intros Hm; try done; try lia.
  - rewrite Pos2Z.inj_xI. apply Z.div_unique with 1%Z; lia.
  - rewrite Pos2Z.inj_xO. apply Z.div_unique with 0%Z; lia.
Qed.

Lemma iter_shr_1_div (p : positive) :
  ∀ mrs, (0 ≤ shr_m mrs)%Z →
    shr_m (SpecFloat.iter_pos shr_1 p mrs) = (shr_m mrs / 2 ^ Zpos p)%Z.
Proof.
  induction p as [p IH|p IH|]; intros mrs Hm; simpl SpecFloat.iter_pos.
  - rewrite IH by (apply iter_shr_1_nonneg; by apply shr_1_nonneg).
    rewrite IH by by apply shr_1_nonneg.
    rewrite shr_1_div2 by done.
    assert (Hpow : (0 < 2 ^ Zpos p)%Z) by (apply Z.pow_pos_nonneg; lia).
    replace (Z.pos p~1) with (1 + Z.pos p + Z.pos p)%Z by lia.
    rewrite (Z.pow_add_r 2 (1 + Z.pos p) (Z.pos p)) by lia.
    rewrite (Z.pow_add_r 2 1 (Z.pos p)) by lia.
    change (2 ^ 1)%Z with 2%Z.
    rewrite <-!Z.div_div by lia. done.
  - rewrite IH by by apply iter_shr_1_nonneg.
    rewrite IH by done.
    assert (Hpow : (0 < 2 ^ Zpos p)%Z) by (apply Z.pow_pos_nonneg; lia).
    replace (Z.pos p~0) with (Z.pos p + Z.pos p)%Z by lia.
    rewrite (Z.pow_add_r 2 (Z.pos p) (Z.pos p)) by lia.
    rewrite <-!Z.div_div by lia. done.
  - by rewrite shr_1_div2.
Qed.

Lemma digits2_pos_lt (p : positive) : (Zpos p < 2 ^ Zpos (digits2_pos p))%Z.
Proof.
  induction p as [p IH|p IH|]; simpl; try done.
  - rewrite Pos2Z.inj_succ, Z.pow_succ_r by lia. lia.
  - rewrite Pos2Z.inj_succ, Z.pow_succ_r by lia. lia.
Qed.

Lemma shr_record_of_loc_m m l : shr_m (shr_record_of_loc m l) = m.
Proof. by destruct l as [|[| |]]. Qed.

(** What [shr_fexp] does to a positive mantissa: nothing, or a division by a
    power of two that brings the exponent to [fexp]. *)
Lemma shr_fexp_pos (p : positive) (e : Z) (l : location) :
  let k := (fexp prec emax (Zpos (digits2_pos p) + e) - e)%Z in
  (k ≤ 0 ∧ shr_fexp prec emax (Zpos p) e l = (shr_record_of_loc (Zpos p) l, e))%Z
  ∨ (0 < k
     ∧ shr_m (shr_fexp prec emax (Zpos p) e l).1 = Zpos p / 2 ^ k
     ∧ (shr_fexp prec emax (Zpos p) e l).2 = e + k)%Z.
Proof.
  intros k. unfold shr_fexp, shr. simpl Zdigits2. fold k.
  destruct k as [|q|q] eqn:Hk; [left; split; [lia|done]| |left; split; [lia|done]].
  right. simpl. split_and!; [lia| |done].
  rewrite iter_shr_1_div by (rewrite shr_record_of_loc_m; lia).
  by rewrite shr_record_of_loc_m.
Qed.

Lemma round_nearest_even_bounds m l :
  (m ≤ round_nearest_even m l ≤ m + 1)%Z.
Proof. destruct l as [|[| |]]; simpl; try lia. destruct (Z.even m); lia. Qed.

Lemma fexp_mono (a b : Z) : (a ≤ b)%Z → (fexp prec emax a ≤ fexp prec emax b)%Z.
Proof. unfold fexp, emin, prec, emax. lia. Qed.

Lemma binary_round_aux_lower (mx mz : positive) (ex ez : Z) :
  fexp prec emax (Zpos (digits2_pos mx) + ex) = ex →
  (ez ≤ ex)%Z →
  (Zpos mx * 2 ^ (ex - ez) ≤ Zpos mz)%Z →
  match binary_round_aux prec emax false (Zpos mz) ez loc_Exact with
  | S754_infinity s => s = false
  | S754_finite s m e => s = false ∧ (ex < e ∨ e = ex ∧ Zpos mx ≤ Zpos m)%Z
  | _ => False
  end.
Proof.
  intros Hcan Hez Hval.
  pose proof (digits2_pos_pow mx) as Hdx. pose proof (digits2_pos_lt mz) as Hdz.
  assert (Hex : (-1074 ≤ ex)%Z).
  { revert Hcan. unfold fexp, emin, prec, emax. lia. }
  assert (Hd : (Zpos (digits2_pos mx) + ex ≤ Zpos (digits2_pos mz) + ez)%Z).
  { destruct (decide (Zpos (digits2_pos mx) + ex ≤ Zpos (digits2_pos mz) + ez)%Z)
      as [|Hlt]; [done|].
    assert (H1 : (2 ^ Zpos (digits2_pos mz)
                  ≤ 2 ^ (Zpos (digits2_pos mx) - 1 + (ex - ez)))%Z)
      by (apply Z.pow_le_mono_r; lia).
    rewrite Z.pow_add_r in H1 by lia.
    assert (H2 : (2 ^ (Zpos (digits2_pos mx) - 1) * 2 ^ (ex - ez)
                  ≤ Zpos mx * 2 ^ (ex - ez))%Z).
    { apply Z.mul_le_mono_nonneg_r; [apply Z.pow_nonneg; lia|done]. }
    lia. }
  pose proof (fexp_mono _ _ Hd) as Hfe. rewrite Hcan in Hfe.
  unfold binary_round_aux.
  destruct (shr_fexp_pos mz ez loc_Exact) as [[Hk1 Heq1]|(Hk1 & Hm1 & He1)].
  - (* the sum already has the exponent of the result *)
    rewrite Heq1. simpl.
    assert (ez = ex) as -> by lia.
    rewrite Z.sub_diag in Hval. simpl in Hval.
    destruct (shr_fexp_pos mz ex loc_Exact) as [[Hk2 Heq2]|(Hk2 & Hm2 & He2)].
    + rewrite Heq2. simpl.
      destruct (ex <=? emax - prec)%Z; [|done]. split; [done|]. right. lia.
    + destruct (shr_fexp prec emax (Zpos mz) ex loc_Exact) as [mrs2 e2].
      simpl in Hm2, He2. lia.
  - destruct (shr_fexp prec emax (Zpos mz) ez loc_Exact) as [mrs1 e1].
    simpl in Hm1, He1.
    set (k1 := (fexp prec emax (Zpos (digits2_pos mz) + ez) - ez)%Z) in *.
    assert (He1' : (ex ≤ e1)%Z) by lia.
    assert (Hpow1 : (0 < 2 ^ k1)%Z) by (apply Z.pow_pos_nonneg; lia).
    assert (Hm1ge : (e1 = ex → Zpos mx ≤ shr_m mrs1)%Z).
    { intros Heq. rewrite Hm1. apply Z.div_le_lower_bound; [done|].
      replace k1 with (ex - ez)%Z by lia. lia. }
    assert (Hm1pos : (1 ≤ shr_m mrs1)%Z).
    { destruct (decide (e1 = ex)) as [Heq|Hne]; [specialize (Hm1ge Heq); lia|].
      rewrite Hm1. apply Z.div_le_lower_bound; [done|].
      pose proof (digits2_pos_pow mz) as Hlow.
      assert (2 ^ k1 ≤ 2 ^ (Zpos (digits2_pos mz) - 1))%Z; [|lia].
      apply Z.pow_le_mono_r; [lia|].
      subst k1. revert He1 Hne He1'. unfold fexp, emin, prec, emax. lia. }
    pose proof (round_nearest_even_bounds (shr_m mrs1) (loc_of_shr_record mrs1)) as Hrne.
    destruct (round_nearest_even (shr_m mrs1) (loc_of_shr_record mrs1)) as [|p'|p'] eqn:Hp';
      try lia.
    destruct (shr_fexp_pos p' e1 loc_Exact) as [[Hk2 Heq2]|(Hk2 & Hm2 & He2)].
    + rewrite Heq2. simpl.
      destruct (e1 <=? emax - prec)%Z; [|done]. split; [done|].
      destruct (decide (e1 = ex)) as [Heq|Hne]; [right|left; lia].
      specialize (Hm1ge Heq). lia.
    + destruct (shr_fexp prec emax (Zpos p') e1 loc_Exact) as [mrs2 e2].
      simpl in Hm2, He2.
      set (k2 := (fexp prec emax (Zpos (digits2_pos p') + e1) - e1)%Z) in *.
      assert (Hpow2 : (0 < 2 ^ k2)%Z) by (apply Z.pow_pos_nonneg; lia).
      assert (Hm2pos : (1 ≤ shr_m mrs2)%Z).
      { rewrite Hm2. apply Z.div_le_lower_bound; [done|].
        pose proof (digits2_pos_pow p') as Hlow.
        assert (2 ^ k2 ≤ 2 ^ (Zpos (digits2_pos p') - 1))%Z; [|lia].
        apply Z.pow_le_mono_r; [lia|].
        subst k2. revert Hk2 He1' Hex. unfold fexp, emin, prec, emax. lia. }
      destruct (shr_m mrs2) as [|m2|m2]; try lia.
      destruct (e2 <=? emax - prec)%Z; [|done]. split; [done|]. left. lia.
Qed.

Lemma SFadd_not_below (x y : spec_float) :
  valid_binary x = true → nonneg x → nonneg y →
  SFltb (SF64add x y) x = false.
Proof.
  intros Hvalid.
  destruct x as [sx|sx| |sx mx ex], y as [sy|sy| |sy my ey]; simpl; try done;
    try (intros -> ->; done); try (intros _ ->; done); try (intros -> _; done).
  - intros _ _. by destruct sx, sy.
  - intros -> _. apply SFltb_irrefl.
  - intros -> ->.
    unfold valid_binary in Hvalid. simpl in Hvalid.
    unfold bounded, canonical_mantissa in Hvalid.
    apply andb_true_iff in Hvalid as [Hcan%Z.eqb_eq _].
    simpl cond_Zopp.
    set (ez := Z.min ex ey).
    destruct (shl_align_value mx ex ez) as [_ Hx]; [lia|].
    rewrite Hx.
    set (M := (Zpos mx * 2 ^ (ex - ez) + Zpos (shl_align my ey ez).1)%Z).
    assert (HM : (Zpos mx * 2 ^ (ex - ez) < M)%Z) by (subst M; lia).
    assert (Hpos : (0 < Zpos mx * 2 ^ (ex - ez))%Z).
    { apply Z.mul_pos_pos; [lia|apply Z.pow_pos_nonneg; lia]. }
    destruct M as [|pM|pM] eqn:HpM; try lia.
    unfold binary_normalize, binary_round.
    destruct (shl_align_any pM ez (fexp prec emax (Zpos (digits2_pos pM) + ez)))
      as (Hle & Hval & _).
    destruct (shl_align pM ez (fexp prec emax (Zpos (digits2_pos pM) + ez))) as [mz ez'].
    simpl in Hle, Hval.
    pose proof (binary_round_aux_lower mx mz ex ez' Hcan) as Hlow.
    destruct (binary_round_aux prec emax false (Zpos mz) ez' loc_Exact)
      as [s|s| |s m e] eqn:Hr.
    + destruct Hlow; [lia|].
      rewrite Hval. replace (ex - ez')%Z with ((ex - ez) + (ez - ez'))%Z by lia.
      rewrite Z.pow_add_r by lia.
      assert (0 < 2 ^ (ez - ez'))%Z by (apply Z.pow_pos_nonneg; lia). nia.
    + assert (s = false) as ->; [|done].
      apply Hlow; [lia|].
      rewrite Hval. replace (ex - ez')%Z with ((ex - ez) + (ez - ez'))%Z by lia.
      rewrite Z.pow_add_r by lia.
      assert (0 < 2 ^ (ez - ez'))%Z by (apply Z.pow_pos_nonneg; lia). nia.
    + destruct Hlow; [lia|].
      rewrite Hval. replace (ex - ez')%Z with ((ex - ez) + (ez - ez'))%Z by lia.
      rewrite Z.pow_add_r by lia.
      assert (0 < 2 ^ (ez - ez'))%Z by (apply Z.pow_pos_nonneg; lia). nia.
    + destruct Hlow as [-> Hcmp]; [lia| |].
      { rewrite Hval. replace (ex - ez')%Z with ((ex - ez) + (ez - ez'))%Z by lia.
        rewrite Z.pow_add_r by lia.
        assert (0 < 2 ^ (ez - ez'))%Z by (apply Z.pow_pos_nonneg; lia). nia. }
      destruct (SFltb (S754_finite false m e) (S754_finite false mx ex)) eqn:Hlt; [|done].
      apply SFltb_finite in Hlt as [[? ?]|[(_ & _ & Hlt)|[? ?]]]; try done. lia.
Qed.

Lemma add_not_below (a d : float) :
  nonneg (Prim2SF a) → nonneg (Prim2SF d) → PrimFloat.ltb (PrimFloat.add a d) a = false.
Proof.
  intros Ha Hd. rewrite FloatAxioms.ltb_spec, FloatAxioms.add_spec.
  apply SFadd_not_below; [apply FloatAxioms.Prim2SF_valid|done|done].
Qed.

(** ** Time does not go backwards *)

Lemma SFltb_finite_false m1 e1 m2 e2 :
  SFltb (S754_finite false m1 e1) (S754_finite false m2 e2) = false ↔
  (e2 < e1 ∨ e1 = e2 ∧ (m2 ≤ m1)%positive)%Z.
Proof.
  destruct (SFltb (S754_finite false m1 e1) (S754_finite false m2 e2)) eqn:Hlt.
  - apply SFltb_finite in Hlt as [[? ?]|[(_ & _ & Hlt)|(? & _)]]; try done.
    split; [done|]. lia.
  - split; [intros _|done].
    destruct (decide (e2 < e1 ∨ e1 = e2 ∧ (m2 ≤ m1)%positive)%Z) as [|Hno]; [done|].
    assert (Htrue : SFltb (S754_finite false m1 e1) (S754_finite false m2 e2) = true).
    { apply SFltb_finite. right; left. split_and!; try done. lia. }
    congruence.
Qed.

Lemma SFnot_ltb_trans (x y z : spec_float) :
  nonneg x → nonneg y → nonneg z →
  SFltb y x = false → SFltb z y = false → SFltb z x = false.
Proof.
  destruct x as [sx|sx| |sx mx ex], y as [sy|sy| |sy my ey], z as [sz|sz| |sz mz ez];
    simpl; intros Hx Hy Hz; try done; subst; try done.
  rewrite !SFltb_finite_false. lia.
Qed.

Lemma not_ltb_trans (a b c : float) :
  nonneg (Prim2SF a) → nonneg (Prim2SF b) → nonneg (Prim2SF c) →
  PrimFloat.ltb b a = false → PrimFloat.ltb c b = false → PrimFloat.ltb c a = false.
Proof. rewrite !FloatAxioms.ltb_spec. apply SFnot_ltb_trans. Qed.

#[export] Instance engine_earliest_first : EarliestFirst engine.
Proof. intros q e e' Htop He'. by apply (engine_top_minimal q e). Qed.

Section Clock.
Context {queue : EventQueue float} {laws : EventQueueLaws queue}.
Context {earliest : EarliestFirst queue} (rng : Rng float).

Implicit Types (s : Simulation float) (v : Vehicle float) (e : Event float).

Lemma clock_run_iteration s s' :
  Timed s → Books s →
  (∀ e, e ∈ eventQueue s → nonneg (Prim2SF (time e))) →
  (∀ t, t ∈ fired_times (history s) → nonneg (Prim2SF t)) →
  (∀ t e, t ∈ fired_times (history s) → e ∈ eventQueue s →
          PrimFloat.ltb (time e) t = false) →
  (∀ i j t t', i < j →
     fired_times (history s) !! i = Some t → fired_times (history s) !! j = Some t' →
     PrimFloat.ltb t' t = false) →
  run_iteration rng s = Continue s' →
  (∀ t, t ∈ fired_times (history s') → nonneg (Prim2SF t))
  ∧ (∀ t e, t ∈ fired_times (history s') → e ∈ eventQueue s' →
            PrimFloat.ltb (time e) t = false)
  ∧ (∀ i j t t', i < j →
       fired_times (history s') !! i = Some t → fired_times (history s') !! j = Some t' →
       PrimFloat.ltb t' t = false).
Proof.
  intros HT [_ Hsound] Hpos Hfpos Hbehind Hsorted Hstep.
  destruct (fired_run_iteration rng s s' Hstep) as (e & Htop & Hfired).
  destruct (events_run_iteration rng
              (λ e', ∀ t, t ∈ fired_times (history s) ++ [time e] →
                          PrimFloat.ltb (time e') t = false)
              s s' HT Hstep) as (e0 & Htop0 & Hevents).
  rewrite Htop in Htop0. injection Htop0 as <-.
  pose proof (top_pop _ _ Htop) as Hperm.
  assert (He : e ∈ eventQueue s) by (rewrite Hperm; apply list_elem_of_here).
  assert (Hsub : ∀ e', e' ∈ pop (eventQueue s) → e' ∈ eventQueue s).
  { intros e' He'. rewrite Hperm. by apply list_elem_of_further. }
  assert (HTpos : ∀ t, t ∈ fired_times (history s) ++ [time e] → nonneg (Prim2SF t)).
  { intros t [Ht| ->%list_elem_of_singleton]%elem_of_app; [by apply Hfpos|by apply Hpos]. }
  assert (Hpending : ∀ e' t, e' ∈ eventQueue s →
            t ∈ fired_times (history s) ++ [time e] → PrimFloat.ltb (time e') t = false).
  { intros e' t He' [Ht| ->%list_elem_of_singleton]%elem_of_app; [by apply Hbehind|].
    exact (top_earliest (eventQueue s) e e' Htop He'). }
  assert (Hbase : ∀ now,
            now = time e ∨ (∃ next, top (pop (eventQueue s)) = Some next ∧ now = time next) →
            nonneg (Prim2SF now)
            ∧ ∀ t, t ∈ fired_times (history s) ++ [time e] → PrimFloat.ltb now t = false).
  { intros now [->|(next & Hnext & ->)].
    - split; [by apply Hpos|]. intros t Ht. by apply Hpending.
    - assert (Hin : next ∈ eventQueue s).
      { apply Hsub. rewrite (top_pop _ _ Hnext). apply list_elem_of_here. }
      split; [by apply Hpos|]. intros t Ht. by apply Hpending. }
  assert (Hlater : ∀ now d t,
            now = time e ∨ (∃ next, top (pop (eventQueue s)) = Some next ∧ now = time next) →
            nonneg (Prim2SF d) →
            t ∈ fired_times (history s) ++ [time e] →
            PrimFloat.ltb (PrimFloat.add now d) t = false).
  { intros now d t Hnow Hd Ht. destruct (Hbase now Hnow) as [Hn Hle].
    apply (not_ltb_trans t now (PrimFloat.add now d)); try done.
    - by apply HTpos.
    - by apply add_nonneg.
    - by apply Hle.
    - by apply add_not_below. }
  rewrite Hfired. split_and!.
  - done.
  - intros t e' Ht He'. revert t Ht. apply Hevents; try done.
    + intros e'' He'' t Ht. apply Hpending; [by apply Hsub|done].
    + intros now v k Hnow Hv t Ht. simpl. apply Hlater; try done.
      by destruct (Hsound v Hv) as (_ & _ & ? & _).
    + intros now v Hnow Hv t Ht. simpl. apply Hlater; try done.
      by apply flight_duration_nonneg, Hsound.
  - intros i j t t' Hij Hi Hj.
    apply lookup_app_Some in Hj as [Hj|[Hlen Hj]].
    + apply lookup_app_Some in Hi as [Hi|[Hlen' _]]; [by eapply Hsorted|].
      apply lookup_lt_Some in Hj. lia.
    + apply list_lookup_singleton_Some in Hj as [Hj0 <-].
      apply lookup_app_Some in Hi as [Hi|[Hlen' Hi]].
      * apply Hbehind; [by eapply list_elem_of_lookup_2|done].
      * apply list_lookup_singleton_Some in Hi as [Hi' _]. lia.
Qed.

(** X12.  In binary64, with an event queue that hands out an earliest
    event, in every state the loop of [run] reaches: the events were fired in
    the order of their times, and no pending event is earlier than an event
    that was fired.  Simulated time never goes backwards, although
    [finishCharging] takes for now the time of the next pending event. *)
Theorem clock_never_goes_back s :
  reachable rng (Simulation_new rng) s →
  (∀ i j t t', i < j →
     fired_times (history s) !! i = Some t → fired_times (history s) !! j = Some t' →
     PrimFloat.ltb t' t = false)
  ∧ (∀ t e, t ∈ fired_times (history s) → e ∈ eventQueue s →
            PrimFloat.ltb (time e) t = false).
Proof.
  intros Hreach.
  assert (Hall : (∀ t, t ∈ fired_times (history s) → nonneg (Prim2SF t))
                 ∧ (∀ t e, t ∈ fired_times (history s) → e ∈ eventQueue s →
                           PrimFloat.ltb (time e) t = false)
                 ∧ (∀ i j t t', i < j →
                      fired_times (history s) !! i = Some t →
                      fired_times (history s) !! j = Some t' →
                      PrimFloat.ltb t' t = false)).
  { induction Hreach as [|s s' Hreach IH Hstep].
    - rewrite Simulation_new_over.
      destruct (start_Simulation_over rng vehicleTypes_table) as (Hh & _).
      revert Hh. generalize (Simulation_over rng vehicleTypes_table).
      intros s0 Hh. rewrite Hh. simpl. split_and!.
      + by intros t ?%elem_of_nil.
      + by intros t e ?%elem_of_nil.
      + by intros i j t t' _ ?.
    - destruct IH as (I3 & I1 & I2).
      apply (clock_run_iteration s s'); [| | |exact I3|exact I1|exact I2|exact Hstep].
      + exact (Timed_reachable rng _ _ (Timed_Simulation_over rng vehicleTypes_table)
                 Hreach).
      + by apply (Books_reachable rng).
      + by apply (times_reachable rng). }
  destruct Hall as (_ & I1 & I2). by split.
Qed.

End Clock.

(** ** The totals follow the counts *)

Lemma one_type_per_operator `{Double D} (vt vt' : VehicleType D) :
  vt ∈ vehicleTypes_table → vt' ∈ vehicleTypes_table → company vt = company vt' → vt = vt'.
Proof.
  unfold vehicleTypes_table. intros Hin Hin'.
  repeat (apply elem_of_cons in Hin as [->|Hin]);
    repeat (apply elem_of_cons in Hin' as [->|Hin']);
    try (by apply elem_of_nil in Hin); try (by apply elem_of_nil in Hin');
    simpl; intros Hc; by try discriminate Hc.
Qed.

Lemma accumulated_succ `{Double D} (n : Z) (x : D) :
  (0 ≤ n)%Z → accumulated (n + 1) x = (accumulated n x + x)%D.
Proof.
  intros Hn. unfold accumulated.
  replace (Z.to_nat (n + 1)) with (S (Z.to_nat n)) by lia. done.
Qed.

Lemma totals_record_flight `{Double D} a (vt : VehicleType D) sample (st : Stats D) :
  totals_of_counts vt st →
  totals_of_counts vt
    (record_flight {| addr := a; type := vt |}
       (getFlightDuration {| addr := a; type := vt |})
       (getDistancePerFlight {| addr := a; type := vt |}) sample st).
Proof.
  intros (N1 & N2 & H1 & H2 & H3 & H4).
  change (getFlightDuration {| addr := a; type := vt |})
    with (getFlightDuration {| addr := 0; type := vt |}).
  change (getDistancePerFlight {| addr := a; type := vt |})
    with (getDistancePerFlight {| addr := 0; type := vt |}).
  unfold totals_of_counts. cbv zeta in *.
  generalize dependent (getFlightDuration {| addr := 0; type := vt |}).
  generalize dependent (getDistancePerFlight {| addr := 0; type := vt |}).
  intros dist H2 H3 dur H1.
  unfold record_flight.
  cbn [totalFlightTime totalDistance passengerMiles totalChargeTime totalFlights
       totalCharges type passengerCount].
  rewrite !accumulated_succ by done.
  split_and!; [lia|done|by rewrite H1|by rewrite H2|by rewrite H3|done].
Qed.

Lemma totals_record_charge `{Double D} a (vt : VehicleType D) (st : Stats D) :
  totals_of_counts vt st →
  totals_of_counts vt (record_charge {| addr := a; type := vt |} st).
Proof.
  intros (N1 & N2 & H1 & H2 & H3 & H4). unfold totals_of_counts, record_charge.
  cbn [totalFlightTime totalDistance passengerMiles totalChargeTime totalFlights
       totalCharges type timeToCharge].
  rewrite accumulated_succ by done.
  split_and!; [done|lia|done|done|done|by rewrite H4].
Qed.

Section Totals.
Context {D : Type} `{Double D}.
Context {queue : EventQueue D} {laws : EventQueueLaws queue} (rng : Rng D).
Local Open Scope double_scope.

Implicit Types (s : Simulation D) (v : Vehicle D) (vt : VehicleType D).

Lemma totals_run_iteration s s' vt :
  Timed s →
  (∀ v, v ∈ referenced s → type v ∈ vehicleTypes_table) →
  vt ∈ vehicleTypes_table →
  totals_of_counts vt (stats_at (company vt) s) →
  run_iteration rng s = Continue s' →
  totals_of_counts vt (stats_at (company vt) s').
Proof.
  intros HT Htyped Hvt Hs Hstep.
  destruct (run_iteration_books rng s s' HT Hstep) as (e & He & _ & Hst).
  assert (Hv : type (vehicle_of e) ∈ vehicleTypes_table).
  { apply Htyped. apply referenced_cases. left. by exists e. }
  unfold vehicle_of in Hv.
  destruct (action e) as [v a d|v i]; [destruct Hst as [-> Hst]|];
    unfold stats_at in *; rewrite Hst, lookup_insert;
    (destruct (decide (company (type v) = company vt)) as [Heq|Hne]; [|exact Hs]);
    pose proof (one_type_per_operator _ _ Hv Hvt Heq) as Hty;
    rewrite Heq; destruct v as [a' vt']; simpl in Hty; subst vt'.
  - by apply totals_record_flight.
  - by apply totals_record_charge.
Qed.

Lemma totals_reachable s vt :
  reachable rng (Simulation_new rng) s →
  vt ∈ vehicleTypes_table →
  totals_of_counts vt (stats_at (company vt) s).
Proof.
  intros Hreach Hvt. induction Hreach as [|s s' Hreach IH Hstep].
  - unfold stats_at. rewrite Simulation_new_over.
    destruct (start_Simulation_over rng vehicleTypes_table) as (_ & _ & _ & ->).
    rewrite lookup_empty. unfold totals_of_counts. simpl. done.
  - apply (totals_run_iteration s s' vt); [| |done|exact IH|exact Hstep].
    + exact (Timed_reachable rng _ _ (Timed_Simulation_over rng vehicleTypes_table)
               Hreach).
    + intros v Hv. apply (referenced_reachable rng _ _ Hreach) in Hv.
      rewrite Simulation_new_over in Hv.
      by apply (typed_Simulation_over rng vehicleTypes_table).
Qed.

(** X13.  In every state the loop of [run] reaches and for every type of the
    table, in the arithmetic of the program: each total of its operator is
    the value of the type added to zero once per recorded flight (the flight
    duration, the distance per flight, the passenger count times that
    distance) or once per recorded charge (the charge time).  So a row of
    [printStats] is decided by the type and the three counts: its averages
    are these repeated sums divided by the count. *)
Theorem totals_follow_counts s vt :
  reachable rng (Simulation_new rng) s →
  vt ∈ vehicleTypes_table →
  let v := {| addr := 0; type := vt |} in
  let st := stats_at (company vt) s in
  totals_of_counts vt st
  ∧ (∀ r, r ∈ printStats s → operator r = company vt →
       (1 ≤ totalFlights st)%Z
       ∧ avgFlightTime r
         = Some (accumulated (totalFlights st) (getFlightDuration v)
                 / of_int (totalFlights st))
       ∧ avgDistance r
         = Some (accumulated (totalFlights st) (getDistancePerFlight v)
                 / of_int (totalFlights st))
       ∧ avgChargeTime r
         = Some (if decide (0 < totalCharges st)%Z
                 then accumulated (totalCharges st) (timeToCharge vt)
                      / of_int (totalCharges st)
                 else of_int 0)
       ∧ reportedFaults r = totalFaults st
       ∧ reportedPassengerMiles r
         = accumulated (totalFlights st)
             (of_int (passengerCount vt) * getDistancePerFlight v)).
Proof.
  intros Hreach Hvt v st.
  pose proof (totals_reachable s vt Hreach Hvt) as Hbooks.
  split; [exact Hbooks|].
  destruct Hbooks as (N1 & N2 & H1 & H2 & H3 & H4).
  intros r Hr Hop.
  pose proof (Counted_reachable rng _ _ (Timed_Simulation_over rng vehicleTypes_table)
                (Counted_Simulation_over rng vehicleTypes_table) Hreach) as [HC _].
  destruct (HC (company vt)) as [HF HCh].
  assert (Hsome : is_Some (stats s !! company vt)).
  { apply printStats_rows in Hr as (st' & Hst & _). rewrite <-Hop. by eexists. }
  pose proof (proj1 (keys_reachable rng s _ Hreach) Hsome) as Hpos.
  apply printStats_rows in Hr as (st' & Hst & Hrow). rewrite Hop in Hst, Hrow.
  subst st. unfold stats_at in *. rewrite Hst in *.
  change (default Stats0 (Some st')) with st' in *.
  fold v in H1, H2, H3.
  rewrite Hrow. unfold report_of.
  cbn [avgFlightTime avgDistance avgChargeTime reportedFaults reportedPassengerMiles].
  unfold average, divide_by_count.
  destruct (Z.eqb_spec (totalFlights st') 0) as [|_]; [lia|].
  split_and!.
  - lia.
  - by rewrite H1.
  - by rewrite H2.
  - destruct (Z.eqb_spec (totalCharges st') 0) as [Hz|Hnz].
    + by rewrite decide_False by lia.
    + rewrite decide_True by lia. by rewrite H4.
  - done.
  - exact H3.
Qed.

End Totals.

(** ** The statistics only grow *)

Section Growth.
Context {queue : EventQueue float} {laws : EventQueueLaws queue} (rng : Rng float).

Implicit Types (s : Simulation float) (v : Vehicle float) (e : Event float).

Lemma not_below_refl (st : Stats float) : not_below st st.
Proof. unfold not_below. split_and!; try apply binary64_lt_irrefl; lia. Qed.

Lemma not_below_trans (st1 st2 st3 : Stats float) :
  books_nonneg st1 → books_nonneg st2 → books_nonneg st3 →
  not_below st1 st2 → not_below st2 st3 → not_below st1 st3.
Proof.
  intros (A1 & A2 & A3 & A4) (B1 & B2 & B3 & B4) (C1 & C2 & C3 & C4).
  intros (H1 & H2 & H3 & H4 & H5 & H6 & H7) (G1 & G2 & G3 & G4 & G5 & G6 & G7).
  unfold not_below. split_and!; try lia.
  - by apply (not_ltb_trans _ (totalFlightTime st2)).
  - by apply (not_ltb_trans _ (totalDistance st2)).
  - by apply (not_ltb_trans _ (totalChargeTime st2)).
  - by apply (not_ltb_trans _ (passengerMiles st2)).
Qed.

Lemma not_below_run_iteration s s' c :
  Timed s → Books s → run_iteration rng s = Continue s' →
  not_below (stats_at c s) (stats_at c s').
Proof.
  intros HT [Hbooks Hsound] Hstep.
  destruct (run_iteration_books rng s s' HT Hstep) as (e & He & _ & Hst).
  assert (Hv : sound_type (type (vehicle_of e))).
  { apply Hsound. apply referenced_cases. left. by exists e. }
  unfold vehicle_of in Hv. destruct (Hbooks c) as (B1 & B2 & B3 & B4).
  destruct (action e) as [v a d|v i]; [destruct Hst as [-> Hst]|];
    unfold stats_at in *; rewrite Hst, lookup_insert;
    (destruct (decide (company (type v) = c)) as [<-|Hne]; [|apply not_below_refl]);
    destruct Hv as (S1 & S2 & S3 & S4); simpl; unfold not_below; simpl.
  - split_and!; try lia; try (by apply add_not_below);
      try apply binary64_lt_irrefl.
    case_match; lia.
  - split_and!; try lia; try apply binary64_lt_irrefl. by apply add_not_below.
Qed.

(** X14.  In binary64 the statistics only grow: from any state the loop of
    [run] reaches to any later state, no total of any operator (flight time,
    distance, charge time, passenger miles) decreases and no count does. *)
Theorem statistics_only_grow s s' c :
  reachable rng (Simulation_new rng) s →
  reachable rng s s' →
  not_below (stats_at c s) (stats_at c s').
Proof.
  intros Hreach Hlater.
  induction Hlater as [|s1 s2 Hlater IH Hstep]; [apply not_below_refl|].
  assert (Hreach1 : reachable rng (Simulation_new rng) s1)
    by by eapply reachable_trans.
  assert (Hreach2 : reachable rng (Simulation_new rng) s2)
    by by eapply reachable_step.
  apply (not_below_trans _ (stats_at c s1)); [| | |exact IH|].
  - by destruct (Books_reachable rng s Hreach) as [Hb _].
  - by destruct (Books_reachable rng s1 Hreach1) as [Hb _].
  - by destruct (Books_reachable rng s2 Hreach2) as [Hb _].
  - apply not_below_run_iteration; [|by apply (Books_reachable rng)|done].
    exact (Timed_reachable rng _ _ (Timed_Simulation_over rng vehicleTypes_table) Hreach1).
Qed.

End Growth.

(** ** The further properties at work on computed runs *)

Lemma constructor_postcondition_witness :
  7 < NUM_VEHICLES
  ∧ ∃ vt, vehicleTypes_table !! (pick charlie_then_bravo 7 `mod` 5) = Some vt
          ∧ vehicles (Simulation_new charlie_then_bravo) !! 7
            = Some {| addr := 7; type := vt |}.
Proof.
  assert (Hk : 7 < NUM_VEHICLES) by (unfold NUM_VEHICLES; lia).
  split; [exact Hk|].
  destruct constructor_postcondition as [Hgen _].
  pose proof (Hgen float binary64 charlie_then_bravo) as Hnew.
  cbv zeta in Hnew. destruct Hnew as (_ & Hfleet & _).
  exact (Hfleet 7 Hk).
Defined.

Lemma vehicle_distribution_witness :
  reachable (queue := engine) charlie_then_bravo (Simulation_new charlie_then_bravo)
    (after charlie_then_bravo 28)
  ∧ foldr Z.add 0%Z (snd <$> vehicleDistribution (after charlie_then_bravo 28))
    = Z.of_nat NUM_VEHICLES.
Proof.
  assert (Hreach : reachable (queue := engine) charlie_then_bravo
            (Simulation_new charlie_then_bravo) (after charlie_then_bravo 28))
    by (unfold after; apply iterate_reachable).
  split; [exact Hreach|].
  destruct (vehicle_distribution (queue := engine) charlie_then_bravo _ Hreach)
    as (_ & _ & Hsum & _).
  exact Hsum.
Defined.

Lemma one_place_per_vehicle_witness :
  reachable (queue := engine) charlie_then_bravo (Simulation_new charlie_then_bravo)
    (after charlie_then_bravo 28)
  ∧ (length (eventQueue (after charlie_then_bravo 28))
     + length (chargingQueue (after charlie_then_bravo 28)) ≤ NUM_VEHICLES)%nat.
Proof.
  assert (Hreach : reachable (queue := engine) charlie_then_bravo
            (Simulation_new charlie_then_bravo) (after charlie_then_bravo 28))
    by (unfold after; apply iterate_reachable).
  split; [exact Hreach|].
  destruct (one_place_per_vehicle (queue := engine) charlie_then_bravo _ Hreach)
    as (_ & _ & Hbound).
  exact Hbound.
Defined.

(** The 28th iteration of the run of [charlie_then_bravo] drops vehicle 9. *)
Lemma vehicles_leave_by_drop_or_refusal_witness :
  reachable (queue := engine) charlie_then_bravo (Simulation_new charlie_then_bravo)
    (after charlie_then_bravo 27)
  ∧ run_iteration (queue := engine) charlie_then_bravo (after charlie_then_bravo 27)
    = Continue (after charlie_then_bravo 28)
  ∧ ∃ e news,
      @top float engine (eventQueue (after charlie_then_bravo 27)) = Some e
      ∧ history (after charlie_then_bravo 28)
        = history (after charlie_then_bravo 27) ++ Fired e :: news.
Proof.
  assert (Hreach : reachable (queue := engine) charlie_then_bravo
            (Simulation_new charlie_then_bravo) (after charlie_then_bravo 27))
    by (unfold after; apply iterate_reachable).
  assert (Hstep : run_iteration (queue := engine) charlie_then_bravo
                    (after charlie_then_bravo 27)
                  = Continue (after charlie_then_bravo 28))
    by (vm_compute; reflexivity).
  split; [exact Hreach|]. split; [exact Hstep|].
  destruct (vehicles_leave_by_drop_or_refusal (queue := engine) charlie_then_bravo
              _ _ Hreach Hstep) as [(e & news & Htop & Hh & _) _].
  exists e, news. split; [exact Htop|exact Hh].
Defined.

(** After 26 iterations charger 1 holds vehicle 4. *)
Lemma occupied_charger_has_completion_witness :
  reachable (queue := engine) charlie_then_bravo (Simulation_new charlie_then_bravo)
    (after charlie_then_bravo 26)
  ∧ activeChargers (after charlie_then_bravo 26) !! 1
    = Some (Some (vehicle_number charlie_then_bravo 4))
  ∧ ∃ e, e ∈ eventQueue (after charlie_then_bravo 26)
         ∧ action e = ChargeEnd (vehicle_number charlie_then_bravo 4) 1.
Proof.
  assert (Hreach : reachable (queue := engine) charlie_then_bravo
            (Simulation_new charlie_then_bravo) (after charlie_then_bravo 26))
    by (unfold after; apply iterate_reachable).
  assert (Hslot : activeChargers (after charlie_then_bravo 26) !! 1
                  = Some (Some (vehicle_number charlie_then_bravo 4)))
    by (vm_compute; reflexivity).
  split; [exact Hreach|]. split; [exact Hslot|].
  destruct (occupied_charger_has_completion (queue := engine) charlie_then_bravo _ Hreach)
    as (_ & Hiff & _).
  exact (proj1 (Hiff 1 (vehicle_number charlie_then_bravo 4)) Hslot).
Defined.

(** The run of [all_alpha] after 24 iterations. *)
Lemma undefined_exactly_on_last_charge_witness :
  run_iteration (queue := engine) all_alpha (after all_alpha 24) = Undefined
  ∧ ∃ e v i, eventQueue (after all_alpha 24) = [e] ∧ action e = ChargeEnd v i
             ∧ PrimFloat.leb (time e) SIM_DURATION = true.
Proof.
  assert (Hstep : run_iteration (queue := engine) all_alpha (after all_alpha 24)
                  = Undefined) by (vm_compute; reflexivity).
  split; [exact Hstep|].
  destruct (undefined_exactly_on_last_charge (queue := engine) all_alpha) as [_ Hiff].
  exact (proj1 (Hiff (after all_alpha 24)) Hstep).
Defined.

(** The run of [all_charlie] comes to its end. *)
Lemma run_stops_on_empty_queue_witness :
  reachable (queue := engine) all_charlie (Simulation_new all_charlie)
    (after all_charlie 40)
  ∧ run_iteration (queue := engine) all_charlie (after all_charlie 40)
    = Finished (after all_charlie 40)
  ∧ eventQueue (after all_charlie 40) = []
  ∧ activeChargers (after all_charlie 40) = replicate NUM_CHARGERS None.
Proof.
  assert (Hreach : reachable (queue := engine) all_charlie
            (Simulation_new all_charlie) (after all_charlie 40))
    by (unfold after; apply iterate_reachable).
  assert (Hstep : run_iteration (queue := engine) all_charlie (after all_charlie 40)
                  = Finished (after all_charlie 40)) by (vm_compute; reflexivity).
  split; [exact Hreach|]. split; [exact Hstep|].
  destruct (run_stops_on_empty_queue (queue := engine) all_charlie _ Hreach)
    as (_ & _ & Hend).
  destruct (Hend _ Hstep) as (_ & Hq & Hidle).
  split; [exact Hq|exact Hidle].
Defined.

Lemma report_rows_have_flights_witness :
  reachable (queue := engine) charlie_then_bravo (Simulation_new charlie_then_bravo)
    (after charlie_then_bravo 28)
  ∧ operator <$> printStats (after charlie_then_bravo 28)
    = filter (λ c, (0 < count (fired_flight c) (history (after charlie_then_bravo 28)))%nat)
        companies.
Proof.
  assert (Hreach : reachable (queue := engine) charlie_then_bravo
            (Simulation_new charlie_then_bravo) (after charlie_then_bravo 28))
    by (unfold after; apply iterate_reachable).
  split; [exact Hreach|].
  destruct (report_rows_have_flights (queue := engine) charlie_then_bravo _ Hreach)
    as [Hrows _].
  exact Hrows.
Defined.

Lemma flights_charges_balance_witness :
  reachable (queue := engine) charlie_then_bravo (Simulation_new charlie_then_bravo)
    (after charlie_then_bravo 28)
  ∧ (0 ≤ totalCharges (stats_at CHARLIE (after charlie_then_bravo 28))
     ≤ totalFlights (stats_at CHARLIE (after charlie_then_bravo 28)))%Z.
Proof.
  assert (Hreach : reachable (queue := engine) charlie_then_bravo
            (Simulation_new charlie_then_bravo) (after charlie_then_bravo 28))
    by (unfold after; apply iterate_reachable).
  split; [exact Hreach|].
  destruct (flights_charges_balance (queue := engine) charlie_then_bravo _ CHARLIE Hreach)
    as (_ & Hle & _).
  exact Hle.
Defined.

(** After 26 iterations charger 0 is idle and vehicle 7 heads the line: a
    pass at time 2.5 takes it from the line. *)
Lemma matching_pass_witness :
  length (activeChargers (after charlie_then_bravo 26)) = NUM_CHARGERS
  ∧ ∃ taken news,
      chargingQueue (after charlie_then_bravo 26)
      = taken ++ chargingQueue (tryCharging (literal 2.5) (after charlie_then_bravo 26))
      ∧ history (tryCharging (literal 2.5) (after charlie_then_bravo 26))
        = history (after charlie_then_bravo 26) ++ news
      ∧ dequeued news = taken.
Proof.
  assert (Hpool : length (activeChargers (after charlie_then_bravo 26)) = NUM_CHARGERS)
    by (vm_compute; reflexivity).
  split; [exact Hpool|].
  pose proof (matching_pass (literal 2.5) (after charlie_then_bravo 26) Hpool) as Hpass.
  cbv zeta in Hpass. destruct Hpass as (taken & news & Hline & Hh & Hdeq & _).
  exists taken, news. split; [exact Hline|]. split; [exact Hh|exact Hdeq].
Defined.

Lemma faults_do_not_steer_witness :
  (∀ i, pick all_alpha i = pick all_alpha_no_fault i)
  ∧ outcome_schedule (run (queue := engine) all_alpha 20 (Simulation_new all_alpha))
    = outcome_schedule
        (run (queue := engine) all_alpha_no_fault 20 (Simulation_new all_alpha_no_fault)).
Proof.
  assert (Hpick : ∀ i, pick all_alpha i = pick all_alpha_no_fault i)
    by (intros i; reflexivity).
  split; [exact Hpick|].
  exact (faults_do_not_steer (queue := engine) all_alpha all_alpha_no_fault 20 Hpick).
Defined.

Lemma clock_never_goes_back_witness :
  reachable (queue := engine) charlie_then_bravo (Simulation_new charlie_then_bravo)
    (after charlie_then_bravo 28)
  ∧ ∀ t e, t ∈ fired_times (history (after charlie_then_bravo 28)) →
           e ∈ eventQueue (after charlie_then_bravo 28) →
           PrimFloat.ltb (time e) t = false.
Proof.
  assert (Hreach : reachable (queue := engine) charlie_then_bravo
            (Simulation_new charlie_then_bravo) (after charlie_then_bravo 28))
    by (unfold after; apply iterate_reachable).
  split; [exact Hreach|].
  destruct (clock_never_goes_back (queue := engine) charlie_then_bravo _ Hreach)
    as [_ Hbehind].
  exact Hbehind.
Defined.

Lemma totals_follow_counts_witness :
  reachable (queue := engine) all_bravo (Simulation_new all_bravo) (after all_bravo 40)
  ∧ type (test_bravo (D := float)) ∈ vehicleTypes_table
  ∧ totals_of_counts (type test_bravo) (stats_at BRAVO (after all_bravo 40)).
Proof.
  assert (Hreach : reachable (queue := engine) all_bravo
            (Simulation_new all_bravo) (after all_bravo 40))
    by (unfold after; apply iterate_reachable).
  assert (Hvt : type (test_bravo (D := float)) ∈ vehicleTypes_table)
    by (unfold vehicleTypes_table; apply list_elem_of_further, list_elem_of_here).
  split; [exact Hreach|]. split; [exact Hvt|].
  pose proof (totals_follow_counts (queue := engine) all_bravo _ _ Hreach Hvt)
    as Htotals.
  cbv zeta in Htotals. destruct Htotals as [Hbooks _].
  exact Hbooks.
Defined.

Lemma statistics_only_grow_witness :
  reachable (queue := engine) charlie_then_bravo (Simulation_new charlie_then_bravo)
    (after charlie_then_bravo 10)
  ∧ reachable (queue := engine) charlie_then_bravo (after charlie_then_bravo 10)
      (iterate (queue := engine) charlie_then_bravo 18 (after charlie_then_bravo 10))
  ∧ not_below (stats_at CHARLIE (after charlie_then_bravo 10))
      (stats_at CHARLIE
         (iterate (queue := engine) charlie_then_bravo 18 (after charlie_then_bravo 10))).
Proof.
  assert (Hreach : reachable (queue := engine) charlie_then_bravo
            (Simulation_new charlie_then_bravo) (after charlie_then_bravo 10))
    by (unfold after; apply iterate_reachable).
  assert (Hlater : reachable (queue := engine) charlie_then_bravo
            (after charlie_then_bravo 10)
            (iterate (queue := engine) charlie_then_bravo 18 (after charlie_then_bravo 10)))
    by apply iterate_reachable.
  split; [exact Hreach|]. split; [exact Hlater|].
  exact (statistics_only_grow (queue := engine) charlie_then_bravo _ _ CHARLIE Hreach Hlater).
Defined.

(** ** The derived values in binary64

    From the kernel's specification of [*] and [/]: the exact product or
    quotient is cut to 53 bits and rounded to nearest even.  The record of
    the mantissa with its round and sticky bits keeps standing for the exact
    number while it is shifted, so the rounded result is within half a unit
    in its last place of it; for a normal result that is a relative error of
    [2^-53]. *)

Ltac bools :=
  repeat match goal with
  | |- context [(?a <=? ?b)%Z] => destruct (Z.leb_spec a b)
  | |- context [(?a =? ?b)%Z] => destruct (Z.eqb_spec a b)
  | H : context [(?a <=? ?b)%Z] |- _ => destruct (Z.leb_spec a b)
  | H : context [(?a =? ?b)%Z] |- _ => destruct (Z.eqb_spec a b)
  end; simpl in *; try done; try lia.

Lemma describes_shr_1 num den mrs :
  describes num den mrs → describes num (2 * den) (shr_1 mrs).
Proof.
  destruct mrs as [m r s]. unfold describes. cbn [shr_m shr_r shr_s].
  intros ((Hden & Hm & Hf) & -> & ->).
  destruct m as [|[p|p|]|p]; cbn [shr_1 shr_m shr_r shr_s]; try lia;
    try (pose proof (Pos2Z.inj_xI p)); try (pose proof (Pos2Z.inj_xO p));
    (split; [lia|]); split; bools.
Qed.

Lemma describes_iter (p : positive) :
  ∀ num den mrs, describes num den mrs →
    describes num (2 ^ Zpos p * den) (SpecFloat.iter_pos shr_1 p mrs).
Proof.
  induction p as [p IH|p IH|]; intros num den mrs Hd; simpl SpecFloat.iter_pos.
  - apply describes_shr_1, IH, IH in Hd.
    replace (2 ^ Z.pos p~1 * den)%Z with (2 ^ Z.pos p * (2 ^ Z.pos p * (2 * den)))%Z; [done|].
    replace (Z.pos p~1) with (Z.pos p + Z.pos p + 1)%Z by lia.
    rewrite !Z.pow_add_r by lia. lia.
  - apply IH, IH in Hd.
    replace (2 ^ Z.pos p~0 * den)%Z with (2 ^ Z.pos p * (2 ^ Z.pos p * den))%Z; [done|].
    replace (Z.pos p~0) with (Z.pos p + Z.pos p)%Z by lia.
    rewrite !Z.pow_add_r by lia. lia.
  - apply describes_shr_1 in Hd. done.
Qed.

Lemma describes_of_loc num den m l :
  (0 < den)%Z → (0 ≤ m)%Z → (0 ≤ num - m * den < den)%Z →
  l = (if (num - m * den =? 0)%Z then loc_Exact
       else loc_Inexact (2 * (num - m * den) ?= den)%Z) →
  describes num den (shr_record_of_loc m l).
Proof.
  intros Hden Hm Hf ->. unfold describes. rewrite shr_record_of_loc_m.
  split; [done|].
  destruct (Z.eqb_spec (num - m * den) 0) as [Hz|Hz]; simpl.
  - rewrite Hz. simpl. split; bools.
  - destruct (Z.compare_spec (2 * (num - m * den)) den); simpl; split; bools.
Qed.

Lemma describes_error num den mrs :
  describes num den mrs →
  let m1 := round_nearest_even (shr_m mrs) (loc_of_shr_record mrs) in
  (shr_m mrs ≤ m1 ≤ shr_m mrs + 1 ∧ 2 * Z.abs (m1 * den - num) ≤ den)%Z.
Proof.
  destruct mrs as [m r s]. unfold describes. simpl.
  intros ((Hden & Hm & Hf) & -> & ->).
  destruct (Z.leb_spec den (2 * (num - m * den)));
    destruct (Z.eqb_spec (num - m * den) 0);
    destruct (Z.eqb_spec (2 * (num - m * den)) den); simpl; try lia.
  destruct (Z.even m); lia.
Qed.

Lemma Zdigits2_lt (m : Z) : (0 ≤ m)%Z → (m < 2 ^ Zdigits2 m)%Z.
Proof.
  destruct m as [|p|p]; simpl; try lia. intros _. apply digits2_pos_lt.
Qed.

Lemma shr_fexp_describes num den (m e : Z) (l : location) :
  (0 ≤ m)%Z → describes num den (shr_record_of_loc m l) →
  ∃ k, (0 ≤ k)%Z
       ∧ (shr_fexp prec emax m e l).2 = (e + k)%Z
       ∧ describes num (2 ^ k * den) (shr_fexp prec emax m e l).1
       ∧ (-1074 ≤ e + k)%Z
       ∧ (shr_m (shr_fexp prec emax m e l).1 < 2 ^ 53)%Z.
Proof.
  intros Hm Hd. unfold shr_fexp, shr.
  pose proof (Zdigits2_lt m Hm) as Hlt.
  assert (Hdig : (0 ≤ Zdigits2 m)%Z) by (destruct m; simpl; lia).
  set (d := Zdigits2 m) in *.
  destruct (fexp prec emax (d + e) - e)%Z as [|p|p] eqn:Hk.
  - exists 0%Z. simpl. rewrite shr_record_of_loc_m.
    assert (Hfe : (d ≤ 53 ∧ -1074 ≤ e)%Z)
      by (revert Hk; unfold fexp, emin, prec, emax; lia).
    split_and!; try lia.
    + by destruct den.
    + assert (2 ^ d ≤ 2 ^ 53)%Z by (apply Z.pow_le_mono_r; lia). lia.
  - exists (Zpos p). cbn [fst snd].
    assert (Hfe : (d ≤ 53 + Zpos p ∧ -1074 ≤ e + Zpos p)%Z)
      by (revert Hk; unfold fexp, emin, prec, emax; lia).
    split_and!; try lia.
    + by apply describes_iter.
    + rewrite iter_shr_1_div by (rewrite shr_record_of_loc_m; lia).
      rewrite shr_record_of_loc_m.
      apply Z.div_lt_upper_bound; [apply Z.pow_pos_nonneg; lia|].
      rewrite <-Z.pow_add_r by lia.
      assert (2 ^ d ≤ 2 ^ (Zpos p + 53))%Z by (apply Z.pow_le_mono_r; lia). lia.
  - exists 0%Z. simpl. rewrite shr_record_of_loc_m.
    assert (Hfe : (d ≤ 53 ∧ -1074 ≤ e)%Z)
      by (revert Hk; unfold fexp, emin, prec, emax; lia).
    split_and!; try lia.
    + by destruct den.
    + assert (2 ^ d ≤ 2 ^ 53)%Z by (apply Z.pow_le_mono_r; lia). lia.
Qed.

(** The result of rounding, when it is a finite number, is within half a
    unit in its last place of the number rounded. *)
Lemma binary_round_aux_error (s s' : bool) (m e : Z) (l : location) num den
    (m' : positive) (e' : Z) :
  (0 ≤ m)%Z → describes num den (shr_record_of_loc m l) →
  binary_round_aux prec emax s m e l = S754_finite s' m' e' →
  s' = s
  ∧ ∃ k, (0 ≤ k ∧ e' = e + k
          ∧ 2 * Z.abs (Zpos m' * 2 ^ k * den - num) ≤ 2 ^ k * den)%Z.
Proof.
  intros Hm Hd. unfold binary_round_aux.
  destruct (shr_fexp_describes num den m e l Hm Hd) as (k1 & Hk1 & He1 & Hd1 & Hemin & Hsmall).
  destruct (shr_fexp prec emax m e l) as [mrs1 e1]. cbn [fst snd] in *. subst e1.
  destruct (describes_error _ _ _ Hd1) as [Hrne Herr]. cbv zeta in Hrne, Herr.
  assert (Hm1 : (0 ≤ shr_m mrs1)%Z) by (destruct Hd1 as ((_ & ? & _) & _); done).
  assert (Hpos : (0 < 2 ^ k1 * den)%Z) by (destruct Hd1 as ((? & _) & _); done).
  assert (Hpow : (0 < 2 ^ k1)%Z) by (apply Z.pow_pos_nonneg; lia).
  destruct (round_nearest_even (shr_m mrs1) (loc_of_shr_record mrs1)) as [|p1|p1] eqn:Hp1;
    try lia.
  - (* rounded to zero *)
    unfold shr_fexp, shr. simpl Zdigits2.
    destruct (fexp prec emax (0 + (e + k1)) - (e + k1))%Z as [|q|q] eqn:Hq; simpl; try done.
    rewrite iter_shr_1_div by (simpl; lia). simpl shr_m. rewrite Zdiv_0_l. done.
  - destruct (shr_fexp_pos p1 (e + k1) loc_Exact) as [[Hk2 Heq2]|(Hk2 & Hm2 & He2)].
    + rewrite Heq2. simpl.
      destruct (e + k1 <=? emax - prec)%Z; [|done].
      intros [= -> <- <-]. split; [done|]. exists k1. split_and!; lia.
    + (* the mantissa has carried into a 54th bit *)
      destruct (shr_fexp prec emax (Zpos p1) (e + k1) loc_Exact) as [mrs2 e2].
      simpl in Hm2, He2. subst e2.
      set (k2 := (fexp prec emax (Zpos (digits2_pos p1) + (e + k1)) - (e + k1))%Z) in *.
      pose proof (digits2_pos_pow p1) as Hlow. pose proof (digits2_pos_lt p1) as Hup.
      assert (Hd54 : (Zpos (digits2_pos p1) ≤ 54)%Z).
      { destruct (decide (Zpos (digits2_pos p1) ≤ 54)%Z) as [|Hbig]; [done|].
        assert (2 ^ 54 ≤ 2 ^ (Zpos (digits2_pos p1) - 1))%Z by (apply Z.pow_le_mono_r; lia).
        lia. }
      assert (Hk2' : (k2 = 1 ∧ Zpos (digits2_pos p1) = 54)%Z)
        by (subst k2; revert Hk2; unfold fexp, emin, prec, emax; lia).
      destruct Hk2' as [Hk2' Hd1']. rewrite Hd1' in Hlow. simpl in Hlow.
      assert (Hp1' : Zpos p1 = (2 ^ 53)%Z) by lia.
      rewrite Hm2, Hk2', Hp1'. change (2 ^ 53 / 2 ^ 1)%Z with (2 ^ 52)%Z.
      simpl.
      destruct (e + k1 + 1 <=? emax - prec)%Z; [|done].
      intros [= -> <- <-]. split; [done|]. exists (k1 + 1)%Z. split_and!; try lia.
      rewrite Z.pow_add_r by lia. change (2 ^ 1)%Z with 2%Z.
      replace (4503599627370496 * (2 ^ k1 * 2) * den)%Z
        with (Zpos p1 * (2 ^ k1 * den))%Z by lia.
      lia.
Qed.

Lemma two_power_pos (e : Z) : (0 < 2 ^ e)%Q.
Proof. by apply Qpower_0_lt. Qed.

Lemma two_power_plus (a b : Z) : (2 ^ (a + b) == 2 ^ a * 2 ^ b)%Q.
Proof. by apply Qpower_plus. Qed.

Lemma two_power_inject (k : Z) : (0 ≤ k)%Z → (inject_Z (2 ^ k) == 2 ^ k)%Q.
Proof. intros Hk. by rewrite Zpower_Qpower. Qed.

Lemma SF2Q_pos m e : (0 < SF2Q (S754_finite false m e))%Q.
Proof.
  simpl. apply Qmult_lt_0_compat; [|apply two_power_pos].
  change 0%Q with (inject_Z 0). rewrite <-Zlt_Qlt. lia.
Qed.

(** A normal number is at least [2^52] units in its last place. *)
Lemma normal_ulp m e :
  digits2_pos m = 53%positive →
  (2 ^ e <= 2 * unit_roundoff * SF2Q (S754_finite false m e))%Q.
Proof.
  intros Hd. pose proof (digits2_pos_pow m) as Hlow. rewrite Hd in Hlow.
  change (2 ^ (53 - 1))%Z with 4503599627370496%Z in Hlow.
  rewrite Zle_Qle in Hlow. simpl SF2Q.
  pose proof (two_power_pos e) as Hpos.
  unfold unit_roundoff. change (2 ^ 53)%positive with 9007199254740992%positive.
  set (M := inject_Z (Zpos m)) in *. set (P := (2 ^ e)%Q) in *.
  change (inject_Z 4503599627370496) with (4503599627370496 # 1)%Q in Hlow.
  nra.
Qed.

(** A product that is a normal number is within one unit in the last place,
    relative, of the exact product. *)
Lemma SFmul_error (mx my m : positive) (ex ey e : Z) (s : bool) :
  SF64mul (S754_finite false mx ex) (S754_finite false my ey) = S754_finite s m e →
  digits2_pos m = 53%positive →
  s = false
  ∧ (Qabs (SF2Q (S754_finite false m e)
           - SF2Q (S754_finite false mx ex) * SF2Q (S754_finite false my ey))
     <= unit_roundoff * SF2Q (S754_finite false m e))%Q.
Proof.
  unfold SF64mul, SFmul. simpl xorb. intros Hr Hd.
  apply (binary_round_aux_error _ _ _ _ _ (Zpos (mx * my)) 1) in Hr as [-> (k & Hk & -> & Herr)];
    [|lia|apply describes_of_loc; try lia;
          replace (Z.pos (mx * my) - Z.pos (mx * my) * 1)%Z with 0%Z by lia; done].
  split; [done|].
  pose proof (normal_ulp m (ex + ey + k) Hd) as Hulp.
  pose proof (SF2Q_pos m (ex + ey + k)) as Hpos.
  simpl SF2Q in *. rewrite !two_power_plus in *.
  pose proof (two_power_pos ex) as Hpx. pose proof (two_power_pos ey) as Hpy.
  pose proof (two_power_pos k) as Hpk.
  assert (Hlo : (2 * (Zpos m * 2 ^ k) ≤ 2 ^ k + 2 * (Zpos mx * Zpos my))%Z) by lia.
  assert (Hhi : (2 * (Zpos mx * Zpos my) ≤ 2 ^ k + 2 * (Zpos m * 2 ^ k))%Z) by lia.
  rewrite Zle_Qle in Hlo, Hhi.
  rewrite !inject_Z_plus, !inject_Z_mult, !two_power_inject in Hlo, Hhi by done.
  set (M := inject_Z (Zpos m)) in *. set (Mx := inject_Z (Zpos mx)) in *.
  set (My := inject_Z (Zpos my)) in *.
  set (Px := (2 ^ ex)%Q) in *. set (Py := (2 ^ ey)%Q) in *. set (Pk := (2 ^ k)%Q) in *.
  change (inject_Z 2) with 2%Q in *.
  assert (Hxy : (0 < Px * Py)%Q) by (by apply Qmult_lt_0_compat).
  apply Qabs_Qle_condition. split.
  - assert (H1 : ((2 * (Mx * My)) * (Px * Py) <= (Pk + 2 * (M * Pk)) * (Px * Py))%Q)
      by (apply Qmult_le_compat_r; [done|by apply Qlt_le_weak]).
    lra.
  - assert (H1 : ((2 * (M * Pk)) * (Px * Py) <= (Pk + 2 * (Mx * My)) * (Px * Py))%Q)
      by (apply Qmult_le_compat_r; [done|by apply Qlt_le_weak]).
    lra.
Qed.

Lemma new_location_spec (nb k : Z) :
  new_location nb k
  = if (k =? 0)%Z then loc_Exact else loc_Inexact (2 * k ?= nb)%Z.
Proof.
  unfold new_location, new_location_even, new_location_odd.
  destruct (Z.even nb) eqn:Heven; [done|].
  destruct (k =? 0)%Z; [done|]. f_equal.
  assert (Hodd : Z.odd nb = true) by (rewrite <-Z.negb_even, Heven; done).
  apply Z.odd_spec in Hodd as [h Hh].
  destruct (Z.compare_spec (2 * k + 1) nb), (Z.compare_spec (2 * k) nb); try done; lia.
Qed.

(** A quotient that is a normal number, multiplied back by the divisor, is
    within one unit in the last place, relative, of the dividend. *)
Lemma SFdiv_error (mx my m : positive) (ex ey e : Z) (s : bool) :
  SF64div (S754_finite false mx ex) (S754_finite false my ey) = S754_finite s m e →
  digits2_pos m = 53%positive →
  s = false
  ∧ (Qabs (SF2Q (S754_finite false m e) * SF2Q (S754_finite false my ey)
           - SF2Q (S754_finite false mx ex))
     <= unit_roundoff * (SF2Q (S754_finite false m e) * SF2Q (S754_finite false my ey)))%Q.
Proof.
  unfold SF64div, SFdiv, SFdiv_core_binary. simpl xorb. simpl Zdigits2.
  set (e0 := Z.min (fexp prec emax (Zpos (digits2_pos mx) + ex - (Zpos (digits2_pos my) + ey)))
               (ex - ey)).
  set (sh := (ex - ey - e0)%Z).
  assert (Hsh : (0 ≤ sh)%Z) by (subst sh e0; lia).
  set (m0 := match sh with
             | 0%Z => Zpos mx
             | Zpos _ => Z.shiftl (Zpos mx) sh
             | Zneg _ => 0%Z
             end).
  assert (Hm0 : m0 = (Zpos mx * 2 ^ sh)%Z).
  { subst m0. destruct sh as [|p|p] eqn:Hp; [simpl; lia| |lia].
    by rewrite Z.shiftl_mul_pow2. }
  pose proof (Z_div_mod m0 (Zpos my) ltac:(lia)) as Hdiv.
  destruct (Z.div_eucl m0 (Zpos my)) as [q r]. destruct Hdiv as [Hq Hr].
  intros Hres Hd.
  assert (Hpow : (0 < 2 ^ sh)%Z) by (apply Z.pow_pos_nonneg; lia).
  assert (Hq0 : (0 ≤ q)%Z) by nia.
  apply (binary_round_aux_error _ _ _ _ _ m0 (Zpos my)) in Hres
    as [-> (k & Hk & -> & Herr)]; [|done|].
  2:{ apply describes_of_loc; try lia.
      rewrite new_location_spec.
      replace (m0 - q * Z.pos my)%Z with r by lia. done. }
  split; [done|].
  pose proof (digits2_pos_pow m) as Hlow. rewrite Hd in Hlow.
  change (2 ^ (53 - 1))%Z with 4503599627370496%Z in Hlow.
  rewrite Zle_Qle in Hlow.
  change (inject_Z 4503599627370496) with (4503599627370496 # 1)%Q in Hlow.
  rewrite Hm0 in Herr.
  assert (Hlo : (2 * (Zpos m * 2 ^ k * Zpos my) ≤ 2 ^ k * Zpos my + 2 * (Zpos mx * 2 ^ sh))%Z)
    by lia.
  assert (Hhi : (2 * (Zpos mx * 2 ^ sh) ≤ 2 ^ k * Zpos my + 2 * (Zpos m * 2 ^ k * Zpos my))%Z)
    by lia.
  rewrite Zle_Qle in Hlo, Hhi.
  rewrite !inject_Z_plus, !inject_Z_mult, !two_power_inject in Hlo, Hhi by done.
  simpl SF2Q.
  replace ex with (sh + (e0 + ey))%Z at 1 by (subst sh; lia).
  rewrite !two_power_plus.
  pose proof (two_power_pos e0) as Hp0. pose proof (two_power_pos ey) as Hpy.
  pose proof (two_power_pos k) as Hpk. pose proof (two_power_pos sh) as Hps.
  assert (HMy : (0 < inject_Z (Zpos my))%Q).
  { change 0%Q with (inject_Z 0). rewrite <-Zlt_Qlt. lia. }
  set (M := inject_Z (Zpos m)) in *. set (Mx := inject_Z (Zpos mx)) in *.
  set (My := inject_Z (Zpos my)) in *.
  set (P0 := (2 ^ e0)%Q) in *. set (Py := (2 ^ ey)%Q) in *.
  set (Pk := (2 ^ k)%Q) in *. set (Ps := (2 ^ sh)%Q) in *.
  change (inject_Z 2) with 2%Q in *.
  assert (Hscale : (0 < P0 * Py)%Q) by (by apply Qmult_lt_0_compat).
  assert (HkMy : (0 < Pk * My)%Q) by (by apply Qmult_lt_0_compat).
  assert (Hhalf : (Pk * My <= 2 * unit_roundoff * (M * Pk * My))%Q).
  { unfold unit_roundoff. change (2 ^ 53)%positive with 9007199254740992%positive.
    assert (H1 : ((4503599627370496 # 1) * (Pk * My) <= M * (Pk * My))%Q)
      by (apply Qmult_le_compat_r; [done|by apply Qlt_le_weak]).
    lra. }
  apply Qabs_Qle_condition. split.
  - assert (H1 : ((2 * (Mx * Ps)) * (P0 * Py) <= (Pk * My + 2 * (M * Pk * My)) * (P0 * Py))%Q)
      by (apply Qmult_le_compat_r; [done|by apply Qlt_le_weak]).
    assert (H2 : ((Pk * My) * (P0 * Py) <= (2 * unit_roundoff * (M * Pk * My)) * (P0 * Py))%Q)
      by (apply Qmult_le_compat_r; [done|by apply Qlt_le_weak]).
    lra.
  - assert (H1 : ((2 * (M * Pk * My)) * (P0 * Py) <= (Pk * My + 2 * (Mx * Ps)) * (P0 * Py))%Q)
      by (apply Qmult_le_compat_r; [done|by apply Qlt_le_weak]).
    assert (H2 : ((Pk * My) * (P0 * Py) <= (2 * unit_roundoff * (M * Pk * My)) * (P0 * Py))%Q)
      by (apply Qmult_le_compat_r; [done|by apply Qlt_le_weak]).
    lra.
Qed.

Lemma classify_normal (x : float) :
  PrimFloat.classify x = PNormal →
  ∃ m e, Prim2SF x = S754_finite false m e ∧ digits2_pos m = 53%positive.
Proof.
  rewrite FloatAxioms.classify_spec. unfold SF64classify, SFclassify.
  destruct (Prim2SF x) as [[|]|[|]| |[|] m e]; try done.
  - destruct (Z.eqb_spec (Zpos (digits2_pos m)) prec); done.
  - destruct (Z.eqb_spec (Zpos (digits2_pos m)) prec) as [Hd|]; [|done].
    intros _. exists m, e. split; [done|]. unfold prec in Hd. lia.
Qed.

Lemma positive_cases (x : float) :
  PrimFloat.ltb 0 x = true →
  (∃ m e, Prim2SF x = S754_finite false m e) ∨ Prim2SF x = S754_infinity false.
Proof.
  rewrite FloatAxioms.ltb_spec.
  change (Prim2SF 0) with (S754_zero false).
  destruct (Prim2SF x) as [[|]|[|]| |[|] m e]; try done; [by right|left; eauto].
Qed.

(** From a bound on [a * b - c] to a bound on [a - c / b]. *)
Lemma relative_quotient (a b c eps : Q) :
  (0 < b)%Q → (Qabs (a * b - c) <= eps * c)%Q → (Qabs (a - c / b) <= eps * (c / b))%Q.
Proof.
  intros Hb Habs. apply Qabs_Qle_condition in Habs as [Hlo Hhi].
  assert (Hq : (c / b * b == c)%Q) by (field; lra).
  set (q := (c / b)%Q) in *. rewrite <-Hq in Hlo, Hhi.
  apply Qabs_Qle_condition. split.
  - apply (Qmult_le_r _ _ b Hb). lra.
  - apply (Qmult_le_r _ _ b Hb). lra.
Qed.

(** The arithmetic of the three roundings. *)
Lemma three_roundings (c s e p d x : Q) :
  (0 < c)%Q → (0 < s)%Q → (0 < e)%Q → (0 < p)%Q → (0 < d)%Q → (0 < x)%Q →
  (Qabs (p - s * e) <= unit_roundoff * p)%Q →
  (Qabs (d * p - c) <= unit_roundoff * (d * p))%Q →
  (Qabs (x - s * d) <= unit_roundoff * x)%Q →
  (Qabs (d * (s * e) - c) <= 4 * unit_roundoff * c)%Q
  ∧ (Qabs (x * e - c) <= 4 * unit_roundoff * c)%Q.
Proof.
  intros Hc Hs He Hp Hd Hx H1 H2 H3.
  apply Qabs_Qle_condition in H1 as [H1lo H1hi].
  apply Qabs_Qle_condition in H2 as [H2lo H2hi].
  apply Qabs_Qle_condition in H3 as [H3lo H3hi].
  assert (G1lo : (- (unit_roundoff * p) * d <= (p - s * e) * d)%Q)
    by (apply Qmult_le_compat_r; [done|by apply Qlt_le_weak]).
  assert (G1hi : ((p - s * e) * d <= unit_roundoff * p * d)%Q)
    by (apply Qmult_le_compat_r; [done|by apply Qlt_le_weak]).
  assert (G3lo : (- (unit_roundoff * x) * e <= (x - s * d) * e)%Q)
    by (apply Qmult_le_compat_r; [done|by apply Qlt_le_weak]).
  assert (G3hi : ((x - s * d) * e <= unit_roundoff * x * e)%Q)
    by (apply Qmult_le_compat_r; [done|by apply Qlt_le_weak]).
  unfold unit_roundoff in *. change (2 ^ 53)%positive with 9007199254740992%positive in *.
  split; apply Qabs_Qle_condition; split; lra.
Qed.

Lemma is_normal_spec (x : float) :
  is_normal x = true →
  ∃ m e, Prim2SF x = S754_finite false m e ∧ digits2_pos m = 53%positive.
Proof.
  unfold is_normal. intros Hn. apply classify_normal.
  by destruct (PrimFloat.classify x).
Qed.

Lemma value_finite (x : float) m e :
  Prim2SF x = S754_finite false m e → value x = SF2Q (S754_finite false m e).
Proof. unfold value. by intros ->. Qed.

(** The derived values of a vehicle in range, against the exact quotients. *)
Lemma in_range_agrees (v : Vehicle float) :
  in_range v = true →
  agrees (getFlightDuration v)
    (value (batteryCapacity (type v))
     / (value (cruiseSpeed (type v)) * value (energyPerMile (type v))))
  ∧ agrees (getDistancePerFlight v)
      (value (batteryCapacity (type v)) / value (energyPerMile (type v))).
Proof.
  unfold in_range, getDistancePerFlight, getFlightDuration.
  destruct v as [a [co S C t E pc f]]. cbn [type batteryCapacity cruiseSpeed energyPerMile].
  change (@ddiv float binary64) with PrimFloat.div.
  change (@dmul float binary64) with PrimFloat.mul.
  rewrite !andb_true_iff.
  intros (((((HC & HS) & HE) & Hp) & Hd) & Hx).
  apply is_normal_spec in Hp as (mp & ep & Hp & Hdp).
  apply is_normal_spec in Hd as (md & ed & Hd & Hdd).
  apply is_normal_spec in Hx as (mx & ex & Hx & Hdx).
  pose proof Hp as Hp'. pose proof Hd as Hd'. pose proof Hx as Hx'.
  rewrite FloatAxioms.mul_spec in Hp'.
  rewrite FloatAxioms.div_spec, Hp in Hd'.
  rewrite FloatAxioms.mul_spec, Hd in Hx'.
  apply positive_cases in HC as [(mC & eC & HC)|HC]; rewrite HC in Hd'; [|done].
  apply positive_cases in HS as [(mS & eS & HS)|HS]; rewrite HS in Hp', Hx'; [|done].
  apply positive_cases in HE as [(mE & eE & HE)|HE]; rewrite HE in Hp'; [|done].
  apply SFmul_error in Hp' as [_ H1]; [|done].
  apply SFdiv_error in Hd' as [_ H2]; [|done].
  apply SFmul_error in Hx' as [_ H3]; [|done].
  unfold agrees.
  rewrite (value_finite _ _ _ HC), (value_finite _ _ _ HS), (value_finite _ _ _ HE).
  rewrite (value_finite _ _ _ Hd), (value_finite _ _ _ Hx).
  pose proof (SF2Q_pos mC eC) as PC. pose proof (SF2Q_pos mS eS) as PS.
  pose proof (SF2Q_pos mE eE) as PE. pose proof (SF2Q_pos mp ep) as Pp.
  pose proof (SF2Q_pos md ed) as Pd. pose proof (SF2Q_pos mx ex) as Px.
  set (c := SF2Q (S754_finite false mC eC)) in *.
  set (s := SF2Q (S754_finite false mS eS)) in *.
  set (e := SF2Q (S754_finite false mE eE)) in *.
  set (p := SF2Q (S754_finite false mp ep)) in *.
  set (d := SF2Q (S754_finite false md ed)) in *.
  set (x := SF2Q (S754_finite false mx ex)) in *.
  destruct (three_roundings c s e p d x PC PS PE Pp Pd Px H1 H2 H3) as [G1 G2].
  split; apply relative_quotient; try done.
  by apply Qmult_lt_0_compat.
Qed.

(** C4.  The flight duration is the binary64 quotient [C / (S * E)] and the
    distance per flight the binary64 product of [S] and that quotient, each
    operation rounded to nearest.  Whenever the battery capacity C, the
    cruise speed S and the energy per mile E are positive and none of the
    three operations overflows or underflows, the duration is C/(S*E) and
    the distance is S*C/(S*E), which is C/E, up to a relative error of
    [2^-51].  Every type of the table is in that range, and so is the vehicle
    of the unit test (S = 100, C = 100, E = 1.5), whose quotients are 2/3 and
    200/3: its duration lies between 0.666 and 0.668 and its distance
    between 66.6 and 66.8. *)
Theorem derived_values :
  (∀ v : Vehicle float,
     in_range v = true →
     let C := value (batteryCapacity (type v)) in
     let S := value (cruiseSpeed (type v)) in
     let E := value (energyPerMile (type v)) in
     agrees (getFlightDuration v) (C / (S * E))
     ∧ agrees (getDistancePerFlight v) (S * C / (S * E))
     ∧ (S * C / (S * E) == C / E)%Q)
  ∧ (∀ a vt, vt ∈ vehicleTypes_table → in_range {| addr := a; type := vt |} = true)
  ∧ (in_range test_bravo = true
     ∧ (value (batteryCapacity (type test_bravo))
        / (value (cruiseSpeed (type test_bravo)) * value (energyPerMile (type test_bravo)))
        == 2 # 3)%Q
     ∧ (value (batteryCapacity (type test_bravo)) / value (energyPerMile (type test_bravo))
        == 200 # 3)%Q
     ∧ PrimFloat.ltb (literal 0.666) (getFlightDuration test_bravo) = true
     ∧ PrimFloat.ltb (getFlightDuration test_bravo) (literal 0.668) = true
     ∧ PrimFloat.ltb (literal 66.6) (getDistancePerFlight test_bravo) = true
     ∧ PrimFloat.ltb (getDistancePerFlight test_bravo) (literal 66.8) = true).
Proof.
  split; [|split; [|split_and!; vm_compute; reflexivity]].
  - intros v Hv C S E.
    destruct (in_range_agrees v Hv) as [Hd Hx]. fold C S E in Hd, Hx.
    assert (HS : (0 < S)%Q).
    { unfold in_range in Hv. rewrite !andb_true_iff in Hv.
      destruct Hv as (((((_ & HS) & _) & Hp) & _) & _).
      apply is_normal_spec in Hp as (mp & ep & Hp & _).
      rewrite FloatAxioms.mul_spec in Hp.
      apply positive_cases in HS as [(mS & eS & HS)|HS].
      - subst S. rewrite (value_finite _ _ _ HS). apply SF2Q_pos.
      - rewrite HS in Hp. by destruct (Prim2SF (energyPerMile (type v))) as [| | |[]]. }
    assert (HE : (0 < E)%Q).
    { unfold in_range in Hv. rewrite !andb_true_iff in Hv.
      destruct Hv as (((((_ & HS') & HE) & Hp) & _) & _).
      apply is_normal_spec in Hp as (mp & ep & Hp & _).
      rewrite FloatAxioms.mul_spec in Hp.
      apply positive_cases in HE as [(mE & eE & HE)|HE].
      - subst E. rewrite (value_finite _ _ _ HE). apply SF2Q_pos.
      - rewrite HE in Hp. by destruct (Prim2SF (cruiseSpeed (type v))) as [| | |[]]. }
    assert (Heq : (S * C / (S * E) == C / E)%Q) by (field; lra).
    split_and!; [done| |done].
    unfold agrees in *. by rewrite Heq.
  - intros a vt Hvt. unfold vehicleTypes_table in Hvt.
    repeat (apply elem_of_cons in Hvt as [->|Hvt]); try (vm_compute; reflexivity).
    by apply elem_of_nil in Hvt.
Qed.

(** C4 as it is worded fails.  With C = 100, S = 1e308 and E = 10, all
    positive, the product S*E overflows to infinity: the flight duration is
    0 and the distance per flight is 0, while C/E is 10.  And for the vehicle
    of the unit test, which is in range, the derived values are near the
    quotients 2/3 and 200/3 but are not these numbers, which no binary64
    is. *)
Lemma derived_values_not_exact :
  (PrimFloat.ltb 0 (batteryCapacity (type test_overflow)) = true
   ∧ PrimFloat.ltb 0 (cruiseSpeed (type test_overflow)) = true
   ∧ PrimFloat.ltb 0 (energyPerMile (type test_overflow)) = true)
  ∧ getFlightDuration test_overflow = 0%float
  ∧ getDistancePerFlight test_overflow = 0%float
  ∧ (value (batteryCapacity (type test_overflow))
     / value (energyPerMile (type test_overflow)) == 10)%Q
  ∧ ¬ agrees (getDistancePerFlight test_overflow)
        (value (batteryCapacity (type test_overflow))
         / value (energyPerMile (type test_overflow)))
  ∧ ¬ derived_exactly test_overflow
  ∧ in_range test_bravo = true
  ∧ ¬ derived_exactly test_bravo.
Proof.
  split_and!; try (vm_compute; reflexivity).
  - unfold agrees. intros Habs. vm_compute in Habs. by apply Habs.
  - intros [_ Hx]. vm_compute in Hx. discriminate Hx.
  - intros [_ Hx]. vm_compute in Hx. discriminate Hx.
Qed.

Lemma derived_values_witness :
  in_range test_bravo = true
  ∧ agrees (getFlightDuration test_bravo)
      (value (batteryCapacity (type test_bravo))
       / (value (cruiseSpeed (type test_bravo)) * value (energyPerMile (type test_bravo)))).
Proof.
  assert (Hin : in_range test_bravo = true) by (vm_compute; reflexivity).
  split; [exact Hin|].
  destruct derived_values as [Hgen _].
  pose proof (Hgen test_bravo Hin) as Hv. cbv zeta in Hv.
  destruct Hv as [Hd _]. exact Hd.
Defined.
